(** * s3sync: the versioned S3 storage client (storage/storage-s3v.go)

    A shallow embedding of [S3vStorage] and its five operations ([List],
    [PutObject], [GetObjectContent], [GetObjectMeta], [DeleteObject]).

    The remote store client, the clock and the logger are collaborators of
    the Go code.  They are embedded as an oracle ([S3]) that answers the
    n-th remote call, and as a chronological trace of events ([Event]) that
    records every remote request, channel send, limiter wait, log line and
    sleep.  The receiver [*S3vStorage] and the trace are threaded by a small
    state monad whose outcomes also cover a Go panic. *)

From Stdlib Require Import String Ascii List NArith ZArith Bool Lia.
From Stdlib Require Import Init.Byte.
Import ListNotations.

Local Open Scope list_scope.

(** ** Go base types *)

(** Go's [error] values that reach this file: the one [net/url] builds for a
    malformed escape, and whatever the remote store client returns. *)
Inductive error : Type :=
| EscapeError (frag : string)
| RemoteError (msg : string).

(** [time.Time] and [time.Duration] (an int64 of nanoseconds). *)
Definition Time := Z.
Definition Duration := Z.

(** Go's [uint] on a 64-bit platform: [i++] wraps at 2^64. *)
Definition uint_modulus : N := 2 ^ 64.
Definition uint_succ (i : N) : N := ((i + 1) mod uint_modulus)%N.

(** [aws.StringValue] and [aws.Int64Value]: nil-safe dereference. *)
Definition StringValue (p : option string) : string :=
  match p with Some s => s | None => EmptyString end.
Definition Int64Value (p : option Z) : Z :=
  match p with Some z => z | None => 0%Z end.

Definition isErr (e : option error) : bool :=
  match e with Some _ => true | None => false end.

(** ** net/url: QueryUnescape *)

Module url.

Definition pct : ascii := "%"%char.
Definition plus : ascii := "+"%char.
Definition space : ascii := " "%char.

Definition between (lo hi c : ascii) : bool :=
  ((nat_of_ascii lo <=? nat_of_ascii c) && (nat_of_ascii c <=? nat_of_ascii hi))%nat.

(** [ishex]: '0'..'9', 'a'..'f', 'A'..'F'. *)
Definition ishex (c : ascii) : bool :=
  between "0" "9" c || between "a" "f" c || between "A" "F" c.

(** [unhex]: the value of a hex digit, 0 for any other byte. *)
Definition unhex (c : ascii) : N :=
  if between "0" "9" c then N_of_ascii c - N_of_ascii "0"
  else if between "a" "f" c then N_of_ascii c - N_of_ascii "a" + 10
  else if between "A" "F" c then N_of_ascii c - N_of_ascii "A" + 10
  else 0.

(** [s[:3]] when [len(s) > 3], else [s]. *)
Definition first3 (s : string) : string := String.substring 0 3 s.

(** First loop of [unescape] in mode [encodeQueryComponent]: count the
    escapes, check that each is followed by two hex digits, note a '+'. *)
Fixpoint unescape_scan (s : string) (n : nat) (hasPlus : bool)
  : error + (nat * bool) :=
  match s with
  | EmptyString => inr (n, hasPlus)
  | String c rest =>
      if Ascii.eqb c pct then
        match rest with
        | String a (String b rest') =>
            if ishex a && ishex b
            then unescape_scan rest' (S n) hasPlus
            else inl (EscapeError (first3 s))
        | _ => inl (EscapeError (first3 s))
        end
      else if Ascii.eqb c plus then unescape_scan rest n true
      else unescape_scan rest n hasPlus
  end.

(** Second loop of [unescape]: write the decoded bytes.  The scan has
    already rejected a truncated escape, so the last branch of the inner
    match is never reached from [QueryUnescape]. *)
Fixpoint unescape_build (s : string) : string :=
  match s with
  | EmptyString => EmptyString
  | String c rest =>
      if Ascii.eqb c pct then
        match rest with
        | String a (String b rest') =>
            String (ascii_of_N (N.lor (N.shiftl (unhex a) 4) (unhex b)))
                   (unescape_build rest')
        | _ => EmptyString
        end
      else if Ascii.eqb c plus then String space (unescape_build rest)
      else String c (unescape_build rest)
  end.

(** [url.QueryUnescape]: on a malformed escape the result is the empty
    string together with the error. *)
Definition QueryUnescape (s : string) : string * option error :=
  match unescape_scan s 0 false with
  | inl e => (EmptyString, Some e)
  | inr (n, hasPlus) =>
      if (n =? 0)%nat && negb hasPlus then (s, None)
      else (unescape_build s, None)
  end.

(** Modelled from the spec: the remote store's percent-encoding of a key,
    which runs on the store's side and is no part of this repository.  The
    spec says only that reserved URL characters come back percent-encoded.
    The encoder is therefore a family: [literal] chooses the bytes the store
    sends as they are, [spacePlus] whether a space is sent as '+' (form
    encoding) or as "%20"; every other byte is sent as '%' and two upper-case
    hex digits. *)
Section StoreEncoding.
Variable literal : ascii -> bool.
Variable spacePlus : bool.

Definition upperhex (n : N) : ascii :=
  match String.get (N.to_nat n) "0123456789ABCDEF" with
  | Some c => c
  | None => "0"%char
  end.

Definition escape_byte (c : ascii) : string :=
  String pct
    (String (upperhex (N.shiftr (N_of_ascii c) 4))
       (String (upperhex (N.land (N_of_ascii c) 15)) EmptyString)).

Definition encode_byte (c : ascii) : string :=
  if literal c then String c EmptyString
  else if spacePlus && Ascii.eqb c space then String plus EmptyString
  else escape_byte c.

Fixpoint store_encode (s : string) : string :=
  match s with
  | EmptyString => EmptyString
  | String c rest => (encode_byte c ++ store_encode rest)%string
  end.
End StoreEncoding.

(** The unreserved bytes of Go's [url.QueryEscape]: letters, digits and
    [-_.~]; with [spacePlus = true] this instance is [QueryEscape]. *)
Definition unreserved (c : ascii) : bool :=
  between "a" "z" c || between "A" "Z" c || between "0" "9" c
  || Ascii.eqb c "-" || Ascii.eqb c "_" || Ascii.eqb c "." || Ascii.eqb c "~".

Definition QueryEscape : string -> string := store_encode unreserved true.

End url.

(** ** Data model *)

(** Modelled from the spec: the [Object] struct, declared in another file of
    the package.  Every pointer field is an [option]; [Metadata] is Go's
    [map[string]*string], only ever copied here. *)
Record Object : Type := mkObject {
  Key : option string;
  VersionId : option string;
  ETag : option string;
  Mtime : option Time;
  IsLatest : option bool;
  Content : option (list byte);
  ContentType : option string;
  ContentDisposition : option string;
  ContentEncoding : option string;
  ContentLanguage : option string;
  ACL : option string;
  Metadata : list (string * option string);
  CacheControl : option string
}.

(** [ratelimit.Bucket]: the fake bucket of the constructor or a token
    bucket of a given rate and capacity. *)
Inductive Bucket : Type :=
| FakeBucket
| RateBucket (rate : Z) (capacity : Z).

(** Byte sources: [bytes.NewReader], with the offset of its next read, and
    [ratelimit.NewReadSeeker] around a source. *)
Inductive Reader : Type :=
| BytesReader (data : list byte) (pos : nat)
| RateLimitReadSeeker (r : Reader) (b : Bucket).

(** Byte sinks: a [bytes.Buffer] and [ratelimit.NewWriter]. *)
Inductive Writer : Type :=
| BufferWriter
| RateLimitWriter (w : Writer) (b : Bucket).

(** A response body as [io.Copy] sees it: the chunks successive reads
    deliver, then end of file or a read error. *)
Record BodyStream : Type := mkBody {
  chunks : list (list byte);
  failure : option error
}.

(** *** Requests and responses of the remote store client *)

Record ListObjectVersionsInput : Type := mkListInput {
  liBucket : option string;
  liPrefix : option string;
  liMaxKeys : option Z;
  liEncodingType : option string;
  liKeyMarker : option string;
  liVersionIdMarker : option string
}.

Record ObjectVersion : Type := mkVersion {
  ovKey : option string;
  ovVersionId : option string;
  ovETag : option string;
  ovLastModified : option Time;
  ovIsLatest : option bool
}.

Record ListObjectVersionsOutput : Type := mkListOutput {
  Versions : list ObjectVersion;
  VersionIdMarker : option string;
  NextKeyMarker : option string;
  NextVersionIdMarker : option string
}.

(** What one call of the paging transport meets: page requests that
    succeed with more pages to come, ended by a request that fails or by a
    page with no successor. *)
Inductive PagingRun : Type :=
| RunFail (e : error)
| RunLast (p : ListObjectVersionsOutput)
| RunMore (p : ListObjectVersionsOutput) (rest : PagingRun).

Record PutObjectInput : Type := mkPutInput {
  piBucket : option string;
  piKey : option string;
  piBody : Reader;
  piContentType : option string;
  piContentDisposition : option string;
  piContentEncoding : option string;
  piContentLanguage : option string;
  piACL : option string;
  piMetadata : list (string * option string);
  piCacheControl : option string
}.

(** What the SDK does with the body of a put: a [Read] into a buffer of [n]
    bytes, or a [Seek] back to the offset the body had when the call began
    (the SDK takes that offset as the start of the body).  The seeks by
    which the SDK measures the body leave the offset where it was and are
    left out. *)
Inductive BodyOp : Type :=
| ReadBody (n : nat)
| RewindBody.

(** What one put call meets: the reads and seeks the SDK and the transport
    make on the body (signing pass, sending, the SDK's own retries), and
    the error the call returns, if any. *)
Record PutReply : Type := mkPutReply {
  bodyOps : list BodyOp;
  putErr : option error
}.

(** [GetObjectInput], [HeadObjectInput] and [DeleteObjectInput] carry the
    same three fields here. *)
Record ObjectRef : Type := mkRef {
  orBucket : option string;
  orKey : option string;
  orVersionId : option string
}.

Record HeadObjectOutput : Type := mkHead {
  hoContentType : option string;
  hoContentDisposition : option string;
  hoContentEncoding : option string;
  hoContentLanguage : option string;
  hoETag : option string;
  hoMetadata : list (string * option string);
  hoLastModified : option Time;
  hoCacheControl : option string
}.

Record GetObjectOutput : Type := mkGet {
  goContentLength : option Z;
  goBody : BodyStream;
  goMeta : HeadObjectOutput
}.

(** The collaborators as an oracle.  The first five functions are the remote
    store client [*s3.S3]: each answers the remote call that is issued when
    [n] calls have been issued before.  The last is the Go runtime under the
    client: [rtMake n c] tells whether the runtime finds the memory for a
    slice of [c] bytes when [n] remote calls have been issued. *)
Record S3 : Type := mkS3 {
  svcListObjectVersions : nat -> ListObjectVersionsInput -> PagingRun;
  svcPutObject : nat -> PutObjectInput -> PutReply;
  svcGetObject : nat -> ObjectRef -> error + GetObjectOutput;
  svcHeadObject : nat -> ObjectRef -> error + HeadObjectOutput;
  svcDeleteObject : nat -> ObjectRef -> option error;
  rtMake : nat -> Z -> bool
}.

(** [S3vStorage]; the session and the context are not modelled. *)
Record S3vStorage : Type := mkStorage {
  awsSvc : S3;
  awsBucket : option string;
  prefix : string;
  keysPerReq : Z;
  retryCnt : N;
  retryInterval : Duration;
  listMarker : option string;
  rlBucket : Bucket
}.

Definition set_listMarker (m : option string) (st : S3vStorage) : S3vStorage :=
  {| awsSvc := awsSvc st; awsBucket := awsBucket st; prefix := prefix st;
     keysPerReq := keysPerReq st; retryCnt := retryCnt st;
     retryInterval := retryInterval st; listMarker := m;
     rlBucket := rlBucket st |}.

(** ** Effects *)

Inductive Event : Type :=
| EvListVersionsPages (input : ListObjectVersionsInput)
| EvPageRequest (req : ListObjectVersionsInput)
| EvPage (p : ListObjectVersionsOutput)
| EvSend (o : Object)
| EvPutObject (input : PutObjectInput)
| EvGetObject (input : ObjectRef)
| EvHeadObject (input : ObjectRef)
| EvDeleteObject (input : ObjectRef)
| EvWait (b : Bucket) (n : nat)
| EvLog (msg : string) (e : option error)
| EvSleep (d : Duration).

(** The receiver, the number of remote calls issued so far, and everything
    that has happened, oldest first. *)
Record State : Type := mkState {
  this : S3vStorage;
  clock : nat;
  trace : list Event
}.

Inductive Outcome (A : Type) : Type :=
| Done (a : A) (s : State)
| Panic (s : State)
| OutOfFuel.
Arguments Done {A} a s.
Arguments Panic {A} s.
Arguments OutOfFuel {A}.

Definition M (A : Type) : Type := State -> Outcome A.

Definition ret {A} (a : A) : M A := fun s => Done a s.
Definition bind {A B} (m : M A) (k : A -> M B) : M B :=
  fun s => match m s with
           | Done a s' => k a s'
           | Panic s' => Panic s'
           | OutOfFuel => OutOfFuel
           end.
Definition panic {A} : M A := fun s => Panic s.
Definition diverge {A} : M A := fun _ => OutOfFuel.

Declare Scope go_scope.
Delimit Scope go_scope with go.
Notation "x <- m ;; k" := (bind m (fun x => k))
  (at level 61, m at next level, right associativity) : go_scope.
Notation "m ;;; k" := (bind m (fun _ => k))
  (at level 61, right associativity) : go_scope.
Local Open Scope go_scope.

Definition emit (e : Event) : M unit :=
  fun s => Done tt {| this := this s; clock := clock s; trace := trace s ++ [e] |}.
Definition emits (es : list Event) : M unit :=
  fun s => Done tt {| this := this s; clock := clock s; trace := trace s ++ es |}.
Definition tick : M nat :=
  fun s => Done (clock s) {| this := this s; clock := S (clock s); trace := trace s |}.
Definition self : M S3vStorage := fun s => Done (this s) s.
Definition store_listMarker (m : option string) : M unit :=
  fun s => Done tt {| this := set_listMarker m (this s); clock := clock s; trace := trace s |}.

(** [Log.Debugf] and [time.Sleep]. *)
Definition Debugf (msg : string) (e : option error) : M unit := emit (EvLog msg e).
Definition Sleep (d : Duration) : M unit := emit (EvSleep d).

(** ** The collaborators' calls

    The calls below belong to libraries the file imports (aws-sdk-go,
    larrabee/ratelimit, io, bytes), not to the repository.  Each is embedded
    by what it does to the state: it asks the oracle, counts the call and
    records its events. *)

(** The offset of a source's next read ([Seek(0, io.SeekCurrent)]); the
    limiter's reader passes [Seek] on to the source it wraps. *)
Fixpoint reader_pos (r : Reader) : nat :=
  match r with
  | BytesReader _ pos => pos
  | RateLimitReadSeeker r' _ => reader_pos r'
  end.

Fixpoint reader_data (r : Reader) : list byte :=
  match r with
  | BytesReader data _ => data
  | RateLimitReadSeeker r' _ => reader_data r'
  end.

(** [Seek(pos, io.SeekStart)]. *)
Fixpoint reader_seek (pos : nat) (r : Reader) : Reader :=
  match r with
  | BytesReader data _ => BytesReader data pos
  | RateLimitReadSeeker r' b => RateLimitReadSeeker (reader_seek pos r') b
  end.

(** [Read] into a buffer of [n] bytes: the number of bytes read, the source
    afterwards and what the read waited for.  [bytes.Reader.Read] yields
    what is left from its offset, at most [n] bytes, and moves the offset;
    [ratelimit.reader.Read] reads the source it wraps and then, when bytes
    came, waits for that many tokens. *)
Fixpoint reader_read (n : nat) (r : Reader) : nat * Reader * list Event :=
  match r with
  | BytesReader data pos =>
      let k := Nat.min n (length data - pos) in
      (k, BytesReader data (pos + k), [])
  | RateLimitReadSeeker r' b =>
      let '(k, r'', evs) := reader_read n r' in
      (k, RateLimitReadSeeker r'' b, evs ++ (if k =? 0 then [] else [EvWait b k]))
  end.

(** The SDK's reads and seeks on a body whose offset was [start] when the
    call began: the body afterwards and what the reads waited for. *)
Fixpoint run_body (start : nat) (ops : list BodyOp) (r : Reader) : Reader * list Event :=
  match ops with
  | [] => (r, [])
  | ReadBody n :: ops' =>
      let '(_, r', evs) := reader_read n r in
      let (r'', evs') := run_body start ops' r' in
      (r'', evs ++ evs')
  | RewindBody :: ops' => run_body start ops' (reader_seek start r)
  end.

(** What a limiter-wrapped writer waits for when [n] bytes are written
    through it ([ratelimit.writer.Write]: wait, then write the inner one). *)
Fixpoint write_waits (w : Writer) (n : nat) : list Event :=
  match w with
  | BufferWriter => []
  | RateLimitWriter w' b => EvWait b n :: write_waits w' n
  end.

Definition with_body (body : Reader) (input : PutObjectInput) : PutObjectInput :=
  {| piBucket := piBucket input; piKey := piKey input; piBody := body;
     piContentType := piContentType input;
     piContentDisposition := piContentDisposition input;
     piContentEncoding := piContentEncoding input;
     piContentLanguage := piContentLanguage input;
     piACL := piACL input; piMetadata := piMetadata input;
     piCacheControl := piCacheControl input |}.

(** What a put call does to the body it is given: the SDK takes the body's
    current offset as its start and reads and seeks through [input.Body]. *)
Definition body_run (reply : PutReply) (body : Reader) : Reader * list Event :=
  run_body (reader_pos body) (bodyOps reply) body.

(** [awsSvc.PutObjectWithContext]: the request is issued, the SDK and the
    transport read the body through [input.Body], the store answers.  The
    body is an object the request points to: the call returns, with the
    error, the state its reads left that object in. *)
Definition PutObjectWithContext (input : PutObjectInput) : M (option error * Reader) :=
  storage <- self ;;
  n <- tick ;;
  let reply := svcPutObject (awsSvc storage) n input in
  emit (EvPutObject input) ;;;
  let (body, waits) := body_run reply (piBody input) in
  emits waits ;;;
  ret (putErr reply, body).

Definition GetObjectWithContext (input : ObjectRef) : M (error + GetObjectOutput) :=
  storage <- self ;;
  n <- tick ;;
  emit (EvGetObject input) ;;;
  ret (svcGetObject (awsSvc storage) n input).

Definition HeadObjectWithContext (input : ObjectRef) : M (error + HeadObjectOutput) :=
  storage <- self ;;
  n <- tick ;;
  emit (EvHeadObject input) ;;;
  ret (svcHeadObject (awsSvc storage) n input).

Definition DeleteObjectWithContext (input : ObjectRef) : M (option error) :=
  storage <- self ;;
  n <- tick ;;
  emit (EvDeleteObject input) ;;;
  ret (svcDeleteObject (awsSvc storage) n input).

(** The request for the page after [p]: the SDK's paginator copies the
    page's next markers into the request. *)
Definition next_request (req : ListObjectVersionsInput) (p : ListObjectVersionsOutput)
  : ListObjectVersionsInput :=
  {| liBucket := liBucket req; liPrefix := liPrefix req; liMaxKeys := liMaxKeys req;
     liEncodingType := liEncodingType req;
     liKeyMarker := NextKeyMarker p; liVersionIdMarker := NextVersionIdMarker p |}.

(** The paginator's loop: request a page; on failure return the error;
    otherwise receive the page and hand it to [fn], with [lastPage] set
    when no page follows, and go on while [fn] answers true and a page
    follows. *)
Fixpoint request_pages (run : PagingRun) (req : ListObjectVersionsInput)
    (fn : ListObjectVersionsOutput -> bool -> M bool) : M (option error) :=
  match run with
  | RunFail e => emit (EvPageRequest req) ;;; ret (Some e)
  | RunLast p => emit (EvPageRequest req) ;;; emit (EvPage p) ;;; fn p true ;;; ret None
  | RunMore p rest =>
      emit (EvPageRequest req) ;;;
      emit (EvPage p) ;;;
      more <- fn p false ;;
      if more then request_pages rest (next_request req p) fn else ret None
  end.

(** [awsSvc.ListObjectVersionsPagesWithContext]. *)
Definition ListObjectVersionsPagesWithContext (input : ListObjectVersionsInput)
    (fn : ListObjectVersionsOutput -> bool -> M bool) : M (option error) :=
  storage <- self ;;
  n <- tick ;;
  emit (EvListVersionsPages input) ;;;
  request_pages (svcListObjectVersions (awsSvc storage) n input) input fn.

(** The allocation limit of Go's runtime where [uint] has 64 bits: 48 bits
    of heap addresses at most. *)
Definition maxAlloc : Z := 2 ^ 48.

(** [make([]byte, 0, c)] yields a slice: [c] is not negative and not above
    the allocation limit ([makeslice] panics otherwise), and the runtime
    finds the memory (it aborts otherwise). *)
Definition makes (svc : S3) (n : nat) (c : Z) : bool :=
  (0 <=? c)%Z && (c <=? maxAlloc)%Z && rtMake svc n c.

(** [bytes.NewBuffer(make([]byte, 0, n))]: the call does not return when
    [make] yields no slice; otherwise the new buffer is empty. *)
Definition NewBuffer (capacity : Z) : M (list byte) :=
  fun s =>
    if makes (awsSvc (this s)) (clock s) capacity then Done [] s else Panic s.

(** [io.Copy(dst, src)] into a buffer holding [buf]: every chunk read from
    [src] is written through [dst]; the read error, if any, ends it. *)
Fixpoint copy_chunks (dst : Writer) (cs : list (list byte)) (buf : list byte)
  : M (list byte) :=
  match cs with
  | [] => ret buf
  | c :: cs' => emits (write_waits dst (length c)) ;;; copy_chunks dst cs' (buf ++ c)
  end.

Definition io_Copy (dst : Writer) (src : BodyStream) (buf : list byte)
  : M (list byte * option error) :=
  buf' <- copy_chunks dst (chunks src) buf ;;
  ret (buf', failure src).

(** ** The storage operations *)

Section Storage.

(** Two helpers the file uses and does not define: [strongEtag] (another
    file of the package) and [filepath.Join]. *)
Variable strongEtag : option string -> option string.
Variable filepath_Join : string -> string -> string.

(** The closure [listObjectsFn] of [List], sending on [output]. *)
Fixpoint send_versions (vs : list ObjectVersion) : M unit :=
  match vs with
  | [] => ret tt
  | o :: vs' =>
      let (key, _) := url.QueryUnescape (StringValue (ovKey o)) in
      emit (EvSend {| Key := Some key; VersionId := ovVersionId o;
                      ETag := strongEtag (ovETag o); Mtime := ovLastModified o;
                      IsLatest := ovIsLatest o; Content := None;
                      ContentType := None; ContentDisposition := None;
                      ContentEncoding := None; ContentLanguage := None;
                      ACL := None; Metadata := []; CacheControl := None |}) ;;;
      send_versions vs'
  end.

Definition listObjectsFn (p : ListObjectVersionsOutput) (lastPage : bool) : M bool :=
  send_versions (Versions p) ;;;
  store_listMarker (VersionIdMarker p) ;;;
  ret (negb lastPage).

Definition list_input (storage : S3vStorage) : ListObjectVersionsInput :=
  {| liBucket := awsBucket storage;
     liPrefix := Some (prefix storage);
     liMaxKeys := Some (keysPerReq storage);
     liEncodingType := Some "url"%string;
     liKeyMarker := None;
     liVersionIdMarker := listMarker storage |}.

Fixpoint List_loop (fuel : nat) (i : N) : M (option error) :=
  match fuel with
  | O => diverge
  | S fuel' =>
      storage <- self ;;
      let input := list_input storage in
      err <- ListObjectVersionsPagesWithContext input listObjectsFn ;;
      storage <- self ;;
      if isErr err && (i <? retryCnt storage)%N then
        Debugf "S3 listing failed with error: %s" err ;;;
        Sleep (retryInterval storage) ;;;
        List_loop fuel' (uint_succ i)
      else if isErr err && (i =? retryCnt storage)%N then
        Debugf "S3 listing failed with error: %s" err ;;;
        ret err
      else
        Debugf "Listing bucket finished" None ;;;
        ret err
  end.

(** Every loop below leaves at the latest when [i] reaches [retryCnt]:
    [retryCnt + 1] rounds of fuel are enough (see [List_returns] and its
    siblings). *)
Definition rounds (storage : S3vStorage) : nat := S (N.to_nat (retryCnt storage)).

Definition List : M (option error) :=
  storage <- self ;;
  List_loop (rounds storage) 0%N.

(** The loop hands the same [input] to every call; the reader it points to
    is where the call before left it (nothing in the loop seeks it back). *)
Fixpoint PutObject_loop (fuel : nat) (input : PutObjectInput) (i : N)
  : M (option error) :=
  match fuel with
  | O => diverge
  | S fuel' =>
      res <- PutObjectWithContext input ;;
      let (err, body) := res in
      let input := with_body body input in
      storage <- self ;;
      if isErr err && (i <? retryCnt storage)%N then
        Debugf "S3 obj uploading failed with error: %s" err ;;;
        Sleep (retryInterval storage) ;;;
        PutObject_loop fuel' input (uint_succ i)
      else if isErr err && (i =? retryCnt storage)%N then ret err
      else ret None
  end.

(** [*obj.Content] and [*obj.Key] are dereferenced before the loop: a nil
    pointer panics.  The readers are made once, before the loop. *)
Definition PutObject (obj : Object) : M (option error) :=
  storage <- self ;;
  match Content obj with
  | None => panic
  | Some content =>
      let objReader := BytesReader content 0 in
      let rlReader := RateLimitReadSeeker objReader (rlBucket storage) in
      match Key obj with
      | None => panic
      | Some key =>
          let input :=
            {| piBucket := awsBucket storage;
               piKey := Some (filepath_Join (prefix storage) key);
               piBody := rlReader;
               piContentType := ContentType obj;
               piContentDisposition := ContentDisposition obj;
               piContentEncoding := ContentEncoding obj;
               piContentLanguage := ContentLanguage obj;
               piACL := ACL obj;
               piMetadata := Metadata obj;
               piCacheControl := CacheControl obj |} in
          PutObject_loop (rounds storage) input 0%N
      end
  end.

Definition object_ref (storage : S3vStorage) (obj : Object) : ObjectRef :=
  {| orBucket := awsBucket storage; orKey := Key obj; orVersionId := VersionId obj |}.

Definition request_error {A} (r : error + A) : option error :=
  match r with inl e => Some e | inr _ => None end.

(** The assignments both getters make from the response's metadata. *)
Definition with_meta (obj : Object) (content : option (list byte))
    (result : HeadObjectOutput) : Object :=
  {| Key := Key obj; VersionId := VersionId obj;
     ETag := strongEtag (hoETag result);
     Mtime := hoLastModified result;
     IsLatest := IsLatest obj;
     Content := content;
     ContentType := hoContentType result;
     ContentDisposition := hoContentDisposition result;
     ContentEncoding := hoContentEncoding result;
     ContentLanguage := hoContentLanguage result;
     ACL := ACL obj;
     Metadata := hoMetadata result;
     CacheControl := hoCacheControl result |}.

(** An error that slips past both tests (it cannot, see
    [GetObjectContent_returns]) would leave [result.Body] nil for
    [io.Copy]: a panic. *)
Fixpoint GetObjectContent_loop (fuel : nat) (input : ObjectRef) (obj : Object) (i : N)
  : M (Object * option error) :=
  match fuel with
  | O => diverge
  | S fuel' =>
      res <- GetObjectWithContext input ;;
      storage <- self ;;
      let err := request_error res in
      if isErr err && (i <? retryCnt storage)%N then
        Debugf "S3 obj content downloading request failed with error: %s" err ;;;
        Sleep (retryInterval storage) ;;;
        GetObjectContent_loop fuel' input obj (uint_succ i)
      else if isErr err && (i =? retryCnt storage)%N then ret (obj, err)
      else
        match res with
        | inl _ => panic
        | inr result =>
            buf <- NewBuffer (Int64Value (goContentLength result)) ;;
            copied <- io_Copy (RateLimitWriter BufferWriter (rlBucket storage))
                              (goBody result) buf ;;
            let (data, err) := copied in
            if isErr err && (i <? retryCnt storage)%N then
              Debugf "S3 obj content downloading failed with error: %s" err ;;;
              Sleep (retryInterval storage) ;;;
              GetObjectContent_loop fuel' input obj (uint_succ i)
            else if isErr err && (i =? retryCnt storage)%N then ret (obj, err)
            else ret (with_meta obj (Some data) (goMeta result), None)
        end
  end.

Definition GetObjectContent (obj : Object) : M (Object * option error) :=
  storage <- self ;;
  GetObjectContent_loop (rounds storage) (object_ref storage obj) obj 0%N.

(** As above, a slipped error would leave [result] without fields; the SDK
    hands back an empty output then, which the assignments would copy. *)
Definition empty_head : HeadObjectOutput :=
  {| hoContentType := None; hoContentDisposition := None; hoContentEncoding := None;
     hoContentLanguage := None; hoETag := None; hoMetadata := [];
     hoLastModified := None; hoCacheControl := None |}.

Fixpoint GetObjectMeta_loop (fuel : nat) (input : ObjectRef) (obj : Object) (i : N)
  : M (Object * option error) :=
  match fuel with
  | O => diverge
  | S fuel' =>
      res <- HeadObjectWithContext input ;;
      storage <- self ;;
      let err := request_error res in
      if isErr err && (i <? retryCnt storage)%N then
        Debugf "S3 obj meta downloading request failed with error: %s" err ;;;
        Sleep (retryInterval storage) ;;;
        GetObjectMeta_loop fuel' input obj (uint_succ i)
      else if isErr err && (i =? retryCnt storage)%N then ret (obj, err)
      else
        let result := match res with inl _ => empty_head | inr r => r end in
        ret (with_meta obj (Content obj) result, None)
  end.

Definition GetObjectMeta (obj : Object) : M (Object * option error) :=
  storage <- self ;;
  GetObjectMeta_loop (rounds storage) (object_ref storage obj) obj 0%N.

Fixpoint DeleteObject_loop (fuel : nat) (input : ObjectRef) (i : N)
  : M (option error) :=
  match fuel with
  | O => diverge
  | S fuel' =>
      err <- DeleteObjectWithContext input ;;
      storage <- self ;;
      if isErr err && (i <? retryCnt storage)%N then
        Debugf "S3 obj removing failed with error: %s" err ;;;
        Sleep (retryInterval storage) ;;;
        DeleteObject_loop fuel' input (uint_succ i)
      else if isErr err && (i =? retryCnt storage)%N then ret err
      else ret None
  end.

Definition DeleteObject (obj : Object) : M (option error) :=
  storage <- self ;;
  DeleteObject_loop (rounds storage) (object_ref storage obj) 0%N.

End Storage.

(** The state [s] after the events [added]. *)
Definition with_trace (s : State) (added : list Event) : State :=
  {| this := this s; clock := clock s; trace := trace s ++ added |}.

(** ** Reading a trace *)

(** The rhythm of a trace: remote calls and sleeps, everything else left
    out. *)
Inductive Beat : Type :=
| Attempted
| Slept (d : Duration).

Definition beat (e : Event) : list Beat :=
  match e with
  | EvListVersionsPages _ | EvPutObject _ | EvGetObject _
  | EvHeadObject _ | EvDeleteObject _ => [Attempted]
  | EvSleep d => [Slept d]
  | _ => []
  end.

Definition skeleton (tr : list Event) : list Beat := flat_map beat tr.

(** [k] failed attempts, each followed by one sleep of [d]. *)
Fixpoint failed_rounds (k : nat) (d : Duration) : list Beat :=
  match k with
  | O => []
  | S k' => Attempted :: Slept d :: failed_rounds k' d
  end.

Definition count_attempts (bs : list Beat) : nat :=
  length (filter (fun b => match b with Attempted => true | _ => false end) bs).
Definition count_sleeps (bs : list Beat) : nat :=
  length (filter (fun b => match b with Slept _ => true | _ => false end) bs).

(** The bytes that went through a limiter, with the bucket each went
    through. *)
Definition wait_of (e : Event) : list (Bucket * nat) :=
  match e with EvWait b n => [(b, n)] | _ => [] end.
Definition waits (tr : list Event) : list (Bucket * nat) := flat_map wait_of tr.
Definition waited (tr : list Event) : nat := list_sum (map snd (waits tr)).

(** The objects pushed on the output channel, in order. *)
Definition sent_of (e : Event) : list Object :=
  match e with EvSend o => [o] | _ => [] end.
Definition sent (tr : list Event) : list Object := flat_map sent_of tr.

(** The paging calls and the single page requests, in order. *)
Definition paging_call_of (e : Event) : list ListObjectVersionsInput :=
  match e with EvListVersionsPages input => [input] | _ => [] end.
Definition paging_calls (tr : list Event) : list ListObjectVersionsInput :=
  flat_map paging_call_of tr.

Definition is_page_request (e : Event) : bool :=
  match e with EvPageRequest _ => true | _ => false end.
Definition get_request_of (e : Event) : list ObjectRef :=
  match e with EvGetObject input => [input] | _ => [] end.
Definition get_requests (tr : list Event) : list ObjectRef := flat_map get_request_of tr.
Definition put_request_of (e : Event) : list PutObjectInput :=
  match e with EvPutObject input => [input] | _ => [] end.
Definition put_requests (tr : list Event) : list PutObjectInput := flat_map put_request_of tr.

(** ** Reading an answer of the store *)

Fixpoint run_error (run : PagingRun) : option error :=
  match run with
  | RunFail e => Some e
  | RunLast _ => None
  | RunMore _ rest => run_error rest
  end.

(** The pages a run delivers, in order. *)
Fixpoint run_pages (run : PagingRun) : list ListObjectVersionsOutput :=
  match run with
  | RunFail _ => []
  | RunLast p => [p]
  | RunMore p rest => p :: run_pages rest
  end.

(** The cursor after the pages [ps] have been handled, [m] before. *)
Definition cursor_after (ps : list ListObjectVersionsOutput) (m : option string)
  : option string :=
  fold_left (fun _ p => VersionIdMarker p) ps m.

Definition body_bytes (b : BodyStream) : list byte := concat (chunks b).

(** The error of one get attempt: the request's, else the body's. *)
Definition get_error (r : error + GetObjectOutput) : option error :=
  match r with
  | inl e => Some e
  | inr result => failure (goBody result)
  end.

(** The buffer for the answer [r] of the get call issued after [n] others
    is made: [make] yields a slice of the declared length. *)
Definition sized (svc : S3) (n : nat) (r : error + GetObjectOutput) : Prop :=
  match r with
  | inl _ => True
  | inr result => makes svc (S n) (Int64Value (goContentLength result)) = true
  end.

(** The body bytes one get attempt copies. *)
Definition get_copied (r : error + GetObjectOutput) : nat :=
  match r with
  | inl _ => 0
  | inr result => length (body_bytes (goBody result))
  end.

(** The pages received, in order. *)
Definition page_of (e : Event) : list ListObjectVersionsOutput :=
  match e with EvPage p => [p] | _ => [] end.
Definition received (tr : list Event) : list ListObjectVersionsOutput :=
  flat_map page_of tr.

(** ** What [List] is expected to do with a run *)

Section Listing.
Variable strongEtag : option string -> option string.

(** The object [listObjectsFn] builds for a version record. *)
Definition listed_object (o : ObjectVersion) : Object :=
  {| Key := Some (fst (url.QueryUnescape (StringValue (ovKey o))));
     VersionId := ovVersionId o;
     ETag := strongEtag (ovETag o); Mtime := ovLastModified o;
     IsLatest := ovIsLatest o; Content := None;
     ContentType := None; ContentDisposition := None;
     ContentEncoding := None; ContentLanguage := None;
     ACL := None; Metadata := []; CacheControl := None |}.

Definition page_objects (p : ListObjectVersionsOutput) : list Object :=
  map listed_object (Versions p).

(** The events of one paging call after its first event: each page is
    requested, received and sent record by record before the next request. *)
Fixpoint run_events (run : PagingRun) (req : ListObjectVersionsInput) : list Event :=
  match run with
  | RunFail _ => [EvPageRequest req]
  | RunLast p => EvPageRequest req :: EvPage p :: map EvSend (page_objects p)
  | RunMore p rest =>
      EvPageRequest req :: EvPage p :: map EvSend (page_objects p)
      ++ run_events rest (next_request req p)
  end.

End Listing.

(** The receiver after the pages [ps] have been handled. *)
Definition client_after (ps : list ListObjectVersionsOutput) (st : S3vStorage)
  : S3vStorage :=
  fold_left (fun st p => set_listMarker (VersionIdMarker p) st) ps st.

(** ** The common shape of the five loops *)

(** One round of a loop either fails with a log line and an error, or
    succeeds with a value; [beyond] is what the loop would do with a failure
    met when [i] is past [retryCnt]. *)
Inductive Attempt (A R : Type) : Type :=
| Failed (msg : string) (e : error) (beyond : M R)
| Succeeded (a : A).
Arguments Failed {A R} msg e beyond.
Arguments Succeeded {A R} a.

Fixpoint retry {A R : Type} (fuel : nat) (attempt : M (Attempt A R))
    (giveup : error -> M R) (finish : A -> M R) (i : N) : M R :=
  match fuel with
  | O => diverge
  | S fuel' =>
      r <- attempt ;;
      storage <- self ;;
      match r with
      | Failed msg e beyond =>
          if (i <? retryCnt storage)%N then
            Debugf msg (Some e) ;;;
            Sleep (retryInterval storage) ;;;
            retry fuel' attempt giveup finish (uint_succ i)
          else if (i =? retryCnt storage)%N then giveup e
          else beyond
      | Succeeded a => finish a
      end
  end.

(** The state in which the next round starts after a failed one. *)
Definition after_sleep (msg : string) (e : error) (s : State) : State :=
  {| this := this s; clock := clock s;
     trace := (trace s ++ [EvLog msg (Some e)]) ++ [EvSleep (retryInterval (this s))] |}.

Section Rounds.
Variable strongEtag : option string -> option string.

Definition list_round : M (Attempt unit (option error)) :=
  storage <- self ;;
  err <- ListObjectVersionsPagesWithContext (list_input storage) (listObjectsFn strongEtag) ;;
  match err with
  | Some e => ret (Failed "S3 listing failed with error: %s" e
                     (Debugf "Listing bucket finished" None ;;; ret err))
  | None => ret (Succeeded tt)
  end.

(** The request that round [j] of a put loop hands to the SDK when the loop
    was entered with [input] after [c] remote calls: the fields are those
    of [input], the body is where the round before left it. *)
Fixpoint put_schedule (svc : S3) (input : PutObjectInput) (c j : nat) : PutObjectInput :=
  match j with
  | O => input
  | S j' =>
      let prev := put_schedule svc input c j' in
      with_body (fst (body_run (svcPutObject svc (c + j') prev) (piBody prev))) prev
  end.

Definition put_round (input : PutObjectInput) (c : nat)
  : M (Attempt unit (option error)) :=
  fun s =>
    (res <- PutObjectWithContext (put_schedule (awsSvc (this s)) input c (clock s - c)) ;;
     match fst res with
     | Some e => ret (Failed "S3 obj uploading failed with error: %s" e (ret None))
     | None => ret (Succeeded tt)
     end) s.

Definition get_round (input : ObjectRef) (obj : Object)
  : M (Attempt (list byte * GetObjectOutput) (Object * option error)) :=
  res <- GetObjectWithContext input ;;
  storage <- self ;;
  match res with
  | inl e => ret (Failed "S3 obj content downloading request failed with error: %s" e panic)
  | inr result =>
      buf <- NewBuffer (Int64Value (goContentLength result)) ;;
      copied <- io_Copy (RateLimitWriter BufferWriter (rlBucket storage))
                        (goBody result) buf ;;
      match copied with
      | (data, Some e) =>
          ret (Failed "S3 obj content downloading failed with error: %s" e
                 (ret (with_meta strongEtag obj (Some data) (goMeta result), None)))
      | (data, None) => ret (Succeeded (data, result))
      end
  end.

Definition head_round (input : ObjectRef) (obj : Object)
  : M (Attempt HeadObjectOutput (Object * option error)) :=
  res <- HeadObjectWithContext input ;;
  match res with
  | inl e => ret (Failed "S3 obj meta downloading request failed with error: %s" e
                    (ret (with_meta strongEtag obj (Content obj) empty_head, None)))
  | inr result => ret (Succeeded result)
  end.

Definition delete_round (input : ObjectRef) : M (Attempt unit (option error)) :=
  err <- DeleteObjectWithContext input ;;
  match err with
  | Some e => ret (Failed "S3 obj removing failed with error: %s" e (ret None))
  | None => ret (Succeeded tt)
  end.

End Rounds.

(** Two states of the receiver that differ at most in the cursor. *)
Definition same_client (a b : S3vStorage) : Prop :=
  set_listMarker None a = set_listMarker None b.

(** One round of a loop, from [s] to [s'] with result [r]: one remote call
    and no sleep, the client unchanged up to the cursor. *)
Definition round_of {A R : Type} (attempt : M (Attempt A R)) (s : State)
    (r : Attempt A R) (s' : State) : Prop :=
  attempt s = Done r s' /\
  same_client (this s) (this s') /\
  clock s' = S (clock s) /\
  exists added, trace s' = trace s ++ added /\ skeleton added = [Attempted].

(** A loop entered in [s]: its state when round [j] starts after [j]
    failed rounds, and when round [j] has been made. *)
Definition started (s : State) (j : nat) (s1 : State) : Prop :=
  same_client (this s) (this s1) /\
  clock s1 = clock s + j /\
  exists added, trace s1 = trace s ++ added
                /\ skeleton added = failed_rounds j (retryInterval (this s)).

Definition ended (s : State) (j : nat) (s1 : State) : Prop :=
  same_client (this s) (this s1) /\
  clock s1 = clock s + S j /\
  exists added, trace s1 = trace s ++ added
                /\ skeleton added = failed_rounds j (retryInterval (this s)) ++ [Attempted].

(** An outcome that is a return, not a panic. *)
Definition returns {A : Type} (o : Outcome A) : Prop := exists a s', o = Done a s'.

(** [G pre ev] holds of every event [ev] of a trace, [pre] being the
    events before it. *)
Definition at_each (G : list Event -> Event -> Prop) (tr : list Event) : Prop :=
  forall pre ev post, tr = pre ++ ev :: post -> G pre ev.

(** The page a run ends with when no request of it fails. *)
Fixpoint run_last (run : PagingRun) : option ListObjectVersionsOutput :=
  match run with
  | RunFail _ => None
  | RunLast p => Some p
  | RunMore _ rest => run_last rest
  end.

(** Log lines and sleeps. *)
Definition quiet (ev : Event) : Prop :=
  match ev with EvLog _ _ | EvSleep _ => True | _ => False end.

(** A paging call [ev] made after the events [pre] carries the cursor of
    the last page received in [pre], or [m0] when there is none. *)
Definition resumes_from (m0 : option string) (pre : list Event) (ev : Event) : Prop :=
  forall input, ev = EvListVersionsPages input ->
    liVersionIdMarker input = cursor_after (received pre) m0.

Section Served.
Variable strongEtag : option string -> option string.

(** Every record of every page received in [pre] has been sent, in the
    order of the pages and of their records. *)
Definition served (pre : list Event) : Prop :=
  sent pre = flat_map (page_objects strongEtag) (received pre).

(** ... and this is so whenever a page is requested. *)
Definition served_before_request (pre : list Event) (ev : Event) : Prop :=
  is_page_request ev = true -> served pre.

End Served.

(** ** Bytes and the limiter *)

(** The bytes the SDK's reads and seeks draw from a body. *)
Fixpoint ops_read (start : nat) (ops : list BodyOp) (r : Reader) : nat :=
  match ops with
  | [] => 0
  | ReadBody n :: ops' =>
      let '(k, r', _) := reader_read n r in k + ops_read start ops' r'
  | RewindBody :: ops' => ops_read start ops' (reader_seek start r)
  end.

Definition bytes_read (reply : PutReply) (body : Reader) : nat :=
  ops_read (reader_pos body) (bodyOps reply) body.

(** The body bytes read in the first [n] rounds of a put loop entered with
    [input] after [c] remote calls, and the body bytes the [n] get calls
    from call [c] on deliver. *)
Definition read_by_rounds (svc : S3) (input : PutObjectInput) (c n : nat) : nat :=
  list_sum (map (fun j => let request := put_schedule svc input c j in
                          bytes_read (svcPutObject svc (c + j) request) (piBody request))
                (seq 0 n)).

(** What is left to read of a body: the bytes from its offset on. *)
Definition body_left (r : Reader) : list byte := skipn (reader_pos r) (reader_data r).

(** A body that reads [content] through the limiter's bucket [b]. *)
Definition limited (content : list byte) (b : Bucket) (r : Reader) : Prop :=
  exists pos, r = RateLimitReadSeeker (BytesReader content pos) b.

Definition copied_by_rounds (svc : S3) (input : ObjectRef) (c n : nat) : nat :=
  list_sum (map (fun j => get_copied (svcGetObject svc (c + j) input)) (seq 0 n)).

(** Every wait of a trace is a wait on the bucket [b]. *)
Definition waits_on (b : Bucket) (tr : list Event) : Prop :=
  Forall (fun w => fst w = b) (waits tr).

(** The reading of the spec for a retried listing: when the first paging
    call fails after a page has been handled and a retry is left, the
    second paging call carries a marker, so that it does not list from the
    beginning again. *)
Definition retry_resumes_past_start (strongEtag : option string -> option string)
    (s : State) : Prop :=
  forall p ps e r s',
    run_pages (svcListObjectVersions (awsSvc (this s)) (clock s) (list_input (this s)))
    = p :: ps ->
    run_error (svcListObjectVersions (awsSvc (this s)) (clock s) (list_input (this s)))
    = Some e ->
    (0 < retryCnt (this s))%N ->
    List strongEtag s = Done r s' ->
    exists first second rest,
      paging_calls (trace s') = paging_calls (trace s) ++ first :: second :: rest
      /\ liVersionIdMarker second <> None.

(** The reading of the spec for a content fetch: once a get request has
    been answered, a body that fails to drain is retried without another
    get request, so the call issues the request once. *)
Definition drain_retried_alone (strongEtag : option string -> option string)
    (obj : Object) (s : State) : Prop :=
  forall result r s',
    svcGetObject (awsSvc (this s)) (clock s) (object_ref (this s) obj) = inr result ->
    GetObjectContent strongEtag obj s = Done r s' ->
    get_requests (trace s') = get_requests (trace s) ++ [object_ref (this s) obj].

(** ** The five operations as one *)

Inductive Operation : Type :=
| OpList
| OpPutObject (obj : Object)
| OpGetObjectContent (obj : Object)
| OpGetObjectMeta (obj : Object)
| OpDeleteObject (obj : Object).

Section Operations.
Variable strongEtag : option string -> option string.
Variable filepath_Join : string -> string -> string.

(** The error an operation returns. *)
Definition perform (op : Operation) : M (option error) :=
  match op with
  | OpList => List strongEtag
  | OpPutObject obj => PutObject filepath_Join obj
  | OpGetObjectContent obj => r <- GetObjectContent strongEtag obj ;; ret (snd r)
  | OpGetObjectMeta obj => r <- GetObjectMeta strongEtag obj ;; ret (snd r)
  | OpDeleteObject obj => DeleteObject obj
  end.

End Operations.

(** The remote call that [op] wraps fails with [e], or succeeds, when it is
    the call issued after [n] others, whatever the request.  For a content
    fetch the wrapped call is the request together with the draining of the
    body, into a buffer that [make] yields for the declared length. *)
Definition fails_at (svc : S3) (op : Operation) (n : nat) (e : error) : Prop :=
  match op with
  | OpList => forall input, run_error (svcListObjectVersions svc n input) = Some e
  | OpPutObject _ => forall input, putErr (svcPutObject svc n input) = Some e
  | OpGetObjectContent _ =>
      forall input, get_error (svcGetObject svc n input) = Some e
                    /\ sized svc n (svcGetObject svc n input)
  | OpGetObjectMeta _ =>
      forall input, request_error (svcHeadObject svc n input) = Some e
  | OpDeleteObject _ => forall input, svcDeleteObject svc n input = Some e
  end.

Definition succeeds_at (svc : S3) (op : Operation) (n : nat) : Prop :=
  match op with
  | OpList => forall input, run_error (svcListObjectVersions svc n input) = None
  | OpPutObject _ => forall input, putErr (svcPutObject svc n input) = None
  | OpGetObjectContent _ =>
      forall input, get_error (svcGetObject svc n input) = None
                    /\ sized svc n (svcGetObject svc n input)
  | OpGetObjectMeta _ =>
      forall input, request_error (svcHeadObject svc n input) = None
  | OpDeleteObject _ => forall input, svcDeleteObject svc n input = None
  end.

(** What [PutObject] dereferences is there. *)
Definition present (op : Operation) : Prop :=
  match op with
  | OpPutObject obj => Content obj <> None /\ Key obj <> None
  | _ => True
  end.

(** [retryCnt] is a [uint]. *)
Definition uint_retryCnt (s : State) : Prop := (retryCnt (this s) < uint_modulus)%N.

(** The time slept in a rhythm. *)
Definition slept (bs : list Beat) : Z :=
  fold_right (fun b acc => match b with Slept d => (d + acc)%Z | Attempted => acc end) 0%Z bs.

(** ** A small store to run the operations on *)

Module Demo.

Definition etag (t : option string) : option string := t.
Definition join (a b : string) : string := (a ++ "/" ++ b)%string.

Definition version (key : string) (latest : bool) : ObjectVersion :=
  {| ovKey := Some key; ovVersionId := Some "v1"%string; ovETag := Some "etag"%string;
     ovLastModified := Some 7%Z; ovIsLatest := Some latest |}.

Definition page1 : ListObjectVersionsOutput :=
  {| Versions := [version "a%2Fb" true; version "c+d" false];
     VersionIdMarker := Some "m1"%string;
     NextKeyMarker := Some "c d"%string; NextVersionIdMarker := Some "n1"%string |}.

Definition page2 : ListObjectVersionsOutput :=
  {| Versions := [version "bad%zz" true];
     VersionIdMarker := Some "m2"%string;
     NextKeyMarker := None; NextVersionIdMarker := None |}.

Definition head : HeadObjectOutput :=
  {| hoContentType := Some "text/plain"%string; hoContentDisposition := None;
     hoContentEncoding := None; hoContentLanguage := None;
     hoETag := Some "etag"%string; hoMetadata := [("owner"%string, Some "me"%string)];
     hoLastModified := Some 7%Z; hoCacheControl := None |}.

Definition boom (n : nat) : error :=
  RemoteError (String (ascii_of_nat (48 + n)) EmptyString).

(** What the SDK does with the body of a put: it reads the body to its end
    for the signature and seeks back, then the transport reads it; a
    failing put breaks off after one byte has been sent. *)
Definition signing_pass : list BodyOp := [ReadBody 512; ReadBody 512; RewindBody].

(** Every call issued before [healthy] others have been issued fails; a
    failing listing delivers [page1] first, a failing get breaks off in the
    body after two bytes.  The runtime makes buffers of up to 4096 bytes. *)
Definition svc (healthy : nat) : S3 :=
  {| svcListObjectVersions := fun n _ =>
       if n <? healthy then RunMore page1 (RunFail (boom n))
       else RunMore page1 (RunLast page2);
     svcPutObject := fun n _ =>
       if n <? healthy
       then {| bodyOps := signing_pass ++ [ReadBody 1]; putErr := Some (boom n) |}
       else {| bodyOps := signing_pass ++ [ReadBody 512; ReadBody 512]; putErr := None |};
     svcGetObject := fun n _ =>
       if n <? healthy
       then inr {| goContentLength := Some 3%Z;
                   goBody := {| chunks := [[x01; x02]]; failure := Some (boom n) |};
                   goMeta := head |}
       else inr {| goContentLength := Some 3%Z;
                   goBody := {| chunks := [[x01; x02]; [x03]]; failure := None |};
                   goMeta := head |};
     svcHeadObject := fun n _ => if n <? healthy then inl (boom n) else inr head;
     svcDeleteObject := fun n _ => if n <? healthy then Some (boom n) else None;
     rtMake := fun _ c => (c <=? 4096)%Z |}.

Definition client (healthy : nat) (retries : N) : S3vStorage :=
  {| awsSvc := svc healthy; awsBucket := Some "bucket"%string; prefix := "pre"%string;
     keysPerReq := 2%Z; retryCnt := retries; retryInterval := 10%Z;
     listMarker := None; rlBucket := RateBucket 100 100 |}.

Definition start (healthy : nat) (retries : N) : State :=
  {| this := client healthy retries; clock := 0; trace := [] |}.

Definition obj : Object :=
  {| Key := Some "k"%string; VersionId := Some "v1"%string; ETag := None; Mtime := None;
     IsLatest := Some true; Content := Some [x0a; x0b; x0c];
     ContentType := None; ContentDisposition := None; ContentEncoding := None;
     ContentLanguage := None; ACL := Some "private"%string; Metadata := [];
     CacheControl := None |}.

End Demo.

(** ** Configuring the client *)

(** The part of the SDK's session configuration the constructor sets. *)
Inductive Provider : Type :=
| EnvProvider
| SharedCredentialsProvider
| EC2RoleProvider.

Inductive Credentials : Type :=
| StaticCredentials (id secret token : string)
| ChainCredentials (providers : list Provider).

Record Config : Type := mkConfig {
  cfgS3ForcePathStyle : option bool;
  cfgCredentialsChainVerboseErrors : option bool;
  cfgRegion : option string;
  cfgCredentials : option Credentials;
  cfgEndpoint : option string
}.

Definition nonempty (x : string) : bool := negb (String.eqb x EmptyString).

Section Constructor.

(** [session.NewSession] and [s3.New] belong to the SDK: the configuration
    a new session starts with, and the store client made from a
    configuration. *)
Variable NewSession : Config.
Variable s3_New : Config -> S3.

Definition session_config (awsAccessKey awsSecretKey awsRegion endpoint : string)
  : Config :=
  let cred :=
    if nonempty awsAccessKey && nonempty awsSecretKey
    then StaticCredentials awsAccessKey awsSecretKey EmptyString
    else ChainCredentials [EnvProvider; SharedCredentialsProvider; EC2RoleProvider] in
  {| cfgS3ForcePathStyle := Some true;
     cfgCredentialsChainVerboseErrors := Some true;
     cfgRegion := Some awsRegion;
     cfgCredentials := Some cred;
     cfgEndpoint := if nonempty endpoint then Some endpoint
                    else cfgEndpoint NewSession |}.

Definition NewS3vStorage
    (awsAccessKey awsSecretKey awsRegion endpoint bucketName prefix : string)
    (keysPerReq : Z) (retryCnt : N) (retryInterval : Duration) : S3vStorage :=
  let sess := session_config awsAccessKey awsSecretKey awsRegion endpoint in
  {| awsSvc := s3_New sess;
     awsBucket := Some bucketName;
     prefix := prefix;
     keysPerReq := keysPerReq;
     retryCnt := retryCnt;
     retryInterval := retryInterval;
     listMarker := None;
     rlBucket := FakeBucket |}.

End Constructor.

Definition set_rlBucket (b : Bucket) (st : S3vStorage) : S3vStorage :=
  {| awsSvc := awsSvc st; awsBucket := awsBucket st; prefix := prefix st;
     keysPerReq := keysPerReq st; retryCnt := retryCnt st;
     retryInterval := retryInterval st; listMarker := listMarker st;
     rlBucket := b |}.

Section RateLimit.

(** [ratelimit.NewBucketWithRate] belongs to the limiter's library: given
    the rate and the capacity it answers with a bucket or an error.  Both
    arguments are the same integer here, the first converted to float64. *)
Variable NewBucketWithRate : Z -> Z -> error + Bucket.

Definition WithRateLimit (limit : Z) : M (option error) :=
  match NewBucketWithRate limit limit with
  | inl err => ret (Some err)
  | inr bucket =>
      (fun s => Done tt {| this := set_rlBucket bucket (this s);
                           clock := clock s; trace := trace s |}) ;;;
      ret None
  end.

End RateLimit.

(** ** Keys without escapes *)

Fixpoint has_percent (s : string) : bool :=
  match s with
  | EmptyString => false
  | String c rest => Ascii.eqb c url.pct || has_percent rest
  end.

(** Every '+' of [s] turned into a space. *)
Fixpoint plus_to_space (s : string) : string :=
  match s with
  | EmptyString => EmptyString
  | String c rest =>
      String (if Ascii.eqb c url.plus then url.space else c) (plus_to_space rest)
  end.

(** An object as a listing leaves it: no content, no transport metadata. *)
Definition listing_only (o : Object) : Prop :=
  Content o = None /\ ContentType o = None /\ ContentDisposition o = None
  /\ ContentEncoding o = None /\ ContentLanguage o = None /\ ACL o = None
  /\ Metadata o = [] /\ CacheControl o = None.

(** ** Stores with odd answers *)

Module Edge.

(** A get answer declaring the length [declared] for a body of three
    bytes; every other call succeeds with nothing. *)
Definition svc (declared : Z) : S3 :=
  {| svcListObjectVersions := fun _ _ =>
       RunLast {| Versions := [{| ovKey := None; ovVersionId := None; ovETag := None;
                                  ovLastModified := None; ovIsLatest := None |};
                               Demo.version "a+b c" true];
                  VersionIdMarker := Some "m9"%string;
                  NextKeyMarker := None; NextVersionIdMarker := None |};
     svcPutObject := fun _ _ =>
       {| bodyOps := Demo.signing_pass ++ [ReadBody 512; ReadBody 512]; putErr := None |};
     svcGetObject := fun _ _ =>
       inr {| goContentLength := Some declared;
              goBody := {| chunks := [[x01]; [x02; x03]]; failure := None |};
              goMeta := Demo.head |};
     svcHeadObject := fun _ _ => inr Demo.head;
     svcDeleteObject := fun _ _ => None;
     rtMake := fun _ c => (c <=? 4096)%Z |}.

Definition start (declared : Z) : State :=
  {| this := {| awsSvc := svc declared; awsBucket := Some "bucket"%string;
                prefix := "pre"%string; keysPerReq := 2%Z; retryCnt := 1%N;
                retryInterval := 10%Z; listMarker := None; rlBucket := FakeBucket |};
     clock := 0; trace := [] |}.

(** A limiter constructor that refuses a rate below one. *)
Definition new_bucket (rate : Z) (capacity : Z) : error + Bucket :=
  if (rate <? 1)%Z then inl (RemoteError "rate") else inr (RateBucket rate capacity).

Definition base_config : Config :=
  {| cfgS3ForcePathStyle := None; cfgCredentialsChainVerboseErrors := None;
     cfgRegion := None; cfgCredentials := None; cfgEndpoint := None |}.

End Edge.

(** ** A store whose first page names no marker *)

Module Restart.

(** The first page of a listing: its request carried no marker, and the
    page's [VersionIdMarker] repeats that; where to go on is in the two
    next markers. *)
Definition first_page : ListObjectVersionsOutput :=
  {| Versions := [Demo.version "a" true; Demo.version "b" true];
     VersionIdMarker := None;
     NextKeyMarker := Some "b"%string; NextVersionIdMarker := Some "v1"%string |}.

(** The first paging call fails after the first page, the second one
    delivers it as the only page. *)
Definition svc : S3 :=
  {| svcListObjectVersions := fun n _ =>
       if n <? 1 then RunMore first_page (RunFail (Demo.boom n)) else RunLast first_page;
     svcPutObject := svcPutObject (Demo.svc 0);
     svcGetObject := svcGetObject (Demo.svc 0);
     svcHeadObject := svcHeadObject (Demo.svc 0);
     svcDeleteObject := svcDeleteObject (Demo.svc 0);
     rtMake := rtMake (Demo.svc 0) |}.

Definition start : State :=
  {| this := {| awsSvc := svc; awsBucket := Some "bucket"%string; prefix := "pre"%string;
                keysPerReq := 2%Z; retryCnt := 1%N; retryInterval := 10%Z;
                listMarker := None; rlBucket := FakeBucket |};
     clock := 0; trace := [] |}.

End Restart.

(** An event of a get, head or delete call: a request for [ref], a limiter
    wait, a log line or a sleep. *)
Definition addresses (ref : ObjectRef) (ev : Event) : Prop :=
  match ev with
  | EvGetObject input | EvHeadObject input | EvDeleteObject input => input = ref
  | EvWait _ _ | EvLog _ _ | EvSleep _ => True
  | _ => False
  end.

(** * Properties *)

(** ** The loops are instances of [retry] *)

Ltac go_unfold :=
  unfold bind, ret, panic, diverge, emit, emits, tick, self, store_listMarker,
    Debugf, Sleep in *.

Lemma PutObjectWithContext_spec (input : PutObjectInput) (s : State) :
  PutObjectWithContext input s
  = Done (putErr (svcPutObject (awsSvc (this s)) (clock s) input),
          fst (body_run (svcPutObject (awsSvc (this s)) (clock s) input) (piBody input)))
         {| this := this s; clock := S (clock s);
            trace := trace s ++ EvPutObject input
                       :: snd (body_run (svcPutObject (awsSvc (this s)) (clock s) input)
                                        (piBody input)) |}.
Proof.
  unfold PutObjectWithContext. go_unfold. cbn [this clock trace].
  destruct (body_run _ _) as [body waits]. cbn [fst snd this clock trace].
  now rewrite <- app_assoc.
Qed.

Lemma put_round_spec (input : PutObjectInput) (c : nat) (s : State) :
  let request := put_schedule (awsSvc (this s)) input c (clock s - c) in
  let reply := svcPutObject (awsSvc (this s)) (clock s) request in
  put_round input c s
  = Done match putErr reply with
         | Some e => Failed "S3 obj uploading failed with error: %s" e (ret None)
         | None => Succeeded tt
         end
         {| this := this s; clock := S (clock s);
            trace := trace s ++ EvPutObject request
                       :: snd (body_run reply (piBody request)) |}.
Proof.
  intros request reply. unfold put_round, bind.
  rewrite PutObjectWithContext_spec. fold request reply. cbn [fst].
  now destruct (putErr reply).
Qed.

(** The put loop threads the body through its rounds; [put_round] finds the
    same body from the number of the round. *)
Lemma PutObject_loop_retry (fuel : nat) (input : PutObjectInput) (c : nat) (i : N)
    (s : State) :
  c <= clock s ->
  PutObject_loop fuel (put_schedule (awsSvc (this s)) input c (clock s - c)) i s
  = retry fuel (put_round input c) (fun e => ret (Some e)) (fun _ => ret None) i s.
Proof.
  revert i s; induction fuel as [|fuel IH]; intros i s Hc; [reflexivity|].
  cbn [PutObject_loop retry]. unfold bind, self, ret.
  rewrite put_round_spec, PutObjectWithContext_spec.
  set (request := put_schedule (awsSvc (this s)) input c (clock s - c)).
  set (reply := svcPutObject (awsSvc (this s)) (clock s) request).
  set (s' := {| this := this s; clock := S (clock s); trace := _ |}).
  assert (Hnext : with_body (fst (body_run reply (piBody request))) request
                  = put_schedule (awsSvc (this s)) input c (S (clock s) - c)).
  { replace (S (clock s) - c) with (S (clock s - c)) by lia.
    cbn [put_schedule]. fold request.
    replace (c + (clock s - c)) with (clock s) by lia. reflexivity. }
  destruct (putErr reply) as [e|]; [|reflexivity].
  cbn [isErr andb].
  destruct (i <? retryCnt (this s'))%N.
  - unfold Debugf, Sleep, emit. cbn [this clock trace]. rewrite Hnext.
    apply (IH (uint_succ i)
              {| this := this s; clock := S (clock s);
                 trace := (trace s' ++ [EvLog "S3 obj uploading failed with error: %s" (Some e)])
                          ++ [EvSleep (retryInterval (this s))] |}).
    cbn [clock]. lia.
  - destruct (i =? retryCnt (this s'))%N; reflexivity.
Qed.

Lemma PutObject_loop_retry_0 (fuel : nat) (input : PutObjectInput) (s : State) :
  PutObject_loop fuel input 0%N s
  = retry fuel (put_round input (clock s)) (fun e => ret (Some e)) (fun _ => ret None)
      0%N s.
Proof.
  rewrite <- PutObject_loop_retry by lia. now rewrite Nat.sub_diag.
Qed.

Lemma DeleteObject_loop_retry (fuel : nat) (input : ObjectRef) (i : N) (s : State) :
  DeleteObject_loop fuel input i s
  = retry fuel (delete_round input) (fun e => ret (Some e)) (fun _ => ret None) i s.
Proof.
  revert i s; induction fuel as [|fuel IH]; intros i s; [reflexivity|].
  cbn [DeleteObject_loop retry]. unfold delete_round, bind, self, ret.
  destruct (DeleteObjectWithContext input s) as [[e|] s'| |]; try reflexivity.
  cbn [isErr andb].
  destruct (i <? retryCnt (this s'))%N.
  - go_unfold. apply IH.
  - destruct (i =? retryCnt (this s'))%N; reflexivity.
Qed.

Section LoopShapes.
Variable strongEtag : option string -> option string.

Lemma GetObjectMeta_loop_retry (fuel : nat) (input : ObjectRef) (obj : Object)
    (i : N) (s : State) :
  GetObjectMeta_loop strongEtag fuel input obj i s
  = retry fuel (head_round strongEtag input obj)
      (fun e => ret (obj, Some e))
      (fun result => ret (with_meta strongEtag obj (Content obj) result, None)) i s.
Proof.
  revert i s; induction fuel as [|fuel IH]; intros i s; [reflexivity|].
  cbn [GetObjectMeta_loop retry]. unfold head_round, bind, self, ret.
  destruct (HeadObjectWithContext input s) as [[e|result] s'| |]; try reflexivity.
  cbn [request_error isErr andb].
  destruct (i <? retryCnt (this s'))%N.
  - go_unfold. apply IH.
  - destruct (i =? retryCnt (this s'))%N; reflexivity.
Qed.

Lemma List_loop_retry (fuel : nat) (i : N) (s : State) :
  List_loop strongEtag fuel i s
  = retry fuel (list_round strongEtag)
      (fun e => Debugf "S3 listing failed with error: %s" (Some e) ;;; ret (Some e))
      (fun _ => Debugf "Listing bucket finished" None ;;; ret None) i s.
Proof.
  revert i s; induction fuel as [|fuel IH]; intros i s; [reflexivity|].
  cbn [List_loop retry]. unfold list_round, bind, self, ret.
  destruct (ListObjectVersionsPagesWithContext _ _ s) as [[e|] s'| |]; try reflexivity.
  cbn [isErr andb].
  destruct (i <? retryCnt (this s'))%N.
  - go_unfold. apply IH.
  - destruct (i =? retryCnt (this s'))%N; reflexivity.
Qed.

End LoopShapes.

(** ** What the collaborators' calls do to the state *)

Lemma with_trace_nil (s : State) : with_trace s [] = s.
Proof. destruct s; unfold with_trace; cbn. now rewrite app_nil_r. Qed.

Lemma with_trace_app (s : State) (a b : list Event) :
  with_trace (with_trace s a) b = with_trace s (a ++ b).
Proof. unfold with_trace; cbn. now rewrite app_assoc. Qed.

Lemma copy_chunks_spec (dst : Writer) (cs : list (list byte)) (buf : list byte) (s : State) :
  copy_chunks dst cs buf s
  = Done (buf ++ concat cs)
         (with_trace s (flat_map (fun c => write_waits dst (length c)) cs)).
Proof.
  revert buf s; induction cs as [|c cs IH]; intros buf s; cbn.
  - now rewrite with_trace_nil, app_nil_r.
  - unfold bind, emits. rewrite IH. fold (with_trace s (write_waits dst (length c))).
    now rewrite with_trace_app, app_assoc.
Qed.

Lemma io_Copy_spec (dst : Writer) (src : BodyStream) (s : State) :
  io_Copy dst src [] s
  = Done (body_bytes src, failure src)
         (with_trace s (flat_map (fun c => write_waits dst (length c)) (chunks src))).
Proof. unfold io_Copy, bind. now rewrite copy_chunks_spec. Qed.

Section LoopShapesGet.
Variable strongEtag : option string -> option string.

Lemma GetObjectContent_loop_retry (fuel : nat) (input : ObjectRef) (obj : Object)
    (i : N) (s : State) :
  GetObjectContent_loop strongEtag fuel input obj i s
  = retry fuel (get_round strongEtag input obj)
      (fun e => ret (obj, Some e))
      (fun a => ret (with_meta strongEtag obj (Some (fst a)) (goMeta (snd a)), None)) i s.
Proof.
  revert i s; induction fuel as [|fuel IH]; intros i s; [reflexivity|].
  cbn [GetObjectContent_loop retry]. unfold get_round, bind, self, ret.
  destruct (GetObjectWithContext input s) as [[e|result] s'| |]; try reflexivity;
    cbn [request_error isErr andb].
  - destruct (i <? retryCnt (this s'))%N.
    + go_unfold. apply IH.
    + destruct (i =? retryCnt (this s'))%N; reflexivity.
  - unfold NewBuffer. destruct (makes _ _ _); [|reflexivity].
    rewrite io_Copy_spec.
    destruct (failure (goBody result)) as [e|]; [|reflexivity].
    cbn [isErr andb with_trace this].
    destruct (i <? retryCnt (this s'))%N.
    + go_unfold. apply IH.
    + destruct (i =? retryCnt (this s'))%N; reflexivity.
Qed.

End LoopShapesGet.

(** ** A proof rule for [retry] *)

Lemma uint_succ_small (i n : N) :
  (n < uint_modulus)%N -> (i < n)%N -> uint_succ i = (i + 1)%N.
Proof. intros Hn Hi. unfold uint_succ. apply N.mod_small. lia. Qed.

(** [Inv i s] holds when round [i] starts in [s]; [Q] is what is to be
    shown of the loop's outcome.  The rule also shows that [retryCnt + 1]
    rounds of fuel are never used up, as long as a round returns. *)
Lemma retry_rule {A R : Type} (attempt : M (Attempt A R))
    (giveup : error -> M R) (finish : A -> M R)
    (n : N) (Inv : N -> State -> Prop) (Q : Outcome R -> Prop) :
  (n < uint_modulus)%N ->
  (forall i s, (i <= n)%N -> Inv i s ->
     match attempt s with
     | Done (Failed msg e _) s' =>
         retryCnt (this s') = n /\
         ((i < n)%N -> Inv (i + 1)%N (after_sleep msg e s')) /\
         (i = n -> Q (giveup e s'))
     | Done (Succeeded a) s' => Q (finish a s')
     | Panic s' => Q (Panic s')
     | OutOfFuel => Q OutOfFuel
     end) ->
  forall fuel i s, (i <= n)%N -> Inv i s -> (N.to_nat (n - i) < fuel)%nat ->
    Q (retry fuel attempt giveup finish i s).
Proof.
  intros Hn Hround fuel; induction fuel as [|fuel IH]; intros i s Hi HI Hfuel; [lia|].
  cbn [retry]. unfold bind, self.
  specialize (Hround i s Hi HI).
  destruct (attempt s) as [[msg e beyond|a] s'| |]; auto.
  destruct Hround as (Hcnt & Hnext & Hlast). rewrite Hcnt.
  destruct (N.ltb_spec i n) as [Hlt|Hge].
  - rewrite (uint_succ_small i n Hn Hlt).
    change ((Debugf msg (Some e);;; Sleep (retryInterval (this s'));;;
             retry fuel attempt giveup finish (i + 1)%N) s')
      with (retry fuel attempt giveup finish (i + 1)%N (after_sleep msg e s')).
    apply IH; [lia|auto|lia].
  - assert (i = n) by lia. subst i. rewrite N.eqb_refl. auto.
Qed.

(** ** Failing rounds followed by a success, or by nothing *)

Lemma same_client_refl (a : S3vStorage) : same_client a a.
Proof. reflexivity. Qed.

Lemma same_client_trans (a b c : S3vStorage) :
  same_client a b -> same_client b c -> same_client a c.
Proof. unfold same_client; congruence. Qed.

Lemma same_client_retry (a b : S3vStorage) :
  same_client a b ->
  awsSvc a = awsSvc b /\ retryCnt a = retryCnt b /\ retryInterval a = retryInterval b
  /\ rlBucket a = rlBucket b.
Proof.
  intros H. repeat split.
  - exact (f_equal awsSvc H).
  - exact (f_equal retryCnt H).
  - exact (f_equal retryInterval H).
  - exact (f_equal rlBucket H).
Qed.

Lemma same_client_set (m : option string) (a : S3vStorage) :
  same_client a (set_listMarker m a).
Proof. reflexivity. Qed.

Lemma skeleton_app (a b : list Event) : skeleton (a ++ b) = skeleton a ++ skeleton b.
Proof. apply flat_map_app. Qed.

Lemma failed_rounds_snoc (j : nat) (d : Duration) :
  failed_rounds (S j) d = failed_rounds j d ++ [Attempted; Slept d].
Proof. induction j as [|j IH]; [reflexivity|]. cbn in *. now rewrite IH. Qed.

Lemma count_failed_rounds (k : nat) (d : Duration) :
  count_attempts (failed_rounds k d ++ [Attempted]) = S k
  /\ count_sleeps (failed_rounds k d ++ [Attempted]) = k.
Proof.
  unfold count_attempts, count_sleeps.
  induction k as [|k [IHa IHs]]; [now split|]. cbn in *. now rewrite IHa, IHs.
Qed.

Section Scenario.
Context {A R : Type}.
Variable attempt : M (Attempt A R).
Variable giveup : error -> M R.
Variable finish : A -> M R.
Variable s : State.
Variable e : nat -> error.
Hypothesis Hbound : (retryCnt (this s) < uint_modulus)%N.

Lemma started_0 : started s 0 s.
Proof.
  split; [apply same_client_refl|]. split; [lia|].
  exists []. split; [now rewrite app_nil_r|reflexivity].
Qed.

Lemma round_ends (j : nat) (s1 s' : State) (r : Attempt A R) :
  started s j s1 -> round_of attempt s1 r s' -> ended s j s'.
Proof.
  intros (Hc & Hk & added & Htr & Hsk) (_ & Hc' & Hk' & added' & Htr' & Hsk').
  split; [eapply same_client_trans; eauto|]. split; [lia|].
  exists (added ++ added'). split.
  - now rewrite Htr', Htr, app_assoc.
  - now rewrite skeleton_app, Hsk, Hsk'.
Qed.

Lemma round_restarts (j : nat) (s' : State) (msg : string) (e' : error) :
  ended s j s' -> started s (S j) (after_sleep msg e' s').
Proof.
  intros (Hc & Hk & added & Htr & Hsk).
  split; [exact Hc|]. split; [cbn; lia|].
  exists (added ++ [EvLog msg (Some e'); EvSleep (retryInterval (this s'))]). split.
  - cbn. rewrite Htr, <- !app_assoc. reflexivity.
  - rewrite skeleton_app, Hsk, failed_rounds_snoc, <- app_assoc. cbn.
    destruct (same_client_retry _ _ Hc) as (_ & _ & -> & _). reflexivity.
Qed.

Lemma retry_recovers (k : nat) :
  (N.of_nat k <= retryCnt (this s))%N ->
  (forall j s1, j < k -> started s j s1 ->
     exists msg beyond s', round_of attempt s1 (Failed msg (e j) beyond) s') ->
  (forall s1, started s k s1 -> exists a s', round_of attempt s1 (Succeeded a) s') ->
  exists a s1,
    retry (rounds (this s)) attempt giveup finish 0%N s = finish a s1
    /\ (exists s0, started s k s0 /\ round_of attempt s0 (Succeeded a) s1)
    /\ ended s k s1.
Proof.
  intros Hk Hfail Hok.
  apply (retry_rule attempt giveup finish (retryCnt (this s))
           (fun i s1 => exists j, i = N.of_nat j /\ j <= k /\ started s j s1)
           (fun o => exists a s1, o = finish a s1
                       /\ (exists s0, started s k s0 /\ round_of attempt s0 (Succeeded a) s1)
                       /\ ended s k s1));
    [exact Hbound| |lia|exists 0; split; [reflexivity|split; [lia|apply started_0]]
    |unfold rounds; lia].
  intros i s1 Hi (j & -> & Hjk & Hst).
  destruct (Nat.eq_dec j k) as [->|Hne].
  - destruct (Hok s1 Hst) as (a & s' & Hr). pose proof Hr as (-> & _).
    exists a, s'. split; [reflexivity|]. split; [eauto|]. eapply round_ends; eauto.
  - destruct (Hfail j s1 ltac:(lia) Hst) as (msg & beyond & s' & Hr).
    pose proof Hr as (-> & _).
    pose proof (round_ends _ _ _ _ Hst Hr) as Hend.
    destruct Hend as (Hc & Hend'). pose proof (conj Hc Hend') as Hend.
    destruct (same_client_retry _ _ Hc) as (_ & <- & _). split; [reflexivity|]. split.
    + intros _. exists (S j). split; [lia|]. split; [lia|]. now apply round_restarts.
    + intros Heq. lia.
Qed.

Lemma retry_gives_up :
  (forall j s1, (N.of_nat j <= retryCnt (this s))%N -> started s j s1 ->
     exists msg beyond s', round_of attempt s1 (Failed msg (e j) beyond) s') ->
  exists s1,
    retry (rounds (this s)) attempt giveup finish 0%N s
    = giveup (e (N.to_nat (retryCnt (this s)))) s1
    /\ ended s (N.to_nat (retryCnt (this s))) s1.
Proof.
  intros Hfail.
  apply (retry_rule attempt giveup finish (retryCnt (this s))
           (fun i s1 => started s (N.to_nat i) s1)
           (fun o => exists s1, o = giveup (e (N.to_nat (retryCnt (this s)))) s1
                       /\ ended s (N.to_nat (retryCnt (this s))) s1));
    [exact Hbound| |lia|apply started_0|unfold rounds; lia].
  intros i s1 Hi Hst.
  destruct (Hfail (N.to_nat i) s1 ltac:(lia) Hst) as (msg & beyond & s' & Hr).
  pose proof Hr as (-> & _).
  pose proof (round_ends _ _ _ _ Hst Hr) as Hend.
  destruct Hend as (Hc & Hend'). pose proof (conj Hc Hend') as Hend.
  destruct (same_client_retry _ _ Hc) as (_ & <- & _). split; [reflexivity|]. split.
  - intros _. replace (N.to_nat (i + 1)) with (S (N.to_nat i)) by lia.
    now apply round_restarts.
  - intros Heq. subst i. exists s'. split; [reflexivity|exact Hend].
Qed.

End Scenario.

(** ** The rounds, one by one *)

Lemma skeleton_reader_read (n : nat) (r : Reader) :
  skeleton (snd (reader_read n r)) = [].
Proof.
  induction r as [data pos|r IH b]; [reflexivity|].
  cbn [reader_read]. destruct (reader_read n r) as [[k r'] evs]. cbn [snd] in *.
  rewrite skeleton_app, IH. now destruct (k =? 0).
Qed.

Lemma skeleton_run_body (start : nat) (ops : list BodyOp) (r : Reader) :
  skeleton (snd (run_body start ops r)) = [].
Proof.
  revert r; induction ops as [|[n|] ops IH]; intros r; cbn [run_body]; [reflexivity| |apply IH].
  pose proof (skeleton_reader_read n r) as Hread.
  destruct (reader_read n r) as [[k r'] evs]. cbn [snd] in Hread.
  specialize (IH r'). destruct (run_body start ops r') as [r'' evs']. cbn [snd] in *.
  now rewrite skeleton_app, Hread, IH.
Qed.

Lemma skeleton_write_waits (w : Writer) (n : nat) : skeleton (write_waits w n) = [].
Proof. induction w as [|w IH b]; [reflexivity|]. exact IH. Qed.

Lemma skeleton_copy (w : Writer) (cs : list (list byte)) :
  skeleton (flat_map (fun c => write_waits w (length c)) cs) = [].
Proof.
  induction cs as [|c cs IH]; [reflexivity|].
  cbn. now rewrite skeleton_app, skeleton_write_waits, IH.
Qed.

Lemma delete_round_spec (input : ObjectRef) (s : State) :
  delete_round input s
  = Done (match svcDeleteObject (awsSvc (this s)) (clock s) input with
          | Some e => Failed "S3 obj removing failed with error: %s" e (ret None)
          | None => Succeeded tt
          end)
         {| this := this s; clock := S (clock s);
            trace := trace s ++ [EvDeleteObject input] |}.
Proof.
  unfold delete_round, DeleteObjectWithContext. go_unfold. cbn.
  destruct (svcDeleteObject _ _ _); reflexivity.
Qed.

Section RoundSpecs.
Variable strongEtag : option string -> option string.

Lemma head_round_spec (input : ObjectRef) (obj : Object) (s : State) :
  head_round strongEtag input obj s
  = Done (match svcHeadObject (awsSvc (this s)) (clock s) input with
          | inl e => Failed "S3 obj meta downloading request failed with error: %s" e
                       (ret (with_meta strongEtag obj (Content obj) empty_head, None))
          | inr result => Succeeded result
          end)
         {| this := this s; clock := S (clock s);
            trace := trace s ++ [EvHeadObject input] |}.
Proof.
  unfold head_round, HeadObjectWithContext. go_unfold. cbn.
  destruct (svcHeadObject _ _ _); reflexivity.
Qed.

(** A get round for whose answer the runtime makes the buffer. *)
Lemma get_round_spec (input : ObjectRef) (obj : Object) (s : State) :
  sized (awsSvc (this s)) (clock s) (svcGetObject (awsSvc (this s)) (clock s) input) ->
  get_round strongEtag input obj s
  = Done (match svcGetObject (awsSvc (this s)) (clock s) input with
          | inl e =>
              Failed "S3 obj content downloading request failed with error: %s" e panic
          | inr result =>
              match failure (goBody result) with
              | Some e =>
                  Failed "S3 obj content downloading failed with error: %s" e
                    (ret (with_meta strongEtag obj (Some (body_bytes (goBody result)))
                            (goMeta result), None))
              | None => Succeeded (body_bytes (goBody result), result)
              end
          end)
         {| this := this s; clock := S (clock s);
            trace := trace s ++ EvGetObject input
                     :: match svcGetObject (awsSvc (this s)) (clock s) input with
                        | inl _ => []
                        | inr result =>
                            flat_map (fun c => write_waits
                                                 (RateLimitWriter BufferWriter (rlBucket (this s)))
                                                 (length c))
                                     (chunks (goBody result))
                        end |}.
Proof.
  intros Hsized. unfold get_round, GetObjectWithContext. go_unfold. cbn.
  destruct (svcGetObject _ _ _) as [e|result]; [reflexivity|].
  cbn [sized] in Hsized. unfold NewBuffer. cbn [this clock]. rewrite Hsized.
  rewrite io_Copy_spec. unfold with_trace. cbn.
  rewrite <- app_assoc. cbn.
  destruct (failure (goBody result)); reflexivity.
Qed.

Lemma send_versions_spec (vs : list ObjectVersion) (s : State) :
  send_versions strongEtag vs s
  = Done tt (with_trace s (map EvSend (map (listed_object strongEtag) vs))).
Proof.
  revert s; induction vs as [|o vs IH]; intros s; cbn [send_versions map].
  - cbn. now rewrite with_trace_nil.
  - unfold listed_object at 1.
    destruct (url.QueryUnescape (StringValue (ovKey o))) as [key err]. cbn [fst].
    unfold bind, emit. rewrite IH. unfold with_trace. cbn.
    now rewrite <- app_assoc.
Qed.

Lemma listObjectsFn_spec (p : ListObjectVersionsOutput) (lastPage : bool) (s : State) :
  listObjectsFn strongEtag p lastPage s
  = Done (negb lastPage)
         {| this := set_listMarker (VersionIdMarker p) (this s); clock := clock s;
            trace := trace s ++ map EvSend (page_objects strongEtag p) |}.
Proof.
  unfold listObjectsFn, bind. rewrite send_versions_spec. reflexivity.
Qed.

Lemma request_pages_spec (run : PagingRun) (req : ListObjectVersionsInput) (s : State) :
  request_pages run req (listObjectsFn strongEtag) s
  = Done (run_error run)
         {| this := client_after (run_pages run) (this s); clock := clock s;
            trace := trace s ++ run_events strongEtag run req |}.
Proof.
  revert req s; induction run as [e|p|p rest IH]; intros req s; cbn [request_pages].
  - reflexivity.
  - unfold bind, emit. rewrite listObjectsFn_spec. cbn.
    now rewrite <- !app_assoc.
  - unfold bind, emit. rewrite listObjectsFn_spec. cbn [negb].
    rewrite IH. cbn. now rewrite <- !app_assoc.
Qed.

Lemma list_round_spec (s : State) :
  let input := list_input (this s) in
  let run := svcListObjectVersions (awsSvc (this s)) (clock s) input in
  list_round strongEtag s
  = Done (match run_error run with
          | Some e => Failed "S3 listing failed with error: %s" e
                        (Debugf "Listing bucket finished" None ;;; ret (Some e))
          | None => Succeeded tt
          end)
         {| this := client_after (run_pages run) (this s); clock := S (clock s);
            trace := trace s ++ EvListVersionsPages input :: run_events strongEtag run input |}.
Proof.
  cbn zeta. unfold list_round, ListObjectVersionsPagesWithContext.
  unfold bind, self, tick, emit. rewrite request_pages_spec. cbn.
  rewrite <- app_assoc. cbn.
  destruct (run_error _); reflexivity.
Qed.

End RoundSpecs.

(** ** Rounds under a scripted store *)

Lemma started_svc (s s1 : State) (j : nat) :
  started s j s1 -> awsSvc (this s1) = awsSvc (this s) /\ clock s1 = clock s + j.
Proof.
  intros (Hc & Hk & _). destruct (same_client_retry _ _ Hc) as (-> & _). now split.
Qed.

Lemma put_round_of (input : PutObjectInput) (c : nat) (s : State) :
  exists r s', round_of (put_round input c) s r s'
    /\ match putErr (svcPutObject (awsSvc (this s)) (clock s)
                       (put_schedule (awsSvc (this s)) input c (clock s - c))) with
       | Some e => exists msg beyond, r = Failed msg e beyond
       | None => r = Succeeded tt
       end.
Proof.
  eexists _, _. split.
  - split; [apply put_round_spec|]. split; [apply same_client_refl|]. split; [reflexivity|].
    eexists. split; [reflexivity|]. cbn. f_equal. apply skeleton_run_body.
  - destruct (putErr _); eauto.
Qed.

Lemma delete_round_of (input : ObjectRef) (s : State) :
  exists r s', round_of (delete_round input) s r s'
    /\ match svcDeleteObject (awsSvc (this s)) (clock s) input with
       | Some e => exists msg beyond, r = Failed msg e beyond
       | None => r = Succeeded tt
       end.
Proof.
  eexists _, _. split.
  - split; [apply delete_round_spec|]. split; [apply same_client_refl|].
    split; [reflexivity|]. eexists. split; reflexivity.
  - destruct (svcDeleteObject _ _ _); eauto.
Qed.

Section RoundsOf.
Variable strongEtag : option string -> option string.

Lemma head_round_of (input : ObjectRef) (obj : Object) (s : State) :
  exists r s', round_of (head_round strongEtag input obj) s r s'
    /\ match svcHeadObject (awsSvc (this s)) (clock s) input with
       | inl e => exists msg beyond, r = Failed msg e beyond
       | inr result => r = Succeeded result
       end.
Proof.
  eexists _, _. split.
  - split; [apply head_round_spec|]. split; [apply same_client_refl|].
    split; [reflexivity|]. eexists. split; reflexivity.
  - destruct (svcHeadObject _ _ _); eauto.
Qed.

Lemma get_round_of (input : ObjectRef) (obj : Object) (s : State) :
  sized (awsSvc (this s)) (clock s) (svcGetObject (awsSvc (this s)) (clock s) input) ->
  exists r s', round_of (get_round strongEtag input obj) s r s'
    /\ match get_error (svcGetObject (awsSvc (this s)) (clock s) input) with
       | Some e => exists msg beyond, r = Failed msg e beyond
       | None => exists result,
           svcGetObject (awsSvc (this s)) (clock s) input = inr result
           /\ r = Succeeded (body_bytes (goBody result), result)
       end.
Proof.
  intros Hsized. eexists _, _. split.
  - split; [apply get_round_spec, Hsized|]. split; [apply same_client_refl|].
    split; [reflexivity|]. eexists. split; [reflexivity|]. cbn.
    f_equal. destruct (svcGetObject _ _ _); [reflexivity|].
    apply (skeleton_copy (RateLimitWriter BufferWriter (rlBucket (this s)))).
  - destruct (svcGetObject _ _ _) as [e|result]; cbn; [eauto|].
    destruct (failure (goBody result)); eauto.
Qed.

Lemma client_after_same (ps : list ListObjectVersionsOutput) (st : S3vStorage) :
  same_client st (client_after ps st).
Proof.
  revert st; induction ps as [|p ps IH]; intros st; [apply same_client_refl|].
  cbn. eapply same_client_trans; [apply (same_client_set (VersionIdMarker p))|apply IH].
Qed.

Lemma skeleton_sends (os : list Object) : skeleton (map EvSend os) = [].
Proof. induction os; [reflexivity|assumption]. Qed.

Lemma skeleton_run_events (run : PagingRun) (req : ListObjectVersionsInput) :
  skeleton (run_events strongEtag run req) = [].
Proof.
  revert req; induction run as [e|p|p rest IH]; intros req; cbn.
  - reflexivity.
  - apply skeleton_sends.
  - now rewrite skeleton_app, skeleton_sends, IH.
Qed.

Lemma list_round_of (s : State) :
  exists r s', round_of (list_round strongEtag) s r s'
    /\ match run_error (svcListObjectVersions (awsSvc (this s)) (clock s)
                          (list_input (this s))) with
       | Some e => exists msg beyond, r = Failed msg e beyond
       | None => r = Succeeded tt
       end.
Proof.
  eexists _, _. split.
  - split; [apply list_round_spec|]. split; [apply client_after_same|].
    split; [reflexivity|]. eexists. split; [reflexivity|]. cbn.
    f_equal. apply skeleton_run_events.
  - destruct (run_error _); eauto.
Qed.

End RoundsOf.

Lemma ended_quiet (s s1 : State) (k : nat) (more : list Event) :
  ended s k s1 -> skeleton more = [] -> ended s k (with_trace s1 more).
Proof.
  intros (Hc & Hk & added & Htr & Hsk) Hq.
  split; [exact Hc|]. split; [exact Hk|].
  exists (added ++ more). split.
  - cbn. now rewrite Htr, app_assoc.
  - now rewrite skeleton_app, Hsk, Hq, app_nil_r.
Qed.

(** What [ended] says in terms of counts. *)
Lemma ended_counts (s s1 : State) (k : nat) :
  ended s k s1 ->
  exists added,
    clock s1 = clock s + S k
    /\ trace s1 = trace s ++ added
    /\ skeleton added = failed_rounds k (retryInterval (this s)) ++ [Attempted]
    /\ count_attempts (skeleton added) = S k
    /\ count_sleeps (skeleton added) = k.
Proof.
  intros (_ & Hk & added & Htr & Hsk). exists added.
  rewrite Hsk. destruct (count_failed_rounds k (retryInterval (this s))). auto.
Qed.

Ltac scripted_round Hst lemma :=
  let Hsvc := fresh "Hsvc" in
  let Hclk := fresh "Hclk" in
  let r := fresh "r" in
  let s' := fresh "s'" in
  let Hr := fresh "Hr" in
  let Hv := fresh "Hv" in
  destruct (started_svc _ _ _ Hst) as [Hsvc Hclk];
  destruct lemma as (r & s' & Hr & Hv);
  rewrite Hsvc, Hclk in Hv.

Section Scripted.
Variable strongEtag : option string -> option string.
Variable s : State.
Variable e : nat -> error.
Hypothesis Hbound : uint_retryCnt s.

Let svc := awsSvc (this s).
Let cnt := N.to_nat (retryCnt (this s)).

(** *** Failing [k] times, then succeeding *)

Section Recovers.
Variable k : nat.
Hypothesis Hk : (N.of_nat k <= retryCnt (this s))%N.

Lemma PutObject_loop_recovers (input : PutObjectInput) :
  (forall j request, j < k ->
     putErr (svcPutObject svc (clock s + j) request) = Some (e j)) ->
  (forall request, putErr (svcPutObject svc (clock s + k) request) = None) ->
  exists s1, PutObject_loop (rounds (this s)) input 0%N s = Done None s1 /\ ended s k s1.
Proof.
  intros Hfail Hok. rewrite PutObject_loop_retry_0.
  destruct (retry_recovers (put_round input (clock s)) (fun e => ret (Some e))
              (fun _ => ret None) s e Hbound k Hk) as (a & s1 & -> & _ & Hend).
  - intros j s1 Hj Hst. scripted_round Hst (put_round_of input (clock s) s1).
    fold svc in Hv. rewrite (Hfail j _ Hj) in Hv. destruct Hv as (msg & beyond & ->). eauto.
  - intros s1 Hst. scripted_round Hst (put_round_of input (clock s) s1).
    fold svc in Hv. rewrite Hok in Hv. subst r. eauto.
  - eauto.
Qed.

Lemma DeleteObject_loop_recovers (input : ObjectRef) :
  (forall j, j < k -> svcDeleteObject svc (clock s + j) input = Some (e j)) ->
  svcDeleteObject svc (clock s + k) input = None ->
  exists s1, DeleteObject_loop (rounds (this s)) input 0%N s = Done None s1 /\ ended s k s1.
Proof.
  intros Hfail Hok. rewrite DeleteObject_loop_retry.
  destruct (retry_recovers (delete_round input) (fun e => ret (Some e)) (fun _ => ret None)
              s e Hbound k Hk) as (a & s1 & -> & _ & Hend).
  - intros j s1 Hj Hst. scripted_round Hst (delete_round_of input s1).
    fold svc in Hv. rewrite (Hfail j Hj) in Hv. destruct Hv as (msg & beyond & ->). eauto.
  - intros s1 Hst. scripted_round Hst (delete_round_of input s1).
    fold svc in Hv. rewrite Hok in Hv. subst r. eauto.
  - eauto.
Qed.

Lemma GetObjectMeta_loop_recovers (input : ObjectRef) (obj : Object) :
  (forall j, j < k -> request_error (svcHeadObject svc (clock s + j) input) = Some (e j)) ->
  request_error (svcHeadObject svc (clock s + k) input) = None ->
  exists result s1,
    svcHeadObject svc (clock s + k) input = inr result
    /\ GetObjectMeta_loop strongEtag (rounds (this s)) input obj 0%N s
       = Done (with_meta strongEtag obj (Content obj) result, None) s1
    /\ ended s k s1.
Proof.
  intros Hfail Hok. rewrite GetObjectMeta_loop_retry.
  destruct (retry_recovers (head_round strongEtag input obj) (fun e => ret (obj, Some e))
              (fun result => ret (with_meta strongEtag obj (Content obj) result, None))
              s e Hbound k Hk) as (a & s1 & -> & (s0 & Hst & Hr0) & Hend).
  - intros j s1 Hj Hst. scripted_round Hst (head_round_of strongEtag input obj s1).
    fold svc in Hv. specialize (Hfail j Hj).
    destruct (svcHeadObject svc (clock s + j) input); [|discriminate].
    injection Hfail as ->. destruct Hv as (msg & beyond & ->). eauto.
  - intros s1 Hst. scripted_round Hst (head_round_of strongEtag input obj s1).
    fold svc in Hv. destruct (svcHeadObject svc (clock s + k) input); [discriminate|].
    subst r. eauto.
  - scripted_round Hst (head_round_of strongEtag input obj s0). fold svc in Hv.
    destruct Hr0 as (Hr0 & _). destruct Hr as (Hr & _). rewrite Hr in Hr0.
    destruct (svcHeadObject svc (clock s + k) input) as [|result]; [discriminate|].
    subst r. injection Hr0 as <- _. exists result, s1. auto.
Qed.

Lemma GetObjectContent_loop_recovers (input : ObjectRef) (obj : Object) :
  (forall j, j < k -> get_error (svcGetObject svc (clock s + j) input) = Some (e j)
                      /\ sized svc (clock s + j) (svcGetObject svc (clock s + j) input)) ->
  get_error (svcGetObject svc (clock s + k) input) = None ->
  sized svc (clock s + k) (svcGetObject svc (clock s + k) input) ->
  exists result s1,
    svcGetObject svc (clock s + k) input = inr result
    /\ GetObjectContent_loop strongEtag (rounds (this s)) input obj 0%N s
       = Done (with_meta strongEtag obj (Some (body_bytes (goBody result))) (goMeta result),
               None) s1
    /\ ended s k s1.
Proof.
  intros Hfail Hok Hsz. rewrite GetObjectContent_loop_retry.
  destruct (retry_recovers (get_round strongEtag input obj) (fun e => ret (obj, Some e))
              (fun a => ret (with_meta strongEtag obj (Some (fst a)) (goMeta (snd a)), None))
              s e Hbound k Hk) as (a & s1 & -> & (s0 & Hst & Hr0) & Hend).
  - intros j s1 Hj Hst. destruct (Hfail j Hj) as [Hf Hs].
    destruct (started_svc _ _ _ Hst) as [Hsvc Hclk].
    destruct (get_round_of strongEtag input obj s1) as (r & s' & Hr & Hv);
      [rewrite Hsvc, Hclk; exact Hs|rewrite Hsvc, Hclk in Hv].
    fold svc in Hv. rewrite Hf in Hv. destruct Hv as (msg & beyond & ->). eauto.
  - intros s1 Hst. destruct (started_svc _ _ _ Hst) as [Hsvc Hclk].
    destruct (get_round_of strongEtag input obj s1) as (r & s' & Hr & Hv);
      [rewrite Hsvc, Hclk; exact Hsz|rewrite Hsvc, Hclk in Hv].
    fold svc in Hv. rewrite Hok in Hv. destruct Hv as (result & _ & ->). eauto.
  - destruct (started_svc _ _ _ Hst) as [Hsvc Hclk].
    destruct (get_round_of strongEtag input obj s0) as (r & s' & Hr & Hv);
      [rewrite Hsvc, Hclk; exact Hsz|rewrite Hsvc, Hclk in Hv].
    fold svc in Hv. rewrite Hok in Hv. destruct Hv as (result & Hres & ->).
    destruct Hr0 as (Hr0 & _). destruct Hr as (Hr & _). rewrite Hr in Hr0.
    injection Hr0 as <- _. exists result, s1. auto.
Qed.

Lemma List_loop_recovers :
  (forall j input, j < k -> run_error (svcListObjectVersions svc (clock s + j) input) = Some (e j)) ->
  (forall input, run_error (svcListObjectVersions svc (clock s + k) input) = None) ->
  exists s0 s1,
    started s k s0
    /\ list_round strongEtag s0 = Done (Succeeded tt) s1
    /\ List_loop strongEtag (rounds (this s)) 0%N s
       = Done None (with_trace s1 [EvLog "Listing bucket finished" None])
    /\ ended s k s1.
Proof.
  intros Hfail Hok. rewrite List_loop_retry.
  destruct (retry_recovers (list_round strongEtag)
              (fun e => Debugf "S3 listing failed with error: %s" (Some e) ;;; ret (Some e))
              (fun _ => Debugf "Listing bucket finished" None ;;; ret None)
              s e Hbound k Hk) as (a & s1 & -> & (s0 & Hst & Hr0) & Hend).
  - intros j s1 Hj Hst. scripted_round Hst (list_round_of strongEtag s1).
    fold svc in Hv. rewrite (Hfail j _ Hj) in Hv. destruct Hv as (msg & beyond & ->). eauto.
  - intros s1 Hst. scripted_round Hst (list_round_of strongEtag s1).
    fold svc in Hv. rewrite Hok in Hv. subst r. eauto.
  - destruct a. destruct Hr0 as (Hr0 & _). exists s0, s1. auto.
Qed.

End Recovers.

(** *** Failing every time *)

Lemma PutObject_loop_gives_up (input : PutObjectInput) :
  (forall j request, j <= cnt ->
     putErr (svcPutObject svc (clock s + j) request) = Some (e j)) ->
  exists s1, PutObject_loop (rounds (this s)) input 0%N s = Done (Some (e cnt)) s1
             /\ ended s cnt s1.
Proof.
  intros Hfail. rewrite PutObject_loop_retry_0.
  destruct (retry_gives_up (put_round input (clock s)) (fun e => ret (Some e))
              (fun _ => ret None) s e Hbound) as (s1 & -> & Hend); [|eauto].
  intros j s1 Hj Hst. scripted_round Hst (put_round_of input (clock s) s1).
  fold svc in Hv. rewrite (Hfail j) in Hv by (unfold cnt; lia).
  destruct Hv as (msg & beyond & ->). eauto.
Qed.

Lemma DeleteObject_loop_gives_up (input : ObjectRef) :
  (forall j, j <= cnt -> svcDeleteObject svc (clock s + j) input = Some (e j)) ->
  exists s1, DeleteObject_loop (rounds (this s)) input 0%N s = Done (Some (e cnt)) s1
             /\ ended s cnt s1.
Proof.
  intros Hfail. rewrite DeleteObject_loop_retry.
  destruct (retry_gives_up (delete_round input) (fun e => ret (Some e)) (fun _ => ret None)
              s e Hbound) as (s1 & -> & Hend); [|eauto].
  intros j s1 Hj Hst. scripted_round Hst (delete_round_of input s1).
  fold svc in Hv. rewrite (Hfail j) in Hv by (unfold cnt; lia).
  destruct Hv as (msg & beyond & ->). eauto.
Qed.

Lemma GetObjectMeta_loop_gives_up (input : ObjectRef) (obj : Object) :
  (forall j, j <= cnt -> request_error (svcHeadObject svc (clock s + j) input) = Some (e j)) ->
  exists s1, GetObjectMeta_loop strongEtag (rounds (this s)) input obj 0%N s
             = Done (obj, Some (e cnt)) s1
             /\ ended s cnt s1.
Proof.
  intros Hfail. rewrite GetObjectMeta_loop_retry.
  destruct (retry_gives_up (head_round strongEtag input obj) (fun e => ret (obj, Some e))
              (fun result => ret (with_meta strongEtag obj (Content obj) result, None))
              s e Hbound) as (s1 & -> & Hend); [|eauto].
  intros j s1 Hj Hst. scripted_round Hst (head_round_of strongEtag input obj s1).
  fold svc in Hv. specialize (Hfail j ltac:(unfold cnt; lia)).
  destruct (svcHeadObject svc (clock s + j) input); [|discriminate].
  injection Hfail as ->. destruct Hv as (msg & beyond & ->). eauto.
Qed.

Lemma GetObjectContent_loop_gives_up (input : ObjectRef) (obj : Object) :
  (forall j, j <= cnt -> get_error (svcGetObject svc (clock s + j) input) = Some (e j)
                         /\ sized svc (clock s + j)
                              (svcGetObject svc (clock s + j) input)) ->
  exists s1, GetObjectContent_loop strongEtag (rounds (this s)) input obj 0%N s
             = Done (obj, Some (e cnt)) s1
             /\ ended s cnt s1.
Proof.
  intros Hfail. rewrite GetObjectContent_loop_retry.
  destruct (retry_gives_up (get_round strongEtag input obj) (fun e => ret (obj, Some e))
              (fun a => ret (with_meta strongEtag obj (Some (fst a)) (goMeta (snd a)), None))
              s e Hbound) as (s1 & -> & Hend); [|eauto].
  intros j s1 Hj Hst. destruct (Hfail j ltac:(unfold cnt; lia)) as [Hf Hs].
  destruct (started_svc _ _ _ Hst) as [Hsvc Hclk].
  destruct (get_round_of strongEtag input obj s1) as (r & s' & Hr & Hv);
    [rewrite Hsvc, Hclk; exact Hs|rewrite Hsvc, Hclk in Hv].
  fold svc in Hv. rewrite Hf in Hv. destruct Hv as (msg & beyond & ->). eauto.
Qed.

Lemma List_loop_gives_up :
  (forall j input, j <= cnt ->
     run_error (svcListObjectVersions svc (clock s + j) input) = Some (e j)) ->
  exists s1, List_loop strongEtag (rounds (this s)) 0%N s
             = Done (Some (e cnt))
                    (with_trace s1 [EvLog "S3 listing failed with error: %s" (Some (e cnt))])
             /\ ended s cnt s1.
Proof.
  intros Hfail. rewrite List_loop_retry.
  destruct (retry_gives_up (list_round strongEtag)
              (fun e => Debugf "S3 listing failed with error: %s" (Some e) ;;; ret (Some e))
              (fun _ => Debugf "Listing bucket finished" None ;;; ret None)
              s e Hbound) as (s1 & -> & Hend);
    [|exists s1; split; [reflexivity|exact Hend]].
  intros j s1 Hj Hst. scripted_round Hst (list_round_of strongEtag s1).
  fold svc in Hv. rewrite (Hfail j) in Hv by (unfold cnt; lia).
  destruct Hv as (msg & beyond & ->). eauto.
Qed.

End Scripted.

(** ** Retrying: the claims *)

Lemma slept_failed_rounds (k : nat) (d : Duration) :
  slept (failed_rounds k d ++ [Attempted]) = (Z.of_nat k * d)%Z.
Proof.
  induction k as [|k IH]; [reflexivity|].
  change (slept (failed_rounds (S k) d ++ [Attempted]))
    with (d + slept (failed_rounds k d ++ [Attempted]))%Z.
  rewrite IH, Nat2Z.inj_succ. lia.
Qed.

Lemma perform_snd {A : Type} (m : M (A * option error)) (s s1 : State) (a : A)
    (err : option error) :
  m s = Done (a, err) s1 -> (r <- m ;; ret (snd r)) s = Done err s1.
Proof. intros H. unfold bind. now rewrite H. Qed.

(** C3: whatever the operation and the retry count, when the wrapped remote
    call fails on exactly the first [k] attempts ([k <= retryCnt]) and then
    succeeds, the operation returns nil from attempt [k + 1], makes [k + 1]
    attempts (at most [retryCnt + 1]) and sleeps [retryInterval] exactly [k]
    times, once after every failed attempt. *)
Theorem retry_succeeds_after_failures
    (strongEtag : option string -> option string)
    (filepath_Join : string -> string -> string)
    (op : Operation) (s : State) (e : nat -> error) (k : nat) :
  uint_retryCnt s ->
  present op ->
  (N.of_nat k <= retryCnt (this s))%N ->
  (forall j, j < k -> fails_at (awsSvc (this s)) op (clock s + j) (e j)) ->
  succeeds_at (awsSvc (this s)) op (clock s + k) ->
  exists s' added,
    perform strongEtag filepath_Join op s = Done None s'
    /\ clock s' = clock s + S k
    /\ S k <= rounds (this s)
    /\ trace s' = trace s ++ added
    /\ skeleton added = failed_rounds k (retryInterval (this s)) ++ [Attempted]
    /\ count_attempts (skeleton added) = S k
    /\ count_sleeps (skeleton added) = k.
Proof.
  intros Hbound Hpresent Hk Hfail Hok.
  assert (Hgoal : forall s', ended s k s' ->
            forall r : Outcome (option error), r = Done None s' ->
            exists s' added,
              r = Done None s'
              /\ clock s' = clock s + S k
              /\ S k <= rounds (this s)
              /\ trace s' = trace s ++ added
              /\ skeleton added = failed_rounds k (retryInterval (this s)) ++ [Attempted]
              /\ count_attempts (skeleton added) = S k
              /\ count_sleeps (skeleton added) = k).
  { intros s' Hend r ->. destruct (ended_counts _ _ _ Hend) as (added & ? & ? & ? & ? & ?).
    exists s', added. unfold rounds. repeat split; auto; lia. }
  destruct op as [|obj|obj|obj|obj]; cbn [perform fails_at succeeds_at present] in *.
  - destruct (List_loop_recovers strongEtag s e Hbound k Hk) as (s0 & s1 & _ & _ & HL & Hend);
      [intros; now apply Hfail|exact Hok|].
    eapply Hgoal; [apply (ended_quiet _ _ _ [EvLog "Listing bucket finished" None] Hend);
                   reflexivity|exact HL].
  - destruct Hpresent as [Hc Hkey]. unfold PutObject, bind, self.
    destruct (Content obj) as [content|]; [|congruence].
    destruct (Key obj) as [key|]; [|congruence].
    edestruct (PutObject_loop_recovers s e Hbound k Hk) as (s1 & HP & Hend);
      [intros; now apply Hfail|apply Hok|].
    eapply Hgoal; [exact Hend|exact HP].
  - destruct (GetObjectContent_loop_recovers strongEtag s e Hbound k Hk
                (object_ref (this s) obj) obj)
      as (result & s1 & _ & HG & Hend);
      [intros j Hj; apply (Hfail j Hj)|apply Hok|apply Hok|].
    eapply Hgoal; [exact Hend|]. eapply perform_snd. exact HG.
  - destruct (GetObjectMeta_loop_recovers strongEtag s e Hbound k Hk
                (object_ref (this s) obj) obj)
      as (result & s1 & _ & HG & Hend);
      [intros j Hj; apply (Hfail j Hj)|apply Hok|].
    eapply Hgoal; [exact Hend|]. eapply perform_snd. exact HG.
  - destruct (DeleteObject_loop_recovers s e Hbound k Hk (object_ref (this s) obj))
      as (s1 & HD & Hend); [intros j Hj; apply (Hfail j Hj)|apply Hok|].
    eapply Hgoal; [exact Hend|exact HD].
Qed.

(** A content fetch with three retries against a store whose first two
    answers break off in the body. *)
Lemma retry_succeeds_after_failures_witness :
  uint_retryCnt (Demo.start 2 3)
  /\ exists s' added,
       perform Demo.etag Demo.join (OpGetObjectContent Demo.obj) (Demo.start 2 3)
       = Done None s'
       /\ clock s' = 3
       /\ 3 <= rounds (this (Demo.start 2 3))
       /\ trace s' = added
       /\ skeleton added = [Attempted; Slept 10%Z; Attempted; Slept 10%Z; Attempted]
       /\ count_attempts (skeleton added) = 3
       /\ count_sleeps (skeleton added) = 2.
Proof.
  assert (Hb : uint_retryCnt (Demo.start 2 3)) by reflexivity.
  split; [exact Hb|].
  apply (retry_succeeds_after_failures Demo.etag Demo.join (OpGetObjectContent Demo.obj)
           (Demo.start 2 3) Demo.boom 2 Hb).
  - exact I.
  - cbn. lia.
  - intros j Hj input.
    destruct j as [|[|j]]; [split; reflexivity..|lia].
  - intros input. split; reflexivity.
Defined.

(** C4: whatever the operation and the retry count, when the wrapped remote
    call fails on every attempt, the operation returns the error of attempt
    [retryCnt + 1] as it is, after [retryCnt + 1] attempts, each but the last
    followed by one sleep of [retryInterval]: [retryCnt] sleeps,
    [retryCnt * retryInterval] in all. *)
Theorem retry_exhausted_returns_last_error
    (strongEtag : option string -> option string)
    (filepath_Join : string -> string -> string)
    (op : Operation) (s : State) (e : nat -> error) :
  uint_retryCnt s ->
  present op ->
  (forall j, j <= N.to_nat (retryCnt (this s)) ->
     fails_at (awsSvc (this s)) op (clock s + j) (e j)) ->
  exists s' added,
    perform strongEtag filepath_Join op s
    = Done (Some (e (N.to_nat (retryCnt (this s))))) s'
    /\ clock s' = clock s + rounds (this s)
    /\ trace s' = trace s ++ added
    /\ skeleton added
       = failed_rounds (N.to_nat (retryCnt (this s))) (retryInterval (this s)) ++ [Attempted]
    /\ count_attempts (skeleton added) = rounds (this s)
    /\ count_sleeps (skeleton added) = N.to_nat (retryCnt (this s))
    /\ slept (skeleton added) = (Z.of_N (retryCnt (this s)) * retryInterval (this s))%Z.
Proof.
  intros Hbound Hpresent Hfail.
  set (cnt := N.to_nat (retryCnt (this s))) in *.
  assert (Hgoal : forall s', ended s cnt s' ->
            forall r : Outcome (option error), r = Done (Some (e cnt)) s' ->
            exists s' added,
              r = Done (Some (e cnt)) s'
              /\ clock s' = clock s + rounds (this s)
              /\ trace s' = trace s ++ added
              /\ skeleton added = failed_rounds cnt (retryInterval (this s)) ++ [Attempted]
              /\ count_attempts (skeleton added) = rounds (this s)
              /\ count_sleeps (skeleton added) = cnt
              /\ slept (skeleton added) = (Z.of_N (retryCnt (this s)) * retryInterval (this s))%Z).
  { intros s' Hend r ->. destruct (ended_counts _ _ _ Hend) as (added & ? & ? & Hsk & ? & ?).
    exists s', added. unfold rounds. fold cnt. repeat split; auto.
    rewrite Hsk, slept_failed_rounds. unfold cnt. now rewrite N_nat_Z. }
  destruct op as [|obj|obj|obj|obj]; cbn [perform fails_at present] in *.
  - destruct (List_loop_gives_up strongEtag s e Hbound) as (s1 & HL & Hend);
      [intros; now apply Hfail|].
    eapply Hgoal; [|exact HL]. apply ended_quiet; [exact Hend|reflexivity].
  - destruct Hpresent as [Hc Hkey]. unfold PutObject, bind, self.
    destruct (Content obj) as [content|]; [|congruence].
    destruct (Key obj) as [key|]; [|congruence].
    edestruct (PutObject_loop_gives_up s e Hbound) as (s1 & HP & Hend);
      [intros; now apply Hfail|].
    eapply Hgoal; [exact Hend|exact HP].
  - destruct (GetObjectContent_loop_gives_up strongEtag s e Hbound
                (object_ref (this s) obj) obj) as (s1 & HG & Hend);
      [intros j Hj; apply (Hfail j Hj)|].
    eapply Hgoal; [exact Hend|]. eapply perform_snd. exact HG.
  - destruct (GetObjectMeta_loop_gives_up strongEtag s e Hbound
                (object_ref (this s) obj) obj) as (s1 & HG & Hend);
      [intros j Hj; apply (Hfail j Hj)|].
    eapply Hgoal; [exact Hend|]. eapply perform_snd. exact HG.
  - destruct (DeleteObject_loop_gives_up s e Hbound (object_ref (this s) obj))
      as (s1 & HD & Hend); [intros j Hj; apply (Hfail j Hj)|].
    eapply Hgoal; [exact Hend|exact HD].
Qed.

(** A delete with two retries against a store that fails its first five
    calls: the error is the third call's. *)
Lemma retry_exhausted_returns_last_error_witness :
  uint_retryCnt (Demo.start 5 2)
  /\ exists s' added,
       perform Demo.etag Demo.join (OpDeleteObject Demo.obj) (Demo.start 5 2)
       = Done (Some (Demo.boom 2)) s'
       /\ clock s' = 3
       /\ trace s' = added
       /\ skeleton added = [Attempted; Slept 10%Z; Attempted; Slept 10%Z; Attempted]
       /\ count_attempts (skeleton added) = 3
       /\ count_sleeps (skeleton added) = 2
       /\ slept (skeleton added) = 20%Z.
Proof.
  assert (Hb : uint_retryCnt (Demo.start 5 2)) by reflexivity.
  split; [exact Hb|].
  apply (retry_exhausted_returns_last_error Demo.etag Demo.join (OpDeleteObject Demo.obj)
           (Demo.start 5 2) Demo.boom Hb).
  - exact I.
  - intros j Hj input. cbn in Hj.
    destruct j as [|[|[|j]]]; [reflexivity..|lia].
Defined.

(** ** The loops return *)

(** [retryCnt + 1] rounds of fuel are enough whenever a round returns and
    leaves [retryCnt] alone: [Q] holds of the loop's outcome if it holds of
    every way a round can end. *)
Lemma retry_terminates {A R : Type} (attempt : M (Attempt A R))
    (giveup : error -> M R) (finish : A -> M R) (s : State) (Q : Outcome R -> Prop) :
  uint_retryCnt s ->
  (forall s1, match attempt s1 with
              | Done r s' =>
                  retryCnt (this s') = retryCnt (this s1)
                  /\ match r with
                     | Failed _ e _ => Q (giveup e s')
                     | Succeeded a => Q (finish a s')
                     end
              | Panic s' => Q (Panic s')
              | OutOfFuel => False
              end) ->
  Q (retry (rounds (this s)) attempt giveup finish 0%N s).
Proof.
  intros Hbound Hround.
  apply (retry_rule attempt giveup finish (retryCnt (this s))
           (fun _ s1 => retryCnt (this s1) = retryCnt (this s)) Q);
    [exact Hbound| |lia|reflexivity|unfold rounds; lia].
  intros i s1 Hi Hcnt. specialize (Hround s1).
  destruct (attempt s1) as [[msg e beyond|a] s'| |]; try tauto.
  destruct Hround as [Hsame HQ]. split; [congruence|]. split; [|auto].
  intros _. cbn. congruence.
Qed.

Lemma PutObject_loop_returns (input : PutObjectInput) (s : State) :
  uint_retryCnt s -> returns (PutObject_loop (rounds (this s)) input 0%N s).
Proof.
  intros Hbound. rewrite PutObject_loop_retry_0. apply retry_terminates; [exact Hbound|].
  intros s1. rewrite put_round_spec. split; [reflexivity|].
  destruct (putErr _); unfold returns, ret; eauto.
Qed.

Lemma PutObject_returns (filepath_Join : string -> string -> string)
    (obj : Object) (s : State) :
  uint_retryCnt s -> present (OpPutObject obj) -> returns (PutObject filepath_Join obj s).
Proof.
  intros Hbound [Hc Hk]. unfold PutObject, bind, self.
  destruct (Content obj); [|congruence]. destruct (Key obj); [|congruence].
  now apply PutObject_loop_returns.
Qed.

Lemma DeleteObject_returns (obj : Object) (s : State) :
  uint_retryCnt s -> returns (DeleteObject obj s).
Proof.
  intros Hbound. unfold DeleteObject, bind, self. rewrite DeleteObject_loop_retry.
  apply retry_terminates; [exact Hbound|].
  intros s1. rewrite delete_round_spec. split; [reflexivity|].
  destruct (svcDeleteObject _ _ _); unfold returns, ret; eauto.
Qed.

Section Returns.
Variable strongEtag : option string -> option string.

Lemma GetObjectMeta_returns (obj : Object) (s : State) :
  uint_retryCnt s -> returns (GetObjectMeta strongEtag obj s).
Proof.
  intros Hbound. unfold GetObjectMeta, bind, self. rewrite GetObjectMeta_loop_retry.
  apply retry_terminates; [exact Hbound|].
  intros s1. rewrite head_round_spec. split; [reflexivity|].
  destruct (svcHeadObject _ _ _); unfold returns, ret; eauto.
Qed.

Lemma List_returns (s : State) :
  uint_retryCnt s -> returns (List strongEtag s).
Proof.
  intros Hbound. unfold List, bind, self. rewrite List_loop_retry.
  apply retry_terminates; [exact Hbound|].
  intros s1. rewrite list_round_spec. cbn zeta. split.
  - cbn [this]. destruct (same_client_retry _ _
      (client_after_same (run_pages (svcListObjectVersions (awsSvc (this s1)) (clock s1)
                                       (list_input (this s1)))) (this s1))) as (_ & <- & _).
    reflexivity.
  - destruct (run_error _); unfold returns; go_unfold; eexists _, _; reflexivity.
Qed.

(** A content fetch returns or panics (when the buffer for the declared
    length is not made); it never runs out of rounds, and the branch that
    would hand a nil body to [io.Copy] is not taken. *)
Lemma GetObjectContent_returns (obj : Object) (s : State) :
  uint_retryCnt s ->
  GetObjectContent strongEtag obj s <> OutOfFuel
  /\ ((forall n input, sized (awsSvc (this s)) n (svcGetObject (awsSvc (this s)) n input)) ->
      returns (GetObjectContent strongEtag obj s)).
Proof.
  intros Hbound. unfold GetObjectContent, bind, self. rewrite GetObjectContent_loop_retry.
  split.
  - apply (retry_terminates _ _ _ s (fun o => o <> OutOfFuel)); [exact Hbound|].
    intros s1.
    destruct (svcGetObject (awsSvc (this s1)) (clock s1) (object_ref (this s) obj))
      as [e|result] eqn:E.
    + rewrite get_round_spec by (rewrite E; exact I). rewrite E.
      split; [reflexivity|discriminate].
    + destruct (makes (awsSvc (this s1)) (S (clock s1))
                  (Int64Value (goContentLength result))) eqn:Hmake.
      * rewrite get_round_spec by (rewrite E; exact Hmake). rewrite E.
        destruct (failure (goBody result)); (split; [reflexivity|discriminate]).
      * unfold get_round, GetObjectWithContext, bind, self, tick, emit, ret.
        cbn [this clock]. rewrite E. unfold NewBuffer.
        cbn [this clock]. rewrite Hmake. discriminate.
  - intros Hsized.
    apply (retry_rule _ _ _ (retryCnt (this s))
             (fun _ s1 => this s1 = this s) returns);
      [exact Hbound| |lia|reflexivity|unfold rounds; lia].
    intros i s1 Hi Hthis. rewrite get_round_spec by (rewrite Hthis; apply Hsized).
    destruct (svcGetObject _ _ _) as [e|result].
    + rewrite Hthis. split; [reflexivity|]. split; [intros _; reflexivity|].
      intros _. unfold returns, ret. eauto.
    + destruct (failure (goBody result)).
      * rewrite Hthis. split; [reflexivity|]. split; [intros _; reflexivity|].
        intros _. unfold returns, ret. eauto.
      * unfold returns, ret. eauto.
Qed.

End Returns.

(** ** PutObject and its pointers *)

(** C9: [PutObject] dereferences [obj.Content] and [obj.Key] before any
    remote call.  When either is nil the call panics in the state it was
    entered in (no request, no error returned); when both are there it
    returns. *)
Theorem PutObject_needs_Content_and_Key
    (filepath_Join : string -> string -> string) (obj : Object) (s : State) :
  uint_retryCnt s ->
  ((Content obj = None \/ Key obj = None) -> PutObject filepath_Join obj s = Panic s)
  /\ ((Content obj <> None /\ Key obj <> None) -> returns (PutObject filepath_Join obj s)).
Proof.
  intros Hbound. split.
  - intros Hnil. unfold PutObject, bind, self.
    destruct (Content obj) as [content|]; [|reflexivity].
    destruct (Key obj) as [key|]; [|reflexivity].
    destruct Hnil; discriminate.
  - intros Hpresent. now apply PutObject_returns.
Qed.

Lemma PutObject_needs_Content_and_Key_witness :
  uint_retryCnt (Demo.start 0 1)
  /\ PutObject Demo.join (mkObject (Some "k"%string) None None None None None
                            None None None None None [] None) (Demo.start 0 1)
     = Panic (Demo.start 0 1)
  /\ returns (PutObject Demo.join Demo.obj (Demo.start 0 1)).
Proof.
  assert (Hb : uint_retryCnt (Demo.start 0 1)) by reflexivity.
  split; [exact Hb|]. split.
  - apply (PutObject_needs_Content_and_Key Demo.join _ (Demo.start 0 1) Hb).
    left. reflexivity.
  - apply (PutObject_needs_Content_and_Key Demo.join Demo.obj (Demo.start 0 1) Hb).
    split; discriminate.
Defined.

(** ** GetObjectMeta and the fields it leaves alone *)

(** C7: a call of [GetObjectMeta] that returns leaves [Content], [Key],
    [VersionId] and [IsLatest] of the object as they were, whatever error it
    returns; when it returns nil, the eight metadata fields are those of the
    answer to its last request ([ETag] through [strongEtag]). *)
Theorem GetObjectMeta_frame
    (strongEtag : option string -> option string)
    (obj obj' : Object) (err : option error) (s s' : State) :
  uint_retryCnt s ->
  GetObjectMeta strongEtag obj s = Done (obj', err) s' ->
  Content obj' = Content obj
  /\ Key obj' = Key obj
  /\ VersionId obj' = VersionId obj
  /\ IsLatest obj' = IsLatest obj
  /\ (err = None ->
      exists result,
        svcHeadObject (awsSvc (this s)) (clock s' - 1) (object_ref (this s) obj) = inr result
        /\ ContentType obj' = hoContentType result
        /\ ContentDisposition obj' = hoContentDisposition result
        /\ ContentEncoding obj' = hoContentEncoding result
        /\ ContentLanguage obj' = hoContentLanguage result
        /\ ETag obj' = strongEtag (hoETag result)
        /\ Metadata obj' = hoMetadata result
        /\ Mtime obj' = hoLastModified result
        /\ CacheControl obj' = hoCacheControl result).
Proof.
  intros Hbound. unfold GetObjectMeta, bind, self. rewrite GetObjectMeta_loop_retry.
  set (input := object_ref (this s) obj).
  revert obj' err s'.
  apply (retry_rule (head_round strongEtag input obj) _ _ (retryCnt (this s))
           (fun _ s1 => this s1 = this s)
           (fun o => forall obj' err s', o = Done (obj', err) s' -> _));
    [exact Hbound| |lia|reflexivity|unfold rounds; lia].
  intros i s1 Hi Hthis. rewrite head_round_spec, Hthis.
  destruct (svcHeadObject (awsSvc (this s)) (clock s1) input) as [e|result] eqn:E.
  - split; [reflexivity|]. split; [intros _; reflexivity|].
    intros _ obj' err s' [= <- <- <-]. repeat split; discriminate.
  - intros obj' err s' [= <- <- <-]. repeat split.
    intros _. exists result. cbn [clock]. replace (S (clock s1) - 1) with (clock s1) by lia.
    repeat split. exact E.
Qed.

Lemma GetObjectMeta_frame_witness :
  uint_retryCnt (Demo.start 1 2)
  /\ exists obj' s',
       GetObjectMeta Demo.etag Demo.obj (Demo.start 1 2) = Done (obj', None) s'
       /\ Content obj' = Some [x0a; x0b; x0c]
       /\ Key obj' = Some "k"%string
       /\ ContentType obj' = Some "text/plain"%string.
Proof.
  assert (Hb : uint_retryCnt (Demo.start 1 2)) by reflexivity.
  split; [exact Hb|].
  eexists _, _. split; [vm_compute; reflexivity|].
  match goal with
  | |- Content ?o = _ /\ _ =>
      destruct (GetObjectMeta_frame Demo.etag Demo.obj o None (Demo.start 1 2) _ Hb eq_refl)
        as (Hc & Hk & _ & _ & Hmeta)
  end.
  destruct (Hmeta eq_refl) as (result & Hres & Hct & _).
  rewrite Hc, Hk, Hct. injection Hres as <-. repeat split.
Defined.

(** ** Keys: percent-decoding *)

Module url_facts.
Import url.

Lemma hex_round_trip (c : ascii) :
  ascii_of_N (N.lor (N.shiftl (unhex (upperhex (N.shiftr (N_of_ascii c) 4))) 4)
                    (unhex (upperhex (N.land (N_of_ascii c) 15)))) = c.
Proof. destruct c as [[] [] [] [] [] [] [] []]; reflexivity. Qed.

Lemma ishex_upperhex (c : ascii) :
  ishex (upperhex (N.shiftr (N_of_ascii c) 4))
  && ishex (upperhex (N.land (N_of_ascii c) 15)) = true.
Proof. destruct c as [[] [] [] [] [] [] [] []]; reflexivity. Qed.

Lemma build_escape (c : ascii) (rest : string) :
  unescape_build (escape_byte c ++ rest) = String c (unescape_build rest).
Proof.
  unfold escape_byte. cbn [append]. cbn [unescape_build].
  rewrite Ascii.eqb_refl. now rewrite hex_round_trip.
Qed.

Lemma scan_escape (c : ascii) (rest : string) (n : nat) (hasPlus : bool) :
  unescape_scan (escape_byte c ++ rest) n hasPlus = unescape_scan rest (S n) hasPlus.
Proof.
  unfold escape_byte. cbn [append]. cbn [unescape_scan].
  rewrite Ascii.eqb_refl. now rewrite ishex_upperhex.
Qed.

Section Encoded.
Variable literal : ascii -> bool.
Variable spacePlus : bool.
Hypothesis literal_pct : literal pct = false.
Hypothesis literal_plus : literal plus = false.

Lemma literal_plain (c : ascii) :
  literal c = true -> Ascii.eqb c pct = false /\ Ascii.eqb c plus = false.
Proof.
  intros Hc. split; apply Ascii.eqb_neq; intros ->; congruence.
Qed.

Lemma build_encoded (s : string) :
  unescape_build (store_encode literal spacePlus s) = s.
Proof.
  induction s as [|c rest IH]; [reflexivity|].
  cbn [store_encode]. unfold encode_byte.
  destruct (literal c) eqn:Hlit.
  - destruct (literal_plain c Hlit) as [Hp Hq]. cbn. now rewrite Hp, Hq, IH.
  - destruct (spacePlus && Ascii.eqb c space) eqn:Hsp.
    + apply andb_true_iff in Hsp as [_ Hsp]. apply Ascii.eqb_eq in Hsp. subst c.
      cbn. now rewrite IH.
    + now rewrite build_escape, IH.
Qed.

(** The scan accepts an encoded key; when it has met neither an escape nor
    a '+', the key was sent as it is. *)
Lemma scan_encoded (s : string) (n : nat) (hasPlus : bool) :
  exists n' hasPlus',
    unescape_scan (store_encode literal spacePlus s) n hasPlus = inr (n', hasPlus')
    /\ n <= n'
    /\ (hasPlus = true -> hasPlus' = true)
    /\ (n' = n -> hasPlus' = false -> store_encode literal spacePlus s = s).
Proof.
  revert n hasPlus; induction s as [|c rest IH]; intros n hasPlus.
  - exists n, hasPlus. cbn. auto.
  - cbn [store_encode]. unfold encode_byte.
    destruct (literal c) eqn:Hlit.
    + destruct (literal_plain c Hlit) as [Hp Hq].
      destruct (IH n hasPlus) as (n' & hp' & Hscan & Hle & Hmono & Hsame).
      exists n', hp'. cbn. rewrite Hp, Hq. repeat split; auto.
      intros Hn Hh. now rewrite Hsame.
    + destruct (spacePlus && Ascii.eqb c space) eqn:Hsp.
      * destruct (IH n true) as (n' & hp' & Hscan & Hle & Hmono & Hsame).
        exists n', hp'. cbn. repeat split; auto.
        intros _ Hh. rewrite Hmono in Hh by reflexivity. discriminate.
      * destruct (IH (S n) hasPlus) as (n' & hp' & Hscan & Hle & Hmono & Hsame).
        exists n', hp'. rewrite scan_escape. repeat split; auto; lia.
Qed.

Lemma QueryUnescape_encoded (s : string) :
  QueryUnescape (store_encode literal spacePlus s) = (s, None).
Proof.
  unfold QueryUnescape.
  destruct (scan_encoded s 0 false) as (n' & hp' & -> & _ & _ & Hsame).
  destruct (Nat.eqb_spec n' 0) as [->|Hn]; cbn [andb].
  - destruct hp'; cbn [negb]; [now rewrite build_encoded|].
    now rewrite Hsame.
  - now rewrite build_encoded.
Qed.

End Encoded.
End url_facts.

Lemma sent_app (a b : list Event) : sent (a ++ b) = sent a ++ sent b.
Proof. apply flat_map_app. Qed.

Lemma sent_sends (os : list Object) : sent (map EvSend os) = os.
Proof. induction os as [|o os IH]; [reflexivity|]. cbn. now rewrite <- IH at 2. Qed.

(** C5: the store sends every byte of a key either as it is, or as '+' for
    a space, or as '%' and two hex digits, and does the latter for '%' and
    '+' at least.  Then [url.QueryUnescape] gives back the key byte for byte
    with no error, and the objects [List]'s callback sends for a page carry
    the original keys, in order. *)
Theorem key_round_trip
    (literal : ascii -> bool) (spacePlus : bool)
    (strongEtag : option string -> option string)
    (keys : list string) (p : ListObjectVersionsOutput) (lastPage : bool) (s : State) :
  literal url.pct = false ->
  literal url.plus = false ->
  map ovKey (Versions p) = map (fun key => Some (url.store_encode literal spacePlus key)) keys ->
  (forall key, url.QueryUnescape (url.store_encode literal spacePlus key) = (key, None))
  /\ exists s',
       listObjectsFn strongEtag p lastPage s = Done (negb lastPage) s'
       /\ map Key (sent (trace s')) = map Key (sent (trace s)) ++ map Some keys.
Proof.
  intros Hpct Hplus Hkeys. split.
  - intros key. now apply url_facts.QueryUnescape_encoded.
  - eexists. split; [apply listObjectsFn_spec|].
    cbn [trace]. rewrite sent_app, sent_sends, map_app. f_equal.
    unfold page_objects. rewrite map_map.
    revert keys Hkeys. induction (Versions p) as [|o vs IH]; intros [|key keys] Hkeys;
      try discriminate; [reflexivity|].
    injection Hkeys as Hkey Hrest. cbn [map]. f_equal; [|now apply IH].
    cbn [listed_object Key]. rewrite Hkey. cbn [StringValue].
    now rewrite url_facts.QueryUnescape_encoded.
Qed.

(** ** Traces of List *)

Lemma at_each_nil (G : list Event -> Event -> Prop) : at_each G [].
Proof. intros [|x pre] ev post H; discriminate. Qed.

Lemma at_each_cons (G : list Event -> Event -> Prop) (x : Event) (tr : list Event) :
  G [] x -> at_each (fun pre ev => G (x :: pre) ev) tr -> at_each G (x :: tr).
Proof.
  intros Hx Htr [|y pre] ev post H; injection H as <- H; [subst; exact Hx|].
  eapply Htr. exact H.
Qed.

Lemma at_each_tail (G : list Event -> Event -> Prop) (x : Event) (tr : list Event) :
  at_each G (x :: tr) -> G [] x /\ at_each (fun pre ev => G (x :: pre) ev) tr.
Proof.
  intros H. split.
  - apply (H [] x tr). reflexivity.
  - intros pre ev post ->. apply (H (x :: pre) ev post). reflexivity.
Qed.

Lemma at_each_app (G : list Event -> Event -> Prop) (a b : list Event) :
  at_each G a -> at_each (fun pre ev => G (a ++ pre) ev) b -> at_each G (a ++ b).
Proof.
  revert G; induction a as [|x a IH]; intros G Ha Hb; [exact Hb|].
  apply at_each_tail in Ha as [Hx Ha]. cbn [app].
  apply at_each_cons; [exact Hx|]. apply IH; [exact Ha|exact Hb].
Qed.

Lemma at_each_all (G : list Event -> Event -> Prop) (tr : list Event) :
  (forall pre ev, In ev tr -> G pre ev) -> at_each G tr.
Proof.
  intros H pre ev post ->. apply H. apply in_or_app. right. left. reflexivity.
Qed.

Lemma received_app (a b : list Event) : received (a ++ b) = received a ++ received b.
Proof. apply flat_map_app. Qed.

Lemma received_sends (os : list Object) : received (map EvSend os) = [].
Proof. induction os; [reflexivity|assumption]. Qed.

Lemma cursor_after_app (a b : list ListObjectVersionsOutput) (m : option string) :
  cursor_after (a ++ b) m = cursor_after b (cursor_after a m).
Proof. apply fold_left_app. Qed.

Lemma listMarker_client_after (ps : list ListObjectVersionsOutput) (st : S3vStorage) :
  listMarker (client_after ps st) = cursor_after ps (listMarker st).
Proof.
  revert st; induction ps as [|p ps IH]; intros st; [reflexivity|].
  cbn. now rewrite IH.
Qed.

Section ListTraces.
Variable strongEtag : option string -> option string.

Lemma received_run_events (run : PagingRun) (req : ListObjectVersionsInput) :
  received (run_events strongEtag run req) = run_pages run.
Proof.
  revert req; induction run as [e|p|p rest IH]; intros req; cbn.
  - reflexivity.
  - now rewrite received_sends.
  - now rewrite received_app, received_sends, IH.
Qed.

Lemma sent_run_events (run : PagingRun) (req : ListObjectVersionsInput) :
  sent (run_events strongEtag run req) = flat_map (page_objects strongEtag) (run_pages run).
Proof.
  revert req; induction run as [e|p|p rest IH]; intros req; cbn.
  - reflexivity.
  - now rewrite sent_sends, app_nil_r.
  - now rewrite sent_app, sent_sends, IH.
Qed.

Lemma run_events_kinds (run : PagingRun) (req : ListObjectVersionsInput) (ev : Event) :
  In ev (run_events strongEtag run req) ->
  match ev with EvPageRequest _ | EvPage _ | EvSend _ => True | _ => False end.
Proof.
  revert req; induction run as [e|p|p rest IH]; intros req; cbn.
  - intros [<-|[]]. exact I.
  - intros [<-|[<-|Hin]]; try exact I.
    apply in_map_iff in Hin as (o & <- & _). exact I.
  - intros [<-|[<-|Hin]]; try exact I.
    apply in_app_or in Hin as [Hin|Hin]; [|now apply IH in Hin].
    apply in_map_iff in Hin as (o & <- & _). exact I.
Qed.

(** An invariant of the trace [List] adds: it holds of the empty trace, it
    survives a round (a paging call and what the callback does with its
    pages) and it survives log lines and sleeps. *)
Lemma List_trace_invariant (s : State) (P : list Event -> S3vStorage -> Prop) :
  uint_retryCnt s ->
  P [] (this s) ->
  (forall tr st c, same_client (this s) st -> P tr st ->
     P (tr ++ EvListVersionsPages (list_input st)
           :: run_events strongEtag
                (svcListObjectVersions (awsSvc (this s)) c (list_input st)) (list_input st))
       (client_after (run_pages (svcListObjectVersions (awsSvc (this s)) c (list_input st)))
          st)) ->
  (forall tr st ev, quiet ev -> P tr st -> P (tr ++ [ev]) st) ->
  exists r s' added,
    List strongEtag s = Done r s' /\ trace s' = trace s ++ added /\ P added (this s').
Proof.
  intros Hbound Hbase Hround Hquiet.
  unfold List, bind, self. rewrite List_loop_retry.
  pose (Inv := fun s1 : State =>
          same_client (this s) (this s1)
          /\ exists added, trace s1 = trace s ++ added /\ P added (this s1)).
  assert (Hq : forall s1 ev, quiet ev -> Inv s1 -> Inv (with_trace s1 [ev])).
  { intros s1 ev Hev (Hc & added & Htr & HP). split; [exact Hc|].
    exists (added ++ [ev]). split; [cbn; now rewrite Htr, app_assoc|].
    now apply Hquiet. }
  apply (retry_rule (list_round strongEtag) _ _ (retryCnt (this s))
           (fun _ s1 => Inv s1)
           (fun o => exists r s' added,
                       o = Done r s' /\ trace s' = trace s ++ added /\ P added (this s')));
    [exact Hbound| |lia| |unfold rounds; lia].
  - intros i s1 Hi (Hc & added & Htr & HP).
    rewrite list_round_spec. cbn zeta.
    destruct (same_client_retry _ _ Hc) as (Hsvc & Hcnt & _).
    set (input := list_input (this s1)).
    set (run := svcListObjectVersions (awsSvc (this s1)) (clock s1) input).
    assert (Hinv' : Inv {| this := client_after (run_pages run) (this s1);
                           clock := S (clock s1);
                           trace := trace s1 ++ EvListVersionsPages input
                                    :: run_events strongEtag run input |}).
    { split; [eapply same_client_trans; [exact Hc|apply client_after_same]|].
      eexists. split; [cbn; rewrite Htr, <- app_assoc; reflexivity|].
      unfold run. rewrite <- Hsvc. apply Hround; assumption. }
    destruct (run_error run) as [e|].
    + destruct Hinv' as (Hc' & Hadd').
      destruct (same_client_retry _ _ Hc') as (_ & Hcnt' & _).
      split; [exact (eq_sym Hcnt')|]. split.
      * intros _.
        match goal with
        | |- context [after_sleep ?msg ?e ?s2] =>
            change (Inv (with_trace (with_trace s2 [EvLog msg (Some e)])
                           [EvSleep (retryInterval (this s2))]))
        end.
        apply (Hq _ (EvSleep _) I). apply (Hq _ (EvLog _ _) I).
        split; assumption.
      * intros _. destruct (Hq _ (EvLog "S3 listing failed with error: %s" (Some e)) I
                              (conj Hc' Hadd')) as (_ & added' & Htr' & HP').
        eexists _, _, added'. split; [reflexivity|]. split; assumption.
    + destruct (Hq _ (EvLog "Listing bucket finished" None) I Hinv')
        as (_ & added' & Htr' & HP').
      eexists _, _, added'. split; [reflexivity|]. split; assumption.
  - split; [apply same_client_refl|]. exists []. split; [now rewrite app_nil_r|exact Hbase].
Qed.

End ListTraces.

Lemma received_quiet (ev : Event) : quiet ev -> received [ev] = [].
Proof. destruct ev; cbn; tauto. Qed.

Lemma sent_quiet (ev : Event) : quiet ev -> sent [ev] = [].
Proof. destruct ev; cbn; tauto. Qed.

(** C1, as the spec reads: false.  The first paging call of the listing
    below fails when its first page has been handled; that page names no
    marker, so the retried call carries none and lists from the beginning
    again. *)
Lemma List_retry_restarts_from_beginning :
  ~ retry_resumes_past_start Demo.etag Restart.start.
Proof.
  intros H.
  assert (exists r s', List Demo.etag Restart.start = Done r s')
    as (r & s' & E) by (eexists _, _; vm_compute; reflexivity).
  destruct (H Restart.first_page [] (Demo.boom 0) r s' eq_refl eq_refl eq_refl E)
    as (first & second & rest & Hcalls & Hmarker).
  vm_compute in E. injection E as <- <-. vm_compute in Hcalls.
  injection Hcalls as <- <- <-. now apply Hmarker.
Qed.

(** C1, amended: in every call of [List], each paging call, the first one
    and every retried one, carries as its version-id marker the
    [VersionIdMarker] field of the last page handled before it in this call
    (the client's cursor at entry when there is none) and no key marker;
    the cursor the call leaves behind is that field of the last page
    handled.  Where the retried call resumes is then what the store wrote
    into that field: at the beginning of the listing when the field is nil.
    Within a paging call the callback has stored a page's field when the
    next page is requested. *)
Theorem List_resumes_from_cursor
    (strongEtag : option string -> option string) (s : State) :
  uint_retryCnt s ->
  (exists r s' added,
     List strongEtag s = Done r s'
     /\ trace s' = trace s ++ added
     /\ at_each (resumes_from (listMarker (this s))) added
     /\ listMarker (this s') = cursor_after (received added) (listMarker (this s))
     /\ Forall (fun input => liKeyMarker input = None) (paging_calls added))
  /\ (forall p rest req s0, exists s1,
        request_pages (RunMore p rest) req (listObjectsFn strongEtag) s0
        = request_pages rest (next_request req p) (listObjectsFn strongEtag) s1
        /\ listMarker (this s1) = VersionIdMarker p).
Proof.
  intros Hbound. split.
  - set (m0 := listMarker (this s)).
    assert (Hcalls : forall tr : list Event,
               (forall ev input, In ev tr -> ev <> EvListVersionsPages input) ->
               paging_calls tr = []).
    { induction tr as [|ev tr IH]; intros Hno; [reflexivity|].
      cbn [paging_calls flat_map]. fold (paging_calls tr).
      rewrite IH by (intros ev' input Hin; apply Hno; now right).
      destruct ev; try reflexivity. now destruct (Hno _ input (or_introl eq_refl)). }
    destruct (List_trace_invariant strongEtag s
                (fun tr st => listMarker st = cursor_after (received tr) m0
                              /\ at_each (resumes_from m0) tr
                              /\ Forall (fun input => liKeyMarker input = None)
                                   (paging_calls tr)) Hbound)
      as (r & s' & added & HL & Htr & Hm & Hat & Hkey).
    + split; [reflexivity|]. split; [apply at_each_nil|constructor].
    + intros tr st c _ (Hm & Hat & Hkey). split; [|split].
      * rewrite listMarker_client_after, received_app. cbn [received flat_map page_of app].
        fold (received (run_events strongEtag
                          (svcListObjectVersions (awsSvc (this s)) c (list_input st))
                          (list_input st))).
        now rewrite received_run_events, cursor_after_app, Hm.
      * apply at_each_app; [exact Hat|]. apply at_each_cons.
        -- intros input [= <-]. now rewrite app_nil_r.
        -- apply at_each_all. intros pre ev Hin input ->.
           now apply run_events_kinds in Hin.
      * unfold paging_calls. rewrite flat_map_app. apply Forall_app. split; [exact Hkey|].
        cbn [flat_map paging_call_of app]. constructor; [reflexivity|].
        fold (paging_calls (run_events strongEtag
                              (svcListObjectVersions (awsSvc (this s)) c (list_input st))
                              (list_input st))).
        rewrite Hcalls; [constructor|].
        intros ev input Hin ->. now apply run_events_kinds in Hin.
    + intros tr st ev Hev (Hm & Hat & Hkey). split; [|split].
      * now rewrite received_app, received_quiet, app_nil_r.
      * apply at_each_app; [exact Hat|]. apply at_each_cons; [|apply at_each_nil].
        intros input ->. destruct Hev.
      * unfold paging_calls. rewrite flat_map_app. apply Forall_app. split; [exact Hkey|].
        destruct ev; cbn in Hev; try contradiction; constructor.
    + exists r, s', added. auto.
  - intros p rest req s0. cbn [request_pages]. unfold bind, emit.
    rewrite listObjectsFn_spec. cbn [negb]. eexists. split; [reflexivity|]. reflexivity.
Qed.

(** A listing with three retries against a store whose first two paging
    calls fail after [page1]: the second and the third call carry the
    marker field of [page1], and none a key marker. *)
Lemma List_resumes_from_cursor_witness :
  uint_retryCnt (Demo.start 2 3)
  /\ exists r s',
       List Demo.etag (Demo.start 2 3) = Done r s'
       /\ map liVersionIdMarker (paging_calls (trace s'))
          = [None; Some "m1"%string; Some "m1"%string]
       /\ map liKeyMarker (paging_calls (trace s')) = [None; None; None]
       /\ at_each (resumes_from None) (trace s')
       /\ listMarker (this s') = Some "m2"%string.
Proof.
  assert (Hb : uint_retryCnt (Demo.start 2 3)) by reflexivity.
  split; [exact Hb|].
  destruct (List_resumes_from_cursor Demo.etag (Demo.start 2 3) Hb)
    as ((r & s' & added & HL & Htr & Hat & Hm & Hkey) & _).
  exists r, s'. cbn [trace Demo.start app] in Htr. subst added.
  split; [exact HL|].
  assert (Hrun : List Demo.etag (Demo.start 2 3) = Done r s') by exact HL.
  vm_compute in Hrun. injection Hrun as <- <-.
  split; [reflexivity|]. split; [reflexivity|]. split; [exact Hat|reflexivity].
Defined.

(** ** Pages and their records *)

Lemma at_each_ext (G G' : list Event -> Event -> Prop) (tr : list Event) :
  (forall pre ev, G pre ev -> G' pre ev) -> at_each G tr -> at_each G' tr.
Proof. intros H Hat pre ev post Heq. apply H. eapply Hat. exact Heq. Qed.

Section Serving.
Variable strongEtag : option string -> option string.

Lemma served_page (base : list Event) (req : ListObjectVersionsInput)
    (p : ListObjectVersionsOutput) :
  served strongEtag base ->
  served strongEtag
    (base ++ EvPageRequest req :: EvPage p :: map EvSend (page_objects strongEtag p)).
Proof.
  unfold served. intros Hbase.
  rewrite sent_app, received_app, flat_map_app, Hbase. f_equal.
  cbn. now rewrite sent_sends, received_sends, app_nil_r.
Qed.

Lemma run_events_served (run : PagingRun) (req : ListObjectVersionsInput)
    (base : list Event) :
  served strongEtag base ->
  served strongEtag (base ++ run_events strongEtag run req)
  /\ at_each (fun pre ev => served_before_request strongEtag (base ++ pre) ev)
             (run_events strongEtag run req).
Proof.
  revert req base; induction run as [e|p|p rest IH]; intros req base Hbase;
    cbn [run_events].
  - split.
    + unfold served in *. rewrite sent_app, received_app, Hbase. cbn.
      now rewrite !app_nil_r.
    + apply at_each_cons; [|apply at_each_nil]. intros _. now rewrite app_nil_r.
  - split; [now apply served_page|].
    apply at_each_cons; [intros _; now rewrite app_nil_r|].
    apply at_each_all. intros pre ev [<-|Hin]; [discriminate|].
    apply in_map_iff in Hin as (o & <- & _). discriminate.
  - destruct (IH (next_request req p)
                (base ++ EvPageRequest req :: EvPage p
                      :: map EvSend (page_objects strongEtag p))
                (served_page base req p Hbase)) as [Hall Hat].
    split.
    + rewrite <- app_assoc in Hall. exact Hall.
    + apply at_each_cons; [intros _; now rewrite app_nil_r|].
      apply at_each_cons; [discriminate|].
      apply at_each_app.
      * apply at_each_all. intros pre ev Hin.
        apply in_map_iff in Hin as (o & <- & _). discriminate.
      * eapply at_each_ext; [|exact Hat].
        intros pre ev H. cbn beta in H. rewrite <- app_assoc in H. exact H.
Qed.

(** In every call of [List], whenever a page is requested and when the call
    returns, every record of every page received so far has been sent. *)
Lemma List_serves (s : State) :
  uint_retryCnt s ->
  exists r s' added,
    List strongEtag s = Done r s'
    /\ trace s' = trace s ++ added
    /\ served strongEtag added
    /\ at_each (served_before_request strongEtag) added.
Proof.
  intros Hbound.
  destruct (List_trace_invariant strongEtag s
              (fun tr _ => served strongEtag tr
                           /\ at_each (served_before_request strongEtag) tr) Hbound)
    as (r & s' & added & HL & Htr & Hsv & Hat).
  - split; [reflexivity|apply at_each_nil].
  - intros tr st c _ [Hsv Hat].
    set (input := list_input st).
    set (run := svcListObjectVersions (awsSvc (this s)) c input).
    assert (Hcall : served strongEtag (tr ++ [EvListVersionsPages input])).
    { unfold served in *. rewrite sent_app, received_app, Hsv. cbn. now rewrite !app_nil_r. }
    destruct (run_events_served run input _ Hcall) as [Hall Hreq].
    rewrite <- app_assoc in Hall. split; [exact Hall|].
    apply at_each_app; [exact Hat|]. apply at_each_cons; [discriminate|].
    eapply at_each_ext; [|exact Hreq].
    intros pre ev H. cbn beta in H. rewrite <- app_assoc in H. exact H.
  - intros tr st ev Hev [Hsv Hat]. split.
    + unfold served in *. now rewrite sent_app, received_app, Hsv, sent_quiet,
        received_quiet, !app_nil_r.
    + apply at_each_app; [exact Hat|]. apply at_each_cons; [|apply at_each_nil].
      destruct ev; cbn in Hev; try contradiction; discriminate.
  - exists r, s', added. auto.
Qed.

Lemma run_events_last (run : PagingRun) (req : ListObjectVersionsInput) :
  run_error run = None ->
  exists pre p,
    run_last run = Some p
    /\ run_events strongEtag run req
       = pre ++ EvPage p :: map EvSend (page_objects strongEtag p).
Proof.
  revert req; induction run as [e|p|p rest IH]; intros req; cbn; [discriminate|..].
  - intros _. exists [EvPageRequest req], p. now split.
  - intros Hok. destruct (IH (next_request req p) Hok) as (pre & p0 & Hlast & ->).
    exists (EvPageRequest req :: EvPage p :: map EvSend (page_objects strongEtag p) ++ pre), p0.
    split; [exact Hlast|]. cbn. now rewrite <- app_assoc.
Qed.

End Serving.

Lemma key_round_trip_witness :
  url.unreserved url.pct = false
  /\ url.QueryUnescape (url.QueryEscape "a/b c%+d") = ("a/b c%+d"%string, None)
  /\ exists s',
       listObjectsFn Demo.etag
         (mkListOutput [Demo.version (url.QueryEscape "a/b c%+d") true] None None None)
         true (Demo.start 0 1)
       = Done false s'
       /\ map Key (sent (trace s')) = [Some "a/b c%+d"%string].
Proof.
  split; [reflexivity|].
  destruct (key_round_trip url.unreserved true Demo.etag ["a/b c%+d"%string]
              (mkListOutput [Demo.version (url.QueryEscape "a/b c%+d") true] None None None)
              true (Demo.start 0 1) eq_refl eq_refl eq_refl) as [Hkey Hsent].
  split; [apply Hkey|exact Hsent].
Defined.

(** C6: when some paging call of a [List] call gets through to a page with
    no successor (here: after [k] calls that failed), [List] returns nil
    from that call.  What it adds to the trace ends with that last page, the
    sends of its records and the closing log line, so nothing is requested
    after the last page; and whenever a page is requested, every record of
    every page received before has been sent, page by page and record by
    record. *)
Theorem List_stops_at_last_page
    (strongEtag : option string -> option string) (s : State) (e : nat -> error) (k : nat) :
  uint_retryCnt s ->
  (N.of_nat k <= retryCnt (this s))%N ->
  (forall j input, j < k ->
     run_error (svcListObjectVersions (awsSvc (this s)) (clock s + j) input) = Some (e j)) ->
  (forall input,
     run_error (svcListObjectVersions (awsSvc (this s)) (clock s + k) input) = None) ->
  exists s' added pre p,
    List strongEtag s = Done None s'
    /\ clock s' = clock s + S k
    /\ trace s' = trace s ++ added
    /\ (exists input,
          run_last (svcListObjectVersions (awsSvc (this s)) (clock s + k) input) = Some p)
    /\ added = pre ++ EvPage p :: map EvSend (page_objects strongEtag p)
                   ++ [EvLog "Listing bucket finished" None]
    /\ at_each (served_before_request strongEtag) added
    /\ served strongEtag added.
Proof.
  intros Hbound Hk Hfail Hok.
  destruct (List_serves strongEtag s Hbound) as (r & s' & added & HL & Htr & Hsv & Hat).
  destruct (List_loop_recovers strongEtag s e Hbound k Hk Hfail Hok)
    as (s0 & s1 & Hst & Hround & Hloop & Hend).
  unfold List, bind, self in HL. rewrite Hloop in HL. injection HL as <- <-.
  rewrite list_round_spec in Hround. cbn zeta in Hround.
  destruct (started_svc _ _ _ Hst) as [Hsvc Hclk]. rewrite Hsvc, Hclk in Hround.
  destruct (run_events_last strongEtag _ (list_input (this s0)) (Hok (list_input (this s0))))
    as (pre & p & Hlast & Hev).
  rewrite Hev, (Hok (list_input (this s0))) in Hround. injection Hround as <-.
  destruct Hst as (_ & _ & added0 & Htr0 & _).
  eexists _, added, (added0 ++ EvListVersionsPages (list_input (this s0)) :: pre), p.
  split; [unfold List, bind, self; exact Hloop|].
  split; [cbn; lia|]. split; [exact Htr|]. split; [eauto|].
  split; [|split; assumption].
  cbn [with_trace trace] in Htr. rewrite Htr0 in Htr.
  apply (app_inv_head (trace s)). rewrite <- Htr, <- !app_assoc. cbn.
  now rewrite <- !app_assoc.
Qed.

(** A listing with three retries against a store whose first two paging
    calls fail after [page1]: the third call reaches [page2], whose single
    record is the last thing sent. *)
Lemma List_stops_at_last_page_witness :
  uint_retryCnt (Demo.start 2 3)
  /\ exists s' pre,
       List Demo.etag (Demo.start 2 3) = Done None s'
       /\ clock s' = 3
       /\ trace s' = pre ++ EvPage Demo.page2
                         :: map EvSend (page_objects Demo.etag Demo.page2)
                         ++ [EvLog "Listing bucket finished" None]
       /\ length (filter is_page_request (trace s')) = 6
       /\ length (sent (trace s')) = 7.
Proof.
  assert (Hb : uint_retryCnt (Demo.start 2 3)) by reflexivity.
  split; [exact Hb|].
  destruct (List_stops_at_last_page Demo.etag (Demo.start 2 3) Demo.boom 2 Hb)
    as (s' & added & pre & p & HL & Hclk & Htr & (input & Hlast) & Hadd & _ & _).
  - cbn. lia.
  - intros j input Hj. destruct j as [|[|j]]; [reflexivity..|lia].
  - intros input. reflexivity.
  - injection Hlast as <-. cbn [trace Demo.start app] in Htr.
    exists s', pre. split; [exact HL|]. split; [exact Hclk|].
    split; [now rewrite Htr|].
    assert (Hrun : List Demo.etag (Demo.start 2 3) = Done None s') by exact HL.
    vm_compute in Hrun. injection Hrun as <-. split; reflexivity.
Defined.

Lemma QueryUnescape_error (k : string) :
  snd (url.QueryUnescape k) <> None -> fst (url.QueryUnescape k) = EmptyString.
Proof.
  unfold url.QueryUnescape. destruct (url.unescape_scan k 0 false) as [e|[n hp]];
    [reflexivity|].
  destruct ((n =? 0) && negb hp); cbn; congruence.
Qed.

(** C10: a record whose key does not decode is sent like any other, with
    the empty string for its key and its other fields as listed.  In every
    call of [List] the objects sent are those of every record of every page
    received, one for one and in order: none is skipped.  The decode error
    is dropped: when no paging call of the store fails, [List] returns nil
    whatever the keys are. *)
Theorem List_keeps_undecodable_keys
    (strongEtag : option string -> option string) (s : State) :
  uint_retryCnt s ->
  (forall o, snd (url.QueryUnescape (StringValue (ovKey o))) <> None ->
     listed_object strongEtag o
     = {| Key := Some EmptyString; VersionId := ovVersionId o;
          ETag := strongEtag (ovETag o); Mtime := ovLastModified o;
          IsLatest := ovIsLatest o; Content := None;
          ContentType := None; ContentDisposition := None;
          ContentEncoding := None; ContentLanguage := None;
          ACL := None; Metadata := []; CacheControl := None |})
  /\ exists r s' added,
       List strongEtag s = Done r s'
       /\ trace s' = trace s ++ added
       /\ sent added
          = map (listed_object strongEtag) (flat_map Versions (received added))
       /\ ((forall n input,
              run_error (svcListObjectVersions (awsSvc (this s)) n input) = None) ->
           r = None).
Proof.
  intros Hbound. split.
  - intros o Hbad. unfold listed_object. now rewrite (QueryUnescape_error _ Hbad).
  - destruct (List_serves strongEtag s Hbound) as (r & s' & added & HL & Htr & Hsv & _).
    exists r, s', added. split; [exact HL|]. split; [exact Htr|]. split.
    + rewrite Hsv. unfold page_objects.
      induction (received added) as [|p ps IH]; [reflexivity|].
      cbn. now rewrite map_app, IH.
    + intros Hok.
      destruct (List_loop_recovers strongEtag s (fun _ => EscapeError EmptyString)
                  Hbound 0) as (_ & s1 & _ & _ & Hloop & _).
      * apply N.le_0_l.
      * intros j input Hj. lia.
      * intros input. rewrite Nat.add_0_r. apply Hok.
      * unfold List, bind, self in HL. rewrite Hloop in HL. now injection HL as <- _.
Qed.

(** [page2] of the demo store holds a record with the key "bad%zz". *)
Lemma List_keeps_undecodable_keys_witness :
  uint_retryCnt (Demo.start 0 1)
  /\ snd (url.QueryUnescape "bad%zz") = Some (EscapeError "%zz")
  /\ exists s',
       List Demo.etag (Demo.start 0 1) = Done None s'
       /\ map Key (sent (trace s'))
          = [Some "a/b"%string; Some "c d"%string; Some EmptyString].
Proof.
  assert (Hb : uint_retryCnt (Demo.start 0 1)) by reflexivity.
  split; [exact Hb|]. split; [reflexivity|].
  destruct (List_keeps_undecodable_keys Demo.etag (Demo.start 0 1) Hb)
    as (_ & r & s' & added & HL & Htr & Hsent & Hnil).
  rewrite (Hnil (fun n input => eq_refl)) in HL.
  exists s'. split; [exact HL|].
  cbn [trace Demo.start app] in Htr. rewrite Htr, Hsent.
  assert (Hrun : List Demo.etag (Demo.start 0 1) = Done None s') by exact HL.
  vm_compute in Hrun. injection Hrun as <-. rewrite <- Htr. reflexivity.
Defined.

(** ** Bytes through the limiter *)

Lemma waits_app (a b : list Event) : waits (a ++ b) = waits a ++ waits b.
Proof. apply flat_map_app. Qed.

Lemma waited_app (a b : list Event) : waited (a ++ b) = waited a + waited b.
Proof. unfold waited. now rewrite waits_app, map_app, list_sum_app. Qed.

Lemma waits_on_app (bk : Bucket) (a b : list Event) :
  waits_on bk a -> waits_on bk b -> waits_on bk (a ++ b).
Proof. unfold waits_on. rewrite waits_app. intros Ha Hb. apply Forall_app. now split. Qed.

Lemma get_requests_app (a b : list Event) :
  get_requests (a ++ b) = get_requests a ++ get_requests b.
Proof. apply flat_map_app. Qed.

Lemma put_requests_app (a b : list Event) :
  put_requests (a ++ b) = put_requests a ++ put_requests b.
Proof. apply flat_map_app. Qed.

Lemma waits_copy (bk : Bucket) (cs : list (list byte)) :
  waits (flat_map (fun c => write_waits (RateLimitWriter BufferWriter bk) (length c)) cs)
  = map (fun c => (bk, length c)) cs.
Proof.
  induction cs as [|c cs IH]; [reflexivity|].
  cbn [flat_map]. rewrite waits_app, IH. reflexivity.
Qed.

Lemma get_requests_copy (w : Writer) (cs : list (list byte)) :
  get_requests (flat_map (fun c => write_waits w (length c)) cs) = [].
Proof.
  induction cs as [|c cs IH]; [reflexivity|].
  cbn [flat_map]. rewrite get_requests_app, IH, app_nil_r. clear IH.
  induction w as [|w IHw b]; [reflexivity|exact IHw].
Qed.

Lemma waited_copy (bk : Bucket) (cs : list (list byte)) :
  waited (flat_map (fun c => write_waits (RateLimitWriter BufferWriter bk) (length c)) cs)
  = length (concat cs).
Proof.
  unfold waited. rewrite waits_copy, map_map. cbn [snd].
  induction cs as [|c cs IH]; [reflexivity|].
  cbn [map list_sum fold_right concat]. rewrite length_app. f_equal. exact IH.
Qed.

Lemma waits_on_copy (bk : Bucket) (cs : list (list byte)) :
  waits_on bk (flat_map (fun c => write_waits (RateLimitWriter BufferWriter bk) (length c)) cs).
Proof.
  unfold waits_on. rewrite waits_copy. apply Forall_forall.
  intros w Hin. apply in_map_iff in Hin as (c & <- & _). reflexivity.
Qed.

Lemma copied_by_rounds_S (svc : S3) (input : ObjectRef) (c n : nat) :
  copied_by_rounds svc input c (S n)
  = copied_by_rounds svc input c n + get_copied (svcGetObject svc (c + n) input).
Proof.
  unfold copied_by_rounds. rewrite seq_S, map_app, list_sum_app. cbn. lia.
Qed.

Lemma read_by_rounds_S (svc : S3) (input : PutObjectInput) (c n : nat) :
  read_by_rounds svc input c (S n)
  = read_by_rounds svc input c n
    + bytes_read (svcPutObject svc (c + n) (put_schedule svc input c n))
        (piBody (put_schedule svc input c n)).
Proof.
  unfold read_by_rounds. rewrite seq_S, map_app, list_sum_app.
  f_equal. cbn [map Nat.add]. unfold list_sum. cbn [fold_right]. apply Nat.add_0_r.
Qed.

Lemma repeat_snoc {A : Type} (x : A) (n : nat) : repeat x (S n) = repeat x n ++ [x].
Proof. induction n as [|n IH]; [reflexivity|]. cbn in *. now rewrite <- IH. Qed.

(** What a trace that a loop has added so far says, [n] rounds in: used
    with [retry_rule] for the loops that leave the receiver alone. *)
Lemma added_so_far (tr tr1 : list Event) (P : nat -> list Event -> Prop)
    (more : list Event) (n : nat) :
  (exists added, tr1 = tr ++ added /\ P n added) ->
  (forall added, P n added -> P n (added ++ more)) ->
  exists added, tr1 ++ more = tr ++ added /\ P n added.
Proof.
  intros (added & Htr & HP) Hmore. exists (added ++ more).
  split; [now rewrite Htr, app_assoc|auto].
Qed.

Section GetTrace.
Variable strongEtag : option string -> option string.

(** A get round panics when the buffer for the declared length is not
    made, or is the round of [get_round_spec]. *)
Lemma get_round_cases (input : ObjectRef) (obj : Object) (s : State) :
  (exists s', get_round strongEtag input obj s = Panic s')
  \/ sized (awsSvc (this s)) (clock s) (svcGetObject (awsSvc (this s)) (clock s) input).
Proof.
  destruct (svcGetObject (awsSvc (this s)) (clock s) input) as [e|result] eqn:E;
    [right; exact I|].
  destruct (makes (awsSvc (this s)) (S (clock s))
              (Int64Value (goContentLength result))) eqn:Hmake.
  - right. exact Hmake.
  - left. unfold get_round, GetObjectWithContext, bind, self, tick, emit, ret.
    cbn [this clock]. rewrite E. unfold NewBuffer.
    cbn [this clock]. rewrite Hmake. eexists. reflexivity.
Qed.

(** What a content fetch that returns has added to the trace: one get
    request for every round, and for every body byte copied a wait on the
    client's bucket. *)
Lemma GetObjectContent_trace (obj : Object) (s : State)
    (r : Object * option error) (s' : State) :
  uint_retryCnt s ->
  GetObjectContent strongEtag obj s = Done r s' ->
  exists added n,
    trace s' = trace s ++ added
    /\ clock s' = clock s + n
    /\ get_requests added = repeat (object_ref (this s) obj) n
    /\ waits_on (rlBucket (this s)) added
    /\ waited added
       = copied_by_rounds (awsSvc (this s)) (object_ref (this s) obj) (clock s) n.
Proof.
  intros Hbound. unfold GetObjectContent, bind, self. rewrite GetObjectContent_loop_retry.
  set (input := object_ref (this s) obj).
  pose (P := fun n added =>
          get_requests added = repeat input n
          /\ waits_on (rlBucket (this s)) added
          /\ waited added = copied_by_rounds (awsSvc (this s)) input (clock s) n).
  pose (Inv := fun s1 : State =>
          this s1 = this s
          /\ exists n, clock s1 = clock s + n
                       /\ exists added, trace s1 = trace s ++ added /\ P n added).
  revert r s'.
  apply (retry_rule (get_round strongEtag input obj) _ _ (retryCnt (this s))
           (fun _ s1 => Inv s1)
           (fun o => forall r s', o = Done r s' ->
                       exists added n, trace s' = trace s ++ added
                                       /\ clock s' = clock s + n /\ P n added));
    [exact Hbound| |lia| |unfold rounds; lia].
  - intros i s1 Hi (Hthis & n & Hclk & Hadd).
    destruct (get_round_cases input obj s1) as [(s' & ->)|Hsized]; [discriminate|].
    rewrite get_round_spec by exact Hsized. rewrite Hthis, Hclk in *.
    set (answer := svcGetObject (awsSvc (this s)) (clock s + n) input) in *.
    set (more := match answer with
                 | inl _ => []
                 | inr result =>
                     flat_map (fun c => write_waits
                                          (RateLimitWriter BufferWriter (rlBucket (this s)))
                                          (length c)) (chunks (goBody result))
                 end).
    assert (Hmore : exists added,
               trace s1 ++ EvGetObject input :: more = trace s ++ added /\ P (S n) added).
    { destruct Hadd as (added & Htr & Hreq & Hon & Hw).
      exists (added ++ EvGetObject input :: more). split; [now rewrite Htr, app_assoc|].
      unfold P, more. rewrite copied_by_rounds_S. fold answer.
      destruct answer as [e|result]; cbn [get_copied].
      - split; [now rewrite get_requests_app, Hreq, repeat_snoc|].
        split; [apply waits_on_app; [exact Hon|constructor]|].
        rewrite waited_app, Hw. reflexivity.
      - split.
        + rewrite get_requests_app, Hreq, repeat_snoc. f_equal.
          change (get_requests (EvGetObject input :: ?tr))
            with (input :: get_requests tr).
          now rewrite get_requests_copy.
        + split.
          * apply waits_on_app; [exact Hon|]. apply waits_on_copy.
          * rewrite waited_app, Hw. f_equal.
            apply (waited_copy (rlBucket (this s)) (chunks (goBody result))). }
    assert (Hquiet : forall n added ev, quiet ev -> P n added -> P n (added ++ [ev])).
    { intros n0 added ev Hev (Hreq & Hon & Hw). unfold P.
      rewrite get_requests_app, waited_app, Hreq, Hw.
      destruct ev; cbn in Hev; try contradiction;
        (split; [now rewrite app_nil_r|]; split; [|cbn; lia];
         apply waits_on_app; [exact Hon|constructor]). }
    assert (Hnext : forall msg e,
               Inv (after_sleep msg e {| this := this s; clock := S (clock s + n);
                                         trace := trace s1 ++ EvGetObject input :: more |})).
    { intros msg e. split; [reflexivity|]. exists (S n). split; [cbn; lia|].
      cbn [after_sleep trace this].
      apply added_so_far; [|intros; now apply Hquiet].
      apply added_so_far; [exact Hmore|intros; now apply Hquiet]. }
    assert (Hleave : forall (r0 r : Object * option error) s',
               Done r0 {| this := this s; clock := S (clock s + n);
                         trace := trace s1 ++ EvGetObject input :: more |} = Done r s' ->
               exists added n0, trace s' = trace s ++ added
                                /\ clock s' = clock s + n0 /\ P n0 added).
    { intros r0 r s' [= _ <-]. destruct Hmore as (added & Htr & HP).
      exists added, (S n). cbn. split; [exact Htr|]. split; [lia|exact HP]. }
    destruct answer as [e|result].
    + split; [reflexivity|]. split; [intros _; apply Hnext|].
      intros _ r s'. apply Hleave.
    + destruct (failure (goBody result)) as [e|].
      * split; [reflexivity|]. split; [intros _; apply Hnext|].
        intros _ r s'. apply Hleave.
      * intros r s'. apply Hleave.
  - split; [reflexivity|]. exists 0. split; [lia|]. exists []. split; [now rewrite app_nil_r|].
    repeat split. constructor.
Qed.

End GetTrace.

(** ** Any store: how a loop can end *)

(** Whatever the store answers, a loop whose rounds are single remote calls
    ends by a panic of a round, by a successful round [j <= retryCnt], or by
    giving up on round [retryCnt]. *)
Lemma retry_outcomes {A R : Type} (attempt : M (Attempt A R))
    (giveup : error -> M R) (finish : A -> M R) (s : State) :
  uint_retryCnt s ->
  (forall s1, same_client (this s) (this s1) ->
     (exists s', attempt s1 = Panic s') \/ exists r s', round_of attempt s1 r s') ->
  (exists s1, retry (rounds (this s)) attempt giveup finish 0%N s = Panic s1)
  \/ (exists j s1 a,
        j <= N.to_nat (retryCnt (this s)) /\ ended s j s1
        /\ retry (rounds (this s)) attempt giveup finish 0%N s = finish a s1)
  \/ (exists s1 e,
        ended s (N.to_nat (retryCnt (this s))) s1
        /\ retry (rounds (this s)) attempt giveup finish 0%N s = giveup e s1).
Proof.
  intros Hbound Hround.
  apply (retry_rule attempt giveup finish (retryCnt (this s))
           (fun i s1 => started s (N.to_nat i) s1)
           (fun o => (exists s1, o = Panic s1)
                     \/ (exists j s1 a,
                           j <= N.to_nat (retryCnt (this s)) /\ ended s j s1
                           /\ o = finish a s1)
                     \/ (exists s1 e,
                           ended s (N.to_nat (retryCnt (this s))) s1
                           /\ o = giveup e s1)));
    [exact Hbound| |lia|apply started_0; exact Hbound|unfold rounds; lia].
  intros i s1 Hi Hst.
  destruct (Hround s1 (proj1 Hst)) as [(s' & ->)|(r & s' & Hr)]; [left; eauto|].
  pose proof Hr as (-> & _).
  pose proof (round_ends attempt s Hbound _ _ _ _ Hst Hr) as Hend.
  destruct r as [msg e beyond|a].
  - destruct (same_client_retry _ _ (proj1 Hend)) as (_ & <- & _).
    split; [reflexivity|]. split.
    + intros _. replace (N.to_nat (i + 1)) with (S (N.to_nat i)) by lia.
      apply round_restarts; assumption.
    + intros ->. right. right. eauto.
  - right. left. exists (N.to_nat i), s', a. split; [lia|]. split; [exact Hend|reflexivity].
Qed.

Lemma get_round_either (strongEtag : option string -> option string)
    (input : ObjectRef) (obj : Object) (s1 : State) :
  (exists s', get_round strongEtag input obj s1 = Panic s')
  \/ exists r s', round_of (get_round strongEtag input obj) s1 r s'.
Proof.
  destruct (get_round_cases strongEtag input obj s1) as [Hp|Hsized]; [left; exact Hp|].
  destruct (get_round_of strongEtag input obj s1 Hsized) as (r & s' & Hr & _). eauto.
Qed.

Section GetResult.
Variable strongEtag : option string -> option string.

(** A content fetch that returns: with nil, the object updated from the
    last answer, whose body drained whole; with an error, the object as it
    was and the error of the last answer. *)
Lemma GetObjectContent_result (obj obj' : Object) (err : option error) (s s' : State) :
  uint_retryCnt s ->
  GetObjectContent strongEtag obj s = Done (obj', err) s' ->
  match err with
  | None =>
      exists result,
        svcGetObject (awsSvc (this s)) (clock s' - 1) (object_ref (this s) obj) = inr result
        /\ failure (goBody result) = None
        /\ obj' = with_meta strongEtag obj (Some (body_bytes (goBody result))) (goMeta result)
  | Some e =>
      obj' = obj
      /\ get_error (svcGetObject (awsSvc (this s)) (clock s' - 1) (object_ref (this s) obj))
         = Some e
  end.
Proof.
  intros Hbound. unfold GetObjectContent, bind, self. rewrite GetObjectContent_loop_retry.
  set (input := object_ref (this s) obj).
  revert obj' err s'.
  apply (retry_rule (get_round strongEtag input obj) _ _ (retryCnt (this s))
           (fun _ s1 => this s1 = this s)
           (fun o => forall obj' err s', o = Done (obj', err) s' -> _));
    [exact Hbound| |lia|reflexivity|unfold rounds; lia].
  intros i s1 Hi Hthis.
  destruct (get_round_cases strongEtag input obj s1) as [(s2 & ->)|Hsized]; [discriminate|].
  rewrite get_round_spec by exact Hsized. rewrite Hthis in *.
  destruct (svcGetObject (awsSvc (this s)) (clock s1) input) as [e|result] eqn:E.
  - split; [reflexivity|]. split; [intros _; reflexivity|].
    intros _ obj' err s' [= <- <- <-]. cbn [clock].
    replace (S (clock s1) - 1) with (clock s1) by lia. rewrite E. now split.
  - destruct (failure (goBody result)) as [e|] eqn:F.
    + split; [reflexivity|]. split; [intros _; reflexivity|].
      intros _ obj' err s' [= <- <- <-]. cbn [clock].
      replace (S (clock s1) - 1) with (clock s1) by lia. rewrite E. now split.
    + intros obj' err s' [= <- <- <-]. cbn [clock fst snd].
      replace (S (clock s1) - 1) with (clock s1) by lia. exists result. auto.
Qed.

End GetResult.

(** ** GetObjectContent: one round, two ways to fail *)

(** C2, as the spec reads: false.  The first answer of the demo store is
    an answered request whose body breaks off; the call then issues the get
    request a second time. *)
Lemma GetObjectContent_reissues_request :
  ~ drain_retried_alone Demo.etag Demo.obj (Demo.start 1 2).
Proof.
  intros H.
  assert (exists r s', GetObjectContent Demo.etag Demo.obj (Demo.start 1 2) = Done r s')
    as (r & s' & E) by (eexists _, _; vm_compute; reflexivity).
  specialize (H _ r s' eq_refl E).
  vm_compute in E. injection E as <- <-. vm_compute in H. discriminate H.
Qed.

Lemma GetObjectContent_rounds (strongEtag : option string -> option string)
    (obj obj' : Object) (err : option error) (s s' : State) :
  uint_retryCnt s ->
  GetObjectContent strongEtag obj s = Done (obj', err) s' ->
  exists j,
    j <= N.to_nat (retryCnt (this s))
    /\ ended s j s'
    /\ (err <> None -> j = N.to_nat (retryCnt (this s))).
Proof.
  intros Hbound. unfold GetObjectContent, bind, self. rewrite GetObjectContent_loop_retry.
  destruct (retry_outcomes (get_round strongEtag (object_ref (this s) obj) obj)
              (fun e => ret (obj, Some e))
              (fun a => ret (with_meta strongEtag obj (Some (fst a)) (goMeta (snd a)), None))
              s Hbound)
    as [(s1 & ->)|[(j & s1 & a & Hj & Hend & ->)|(s1 & e & Hend & ->)]]; [|discriminate| |].
  - intros s1 _. apply get_round_either.
  - intros [= _ <- <-]. exists j. split; [exact Hj|]. split; [exact Hend|]. congruence.
  - intros [= _ <- <-]. eexists. split; [apply le_n|]. split; [exact Hend|reflexivity].
Qed.

(** C2, amended: the request and the draining of the body are one round
    under one counter.  A call that returns after [j] failed rounds,
    failed in the request or in the body, has slept [j] times and has
    issued the get request [j + 1] times, once for every round; an error
    is returned from round [retryCnt] only, with the object as it was.
    Every round drains into a buffer of its own: on nil, [Content] is the
    body of the last answer, with nothing of the bodies that broke off.
    And when [k] rounds fail and the next one succeeds, the runtime making
    the buffers, the call does return nil, after [k + 1] get requests. *)
Theorem GetObjectContent_retries_whole_round
    (strongEtag : option string -> option string) (obj : Object) (s : State) :
  uint_retryCnt s ->
  (forall obj' err s',
     GetObjectContent strongEtag obj s = Done (obj', err) s' ->
     exists j added,
       j <= N.to_nat (retryCnt (this s))
       /\ trace s' = trace s ++ added
       /\ get_requests added = repeat (object_ref (this s) obj) (S j)
       /\ count_sleeps (skeleton added) = j
       /\ match err with
          | None =>
              exists result,
                svcGetObject (awsSvc (this s)) (clock s + j) (object_ref (this s) obj)
                = inr result
                /\ failure (goBody result) = None
                /\ Content obj' = Some (body_bytes (goBody result))
          | Some e =>
              j = N.to_nat (retryCnt (this s))
              /\ obj' = obj
              /\ get_error (svcGetObject (awsSvc (this s)) (clock s + j)
                              (object_ref (this s) obj)) = Some e
          end)
  /\ (forall (e : nat -> error) (k : nat),
        (N.of_nat k <= retryCnt (this s))%N ->
        (forall j, j < k ->
           get_error (svcGetObject (awsSvc (this s)) (clock s + j) (object_ref (this s) obj))
           = Some (e j)
           /\ sized (awsSvc (this s)) (clock s + j)
                (svcGetObject (awsSvc (this s)) (clock s + j) (object_ref (this s) obj))) ->
        get_error (svcGetObject (awsSvc (this s)) (clock s + k) (object_ref (this s) obj))
        = None ->
        sized (awsSvc (this s)) (clock s + k)
          (svcGetObject (awsSvc (this s)) (clock s + k) (object_ref (this s) obj)) ->
        exists result obj' s' added,
          svcGetObject (awsSvc (this s)) (clock s + k) (object_ref (this s) obj) = inr result
          /\ GetObjectContent strongEtag obj s = Done (obj', None) s'
          /\ trace s' = trace s ++ added
          /\ get_requests added = repeat (object_ref (this s) obj) (S k)
          /\ count_sleeps (skeleton added) = k
          /\ Content obj' = Some (body_bytes (goBody result))).
Proof.
  intros Hbound. split.
  - intros obj' err s' HG.
    destruct (GetObjectContent_rounds strongEtag obj obj' err s s' Hbound HG)
      as (j & Hj & Hend & Hlast).
    destruct (GetObjectContent_trace strongEtag obj s _ s' Hbound HG)
      as (added & n & Htr & Hclk & Hreq & _).
    destruct (ended_counts _ _ _ Hend) as (added' & Hclk' & Htr' & _ & _ & Hsleeps).
    assert (added' = added) by (apply (app_inv_head (trace s)); congruence). subst added'.
    assert (n = S j) by lia. subst n.
    pose proof (GetObjectContent_result strongEtag obj obj' err s s' Hbound HG) as Hres.
    replace (clock s' - 1) with (clock s + j) in Hres by lia.
    exists j, added. split; [exact Hj|]. split; [exact Htr|]. split; [exact Hreq|].
    split; [exact Hsleeps|].
    destruct err as [e'|].
    + destruct Hres as [-> Herr]. split; [apply Hlast; discriminate|].
      split; [reflexivity|exact Herr].
    + destruct Hres as (result & Hr & Hf & ->). exists result.
      split; [exact Hr|]. split; [exact Hf|reflexivity].
  - intros e k Hk Hfail Hok Hsized.
    destruct (GetObjectContent_loop_recovers strongEtag s e Hbound k Hk
                (object_ref (this s) obj) obj Hfail Hok Hsized)
      as (result & s1 & Hres & Hloop & Hend).
    assert (HG : GetObjectContent strongEtag obj s
                 = Done (with_meta strongEtag obj (Some (body_bytes (goBody result)))
                           (goMeta result), None) s1)
      by (unfold GetObjectContent, bind, self; exact Hloop).
    destruct (GetObjectContent_trace strongEtag obj s _ s1 Hbound HG)
      as (added & n & Htr & Hclk & Hreq & _).
    destruct (ended_counts _ _ _ Hend) as (added' & Hclk' & Htr' & _ & _ & Hsleeps).
    assert (added' = added) by (apply (app_inv_head (trace s)); congruence). subst added'.
    assert (n = S k) by lia. subst n.
    eexists result, _, s1, added. split; [exact Hres|]. split; [exact HG|].
    repeat split; auto.
Qed.

(** Two retries against the demo store, whose first body breaks off after
    two bytes: two get requests, one sleep, the three bytes of the second
    body. *)
Lemma GetObjectContent_retries_whole_round_witness :
  uint_retryCnt (Demo.start 1 2)
  /\ exists obj' s',
       GetObjectContent Demo.etag Demo.obj (Demo.start 1 2) = Done (obj', None) s'
       /\ length (get_requests (trace s')) = 2
       /\ count_sleeps (skeleton (trace s')) = 1
       /\ Content obj' = Some [x01; x02; x03].
Proof.
  assert (Hb : uint_retryCnt (Demo.start 1 2)) by reflexivity.
  split; [exact Hb|].
  destruct (proj2 (GetObjectContent_retries_whole_round Demo.etag Demo.obj (Demo.start 1 2)
                     Hb) Demo.boom 1)
    as (result & obj' & s' & added & Hres & HG & Htr & Hreq & Hsl & Hc).
  - cbn. lia.
  - intros j Hj. destruct j as [|j]; [split; reflexivity|lia].
  - reflexivity.
  - reflexivity.
  - exists obj', s'. cbn [trace Demo.start app] in Htr. rewrite Htr.
    split; [exact HG|]. split; [now rewrite Hreq|]. split; [exact Hsl|].
    injection Hres as <-. exact Hc.
Defined.

(** ** Which operations wait on the limiter *)

(** Reading a body that reads [content] through the limiter. *)
Lemma run_body_limited (content : list byte) (b : Bucket) (start : nat)
    (ops : list BodyOp) (r : Reader) :
  limited content b r ->
  limited content b (fst (run_body start ops r))
  /\ Forall (fun ev => exists k, ev = EvWait b k) (snd (run_body start ops r))
  /\ waited (snd (run_body start ops r)) = ops_read start ops r.
Proof.
  revert r; induction ops as [|[n|] ops IH]; intros r (pos & ->);
    cbn [run_body ops_read reader_read reader_seek].
  - split; [now exists pos|]. split; [constructor|reflexivity].
  - set (k := Nat.min n (length content - pos)).
    destruct (IH (RateLimitReadSeeker (BytesReader content (pos + k)) b))
      as (Hl & Hf & Hw); [now eexists|].
    destruct (run_body start ops _) as [r'' evs']. cbn [fst snd] in *.
    split; [exact Hl|]. split.
    + apply Forall_app; split; [|exact Hf].
      destruct (k =? 0); repeat constructor. now exists k.
    + rewrite waited_app, Hw. destruct (Nat.eqb_spec k 0) as [->|_]; cbn; lia.
  - apply IH. now eexists.
Qed.

Lemma only_waits (b : Bucket) (evs : list Event) :
  Forall (fun ev => exists k, ev = EvWait b k) evs ->
  waits_on b evs /\ put_requests evs = [].
Proof.
  induction 1 as [|ev evs (k & ->) _ (Hon & Hreq)]; [split; [constructor|reflexivity]|].
  split; [constructor; [reflexivity|exact Hon]|exact Hreq].
Qed.

Lemma put_schedule_limited (content : list byte) (b : Bucket) (svc : S3)
    (input : PutObjectInput) (c j : nat) :
  limited content b (piBody input) ->
  limited content b (piBody (put_schedule svc input c j)).
Proof.
  intros Hbody. induction j as [|j IH]; [exact Hbody|].
  cbn [put_schedule with_body piBody]. now apply run_body_limited.
Qed.

(** What an upload that returns has added to the trace: in every round
    the request of that round, whose body is where the round before left
    it, and for every byte read from the body a wait on the client's
    bucket. *)
Lemma PutObject_loop_trace (input : PutObjectInput) (content : list byte) (s : State)
    (r : option error) (s' : State) :
  uint_retryCnt s ->
  limited content (rlBucket (this s)) (piBody input) ->
  PutObject_loop (rounds (this s)) input 0%N s = Done r s' ->
  exists added n,
    trace s' = trace s ++ added
    /\ clock s' = clock s + n
    /\ put_requests added = map (put_schedule (awsSvc (this s)) input (clock s)) (seq 0 n)
    /\ waits_on (rlBucket (this s)) added
    /\ waited added = read_by_rounds (awsSvc (this s)) input (clock s) n.
Proof.
  intros Hbound Hbody. rewrite PutObject_loop_retry_0.
  pose (P := fun n added =>
          put_requests added
          = map (put_schedule (awsSvc (this s)) input (clock s)) (seq 0 n)
          /\ waits_on (rlBucket (this s)) added
          /\ waited added = read_by_rounds (awsSvc (this s)) input (clock s) n).
  pose (Inv := fun s1 : State =>
          this s1 = this s
          /\ exists n, clock s1 = clock s + n
                       /\ exists added, trace s1 = trace s ++ added /\ P n added).
  revert r s'.
  apply (retry_rule (put_round input (clock s)) _ _ (retryCnt (this s))
           (fun _ s1 => Inv s1)
           (fun o => forall r s', o = Done r s' ->
                       exists added n, trace s' = trace s ++ added
                                       /\ clock s' = clock s + n /\ P n added));
    [exact Hbound| |lia| |unfold rounds; lia].
  - intros i s1 Hi (Hthis & n & Hclk & Hadd).
    rewrite put_round_spec. rewrite Hthis, Hclk in *.
    replace (clock s + n - clock s) with n by lia.
    set (request := put_schedule (awsSvc (this s)) input (clock s) n).
    set (reply := svcPutObject (awsSvc (this s)) (clock s + n) request).
    set (more := snd (body_run reply (piBody request))).
    destruct (run_body_limited content (rlBucket (this s)) (reader_pos (piBody request))
                (bodyOps reply) (piBody request)) as (_ & Hwaits & Hread);
      [now apply put_schedule_limited|].
    fold (body_run reply (piBody request)) in Hwaits, Hread. fold more in Hwaits, Hread.
    destruct (only_waits _ _ Hwaits) as (Hon_more & Hreq_more).
    assert (Hmore : exists added,
               trace s1 ++ EvPutObject request :: more = trace s ++ added /\ P (S n) added).
    { destruct Hadd as (added & Htr & Hreq & Hon & Hw).
      exists (added ++ EvPutObject request :: more). split; [now rewrite Htr, app_assoc|].
      unfold P. rewrite read_by_rounds_S. fold request reply.
      split.
      - rewrite put_requests_app, Hreq, seq_S, map_app. f_equal.
        change (put_requests (EvPutObject request :: more))
          with (request :: put_requests more).
        now rewrite Hreq_more.
      - split; [apply waits_on_app; [exact Hon|exact Hon_more]|].
        rewrite waited_app, Hw. f_equal. exact Hread. }
    assert (Hquiet : forall n added ev, quiet ev -> P n added -> P n (added ++ [ev])).
    { intros n0 added ev Hev (Hreq & Hon & Hw). unfold P.
      rewrite put_requests_app, waited_app, Hreq, Hw.
      destruct ev; cbn in Hev; try contradiction;
        (split; [now rewrite app_nil_r|]; split; [|cbn; lia];
         apply waits_on_app; [exact Hon|constructor]). }
    assert (Hleave : forall (r0 r : option error) s',
               Done r0 {| this := this s; clock := S (clock s + n);
                          trace := trace s1 ++ EvPutObject request :: more |} = Done r s' ->
               exists added n0, trace s' = trace s ++ added
                                /\ clock s' = clock s + n0 /\ P n0 added).
    { intros r0 r s' [= _ <-]. destruct Hmore as (added & Htr & HP).
      exists added, (S n). cbn. split; [exact Htr|]. split; [lia|exact HP]. }
    destruct (putErr reply) as [e|].
    + split; [reflexivity|]. split.
      * intros _. split; [reflexivity|]. exists (S n). split; [cbn; lia|].
        cbn [after_sleep trace this].
        apply added_so_far; [|intros; now apply Hquiet].
        apply added_so_far; [exact Hmore|intros; now apply Hquiet].
      * intros _ r s'. apply Hleave.
    + intros r s'. apply Hleave.
  - split; [reflexivity|]. exists 0. split; [lia|]. exists []. split; [now rewrite app_nil_r|].
    repeat split. constructor.
Qed.

(** A loop whose rounds add one request event and nothing else adds no
    wait. *)
Lemma retry_no_waits {A R : Type} (attempt : M (Attempt A R))
    (giveup : error -> M R) (finish : A -> M R) (s : State) :
  uint_retryCnt s ->
  (forall s1, exists r ev,
     attempt s1 = Done r {| this := this s1; clock := S (clock s1);
                            trace := trace s1 ++ [ev] |}
     /\ wait_of ev = []) ->
  (forall e s1, exists r, giveup e s1 = Done r s1) ->
  (forall a s1, exists r, finish a s1 = Done r s1) ->
  exists r s' added,
    retry (rounds (this s)) attempt giveup finish 0%N s = Done r s'
    /\ trace s' = trace s ++ added
    /\ waits added = [].
Proof.
  intros Hbound Hround Hgiveup Hfinish.
  pose (Inv := fun s1 : State =>
          this s1 = this s
          /\ exists added, trace s1 = trace s ++ added /\ waits added = []).
  assert (Hstep : forall s1 ev, wait_of ev = [] -> Inv s1 -> Inv (with_trace s1 [ev])).
  { intros s1 ev Hev (Hthis & added & Htr & Hw). split; [exact Hthis|].
    exists (added ++ [ev]). split; [cbn; now rewrite Htr, app_assoc|].
    rewrite waits_app, Hw. cbn. now rewrite Hev. }
  apply (retry_rule attempt giveup finish (retryCnt (this s))
           (fun _ s1 => Inv s1)
           (fun o => exists r s' added,
                       o = Done r s' /\ trace s' = trace s ++ added /\ waits added = []));
    [exact Hbound| |lia| |unfold rounds; lia].
  - intros i s1 Hi HI. destruct (Hround s1) as (r & ev & -> & Hev).
    pose proof (Hstep s1 ev Hev HI) as HI'.
    destruct r as [msg e beyond|a].
    + split; [cbn; destruct HI as [-> _]; reflexivity|]. split.
      * intros _.
        change (Inv (with_trace (with_trace (with_trace s1 [ev]) [EvLog msg (Some e)])
                       [EvSleep (retryInterval (this s1))])) in |- *.
        apply Hstep; [reflexivity|]. apply Hstep; [reflexivity|exact HI'].
      * intros _. destruct (Hgiveup e {| this := this s1; clock := S (clock s1);
                                         trace := trace s1 ++ [ev] |}) as (r & ->).
        destruct HI' as (_ & added & Htr & Hw). eexists _, _, added. eauto.
    + destruct (Hfinish a {| this := this s1; clock := S (clock s1);
                             trace := trace s1 ++ [ev] |}) as (r & ->).
      destruct HI' as (_ & added & Htr & Hw). eexists _, _, added. eauto.
  - split; [reflexivity|]. exists []. split; [now rewrite app_nil_r|reflexivity].
Qed.

(** C8: on one client, whose bucket is [rlBucket], the body of every put
    request is the limiter's reader over the content, with that bucket,
    its offset where the rounds before have left it, and whatever the SDK
    and the transport read of it waits on that bucket, byte for byte; a
    content fetch waits on that bucket for every body byte it copies, in
    every round; a metadata fetch and a delete add no wait at all. *)
Theorem content_streams_pass_the_limiter
    (strongEtag : option string -> option string)
    (filepath_Join : string -> string -> string) (obj : Object) (s : State) :
  uint_retryCnt s ->
  (forall r s', PutObject filepath_Join obj s = Done r s' ->
     exists content input added n,
       Content obj = Some content
       /\ piBody input = RateLimitReadSeeker (BytesReader content 0) (rlBucket (this s))
       /\ trace s' = trace s ++ added
       /\ put_requests added
          = map (put_schedule (awsSvc (this s)) input (clock s)) (seq 0 n)
       /\ Forall (fun request => limited content (rlBucket (this s)) (piBody request))
            (put_requests added)
       /\ waits_on (rlBucket (this s)) added
       /\ waited added = read_by_rounds (awsSvc (this s)) input (clock s) n)
  /\ (forall r s', GetObjectContent strongEtag obj s = Done r s' ->
        exists added n,
          trace s' = trace s ++ added
          /\ get_requests added = repeat (object_ref (this s) obj) n
          /\ waits_on (rlBucket (this s)) added
          /\ waited added
             = copied_by_rounds (awsSvc (this s)) (object_ref (this s) obj) (clock s) n)
  /\ (exists r s' added,
        GetObjectMeta strongEtag obj s = Done r s'
        /\ trace s' = trace s ++ added /\ waits added = [])
  /\ (exists r s' added,
        DeleteObject obj s = Done r s'
        /\ trace s' = trace s ++ added /\ waits added = []).
Proof.
  intros Hbound. split; [|split; [|split]].
  - intros r s'. unfold PutObject, bind, self.
    destruct (Content obj) as [content|]; [|discriminate].
    destruct (Key obj) as [key|]; [|discriminate].
    intros HP.
    match type of HP with
    | PutObject_loop _ ?input _ _ = _ =>
        assert (Hbody : limited content (rlBucket (this s)) (piBody input))
          by (now exists 0);
        destruct (PutObject_loop_trace input content s r s' Hbound Hbody HP)
          as (added & n & Htr & _ & Hreq & Hon & Hw);
        exists content, input, added, n
    end.
    split; [reflexivity|]. split; [reflexivity|]. split; [exact Htr|].
    split; [exact Hreq|]. split; [|split; assumption].
    rewrite Hreq. apply Forall_forall. intros request Hin.
    apply in_map_iff in Hin as (j & <- & _). now apply put_schedule_limited.
  - intros r s' HG.
    destruct (GetObjectContent_trace strongEtag obj s r s' Hbound HG)
      as (added & n & Htr & _ & Hreq & Hon & Hw).
    exists added, n. repeat split; assumption.
  - unfold GetObjectMeta, bind, self.
    destruct (retry_no_waits (head_round strongEtag (object_ref (this s) obj) obj)
                (fun e => ret (obj, Some e))
                (fun result => ret (with_meta strongEtag obj (Content obj) result, None))
                s Hbound) as (r & s' & added & Hloop & Htr & Hw).
    + intros s1. eexists _, _. split; [apply head_round_spec|reflexivity].
    + intros e s1. eexists. reflexivity.
    + intros a s1. eexists. reflexivity.
    + exists r, s', added. rewrite GetObjectMeta_loop_retry. auto.
  - unfold DeleteObject, bind, self.
    destruct (retry_no_waits (delete_round (object_ref (this s) obj))
                (fun e => ret (Some e)) (fun _ => ret None) s Hbound)
      as (r & s' & added & Hloop & Htr & Hw).
    + intros s1. eexists _, _. split; [apply delete_round_spec|reflexivity].
    + intros e s1. eexists. reflexivity.
    + intros a s1. eexists. reflexivity.
    + exists r, s', added. rewrite DeleteObject_loop_retry. auto.
Qed.

(** On the demo client with a store that fails its first call: an upload
    of three bytes waits for the three bytes of the signing pass and for
    the one byte sent before the failure, then, the body left at its second
    byte, for two bytes signed and two sent; a content fetch waits for two
    and for three bytes; all on the client's bucket. *)
Lemma content_streams_pass_the_limiter_witness :
  uint_retryCnt (Demo.start 1 2)
  /\ (exists s',
        PutObject Demo.join Demo.obj (Demo.start 1 2) = Done None s'
        /\ waits_on (RateBucket 100 100) (trace s')
        /\ waits (trace s') = [(RateBucket 100 100, 3); (RateBucket 100 100, 1);
                               (RateBucket 100 100, 2); (RateBucket 100 100, 2)])
  /\ (exists r s',
        GetObjectContent Demo.etag Demo.obj (Demo.start 1 2) = Done r s'
        /\ waits_on (RateBucket 100 100) (trace s')
        /\ waited (trace s') = 5)
  /\ (exists r s',
        GetObjectMeta Demo.etag Demo.obj (Demo.start 1 2) = Done r s'
        /\ waits (trace s') = [])
  /\ (exists r s',
        DeleteObject Demo.obj (Demo.start 1 2) = Done r s' /\ waits (trace s') = []).
Proof.
  assert (Hb : uint_retryCnt (Demo.start 1 2)) by reflexivity.
  split; [exact Hb|].
  destruct (content_streams_pass_the_limiter Demo.etag Demo.join Demo.obj (Demo.start 1 2) Hb)
    as (Hput & Hget & (rm & sm & am & Hmeta & Htrm & Hwm)
        & (rd & sd & ad & Hdel & Htrd & Hwd)).
  split; [|split; [|split]].
  - assert (exists s', PutObject Demo.join Demo.obj (Demo.start 1 2) = Done None s')
      as (s' & E) by (eexists; vm_compute; reflexivity).
    destruct (Hput None s' E)
      as (content & input & added & n & _ & _ & Htr & _ & _ & Hon & _).
    exists s'. cbn [trace Demo.start app] in Htr. rewrite Htr.
    split; [exact E|]. split; [exact Hon|].
    vm_compute in E. injection E as <-. cbn [trace] in Htr. subst added. reflexivity.
  - assert (exists r s', GetObjectContent Demo.etag Demo.obj (Demo.start 1 2) = Done r s')
      as (r & s' & E) by (eexists _, _; vm_compute; reflexivity).
    destruct (Hget r s' E) as (added & n & Htr & Hreq & Hon & Hw).
    exists r, s'. cbn [trace Demo.start app] in Htr. rewrite Htr.
    split; [exact E|]. split; [exact Hon|].
    vm_compute in E. injection E as <- <-. cbn [trace] in Htr. subst added. reflexivity.
  - exists rm, sm. cbn [trace Demo.start app] in Htrm. rewrite Htrm. auto.
  - exists rd, sd. cbn [trace Demo.start app] in Htrd. rewrite Htrd. auto.
Defined.

(** * Further properties *)

(** ** Any store: how many rounds a call makes *)

(** X1: whatever the store answers, an operation that returns has made
    [j + 1] remote calls for some [j <= retryCnt], has slept [retryInterval]
    once after each of the first [j] and never else, and has left the client
    as it was up to the cursor.  An error is returned from round
    [retryCnt] only: never before every retry is used up. *)
Theorem operation_rounds_bounded
    (strongEtag : option string -> option string)
    (filepath_Join : string -> string -> string)
    (op : Operation) (s : State) (r : option error) (s' : State) :
  uint_retryCnt s ->
  perform strongEtag filepath_Join op s = Done r s' ->
  exists j added,
    j <= N.to_nat (retryCnt (this s))
    /\ clock s' = clock s + S j
    /\ trace s' = trace s ++ added
    /\ skeleton added = failed_rounds j (retryInterval (this s)) ++ [Attempted]
    /\ same_client (this s) (this s')
    /\ (r <> None -> j = N.to_nat (retryCnt (this s))).
Proof.
  intros Hbound.
  assert (Hgoal : forall j s1, ended s j s1 -> j <= N.to_nat (retryCnt (this s)) ->
            forall r0 : option error, (r0 <> None -> j = N.to_nat (retryCnt (this s))) ->
            Done r0 s1 = Done r s' ->
            exists j added,
              j <= N.to_nat (retryCnt (this s))
              /\ clock s' = clock s + S j
              /\ trace s' = trace s ++ added
              /\ skeleton added = failed_rounds j (retryInterval (this s)) ++ [Attempted]
              /\ same_client (this s) (this s')
              /\ (r <> None -> j = N.to_nat (retryCnt (this s)))).
  { intros j s1 Hend Hj r0 Hr0 [= <- <-].
    destruct (ended_counts _ _ _ Hend) as (added & Hclk & Htr & Hsk & _).
    exists j, added. repeat split; auto. exact (proj1 Hend). }
  destruct op as [|obj|obj|obj|obj]; cbn [perform].
  - unfold List, bind, self. rewrite List_loop_retry.
    destruct (retry_outcomes (list_round strongEtag)
                (fun e => Debugf "S3 listing failed with error: %s" (Some e) ;;; ret (Some e))
                (fun _ => Debugf "Listing bucket finished" None ;;; ret None) s Hbound)
      as [(s1 & ->)|[(j & s1 & a & Hj & Hend & ->)|(s1 & e & Hend & ->)]];
      [|discriminate| |].
    + intros s1 _. right. destruct (list_round_of strongEtag s1) as (r0 & s0 & Hr & _). eauto.
    + apply (Hgoal j _ (ended_quiet _ _ _ [EvLog "Listing bucket finished" None] Hend
                          eq_refl) Hj). congruence.
    + apply (Hgoal _ _ (ended_quiet _ _ _
                          [EvLog "S3 listing failed with error: %s" (Some e)] Hend eq_refl)
               (le_n _)). reflexivity.
  - unfold PutObject, bind, self.
    destruct (Content obj) as [content|]; [|discriminate].
    destruct (Key obj) as [key|]; [|discriminate].
    rewrite PutObject_loop_retry_0.
    match goal with
    | |- retry _ (put_round ?input ?c) _ _ _ _ = _ -> _ =>
        destruct (retry_outcomes (put_round input c) (fun e => ret (Some e))
                    (fun _ => ret None) s Hbound)
          as [(s1 & ->)|[(j & s1 & a & Hj & Hend & ->)|(s1 & e & Hend & ->)]];
          [|discriminate| |];
          [intros s1 _; right; destruct (put_round_of input c s1) as (r0 & s0 & Hr & _); eauto
          | |]
    end.
    + apply (Hgoal j _ Hend Hj). cbn. congruence.
    + apply (Hgoal _ _ Hend (le_n _)). reflexivity.
  - unfold GetObjectContent. unfold bind at 1 2, self. rewrite GetObjectContent_loop_retry.
    destruct (retry_outcomes (get_round strongEtag (object_ref (this s) obj) obj)
                (fun e => ret (obj, Some e))
                (fun a => ret (with_meta strongEtag obj (Some (fst a)) (goMeta (snd a)), None))
                s Hbound)
      as [(s1 & ->)|[(j & s1 & a & Hj & Hend & ->)|(s1 & e & Hend & ->)]];
      [|discriminate| |].
    + intros s1 _. apply get_round_either.
    + apply (Hgoal j _ Hend Hj). cbn. congruence.
    + apply (Hgoal _ _ Hend (le_n _)). reflexivity.
  - unfold GetObjectMeta. unfold bind at 1 2, self. rewrite GetObjectMeta_loop_retry.
    destruct (retry_outcomes (head_round strongEtag (object_ref (this s) obj) obj)
                (fun e => ret (obj, Some e))
                (fun result => ret (with_meta strongEtag obj (Content obj) result, None))
                s Hbound)
      as [(s1 & ->)|[(j & s1 & a & Hj & Hend & ->)|(s1 & e & Hend & ->)]];
      [|discriminate| |].
    + intros s1 _. right.
      destruct (head_round_of strongEtag (object_ref (this s) obj) obj s1)
        as (r0 & s0 & Hr & _). eauto.
    + apply (Hgoal j _ Hend Hj). cbn. congruence.
    + apply (Hgoal _ _ Hend (le_n _)). reflexivity.
  - unfold DeleteObject, bind, self. rewrite DeleteObject_loop_retry.
    destruct (retry_outcomes (delete_round (object_ref (this s) obj))
                (fun e => ret (Some e)) (fun _ => ret None) s Hbound)
      as [(s1 & ->)|[(j & s1 & a & Hj & Hend & ->)|(s1 & e & Hend & ->)]];
      [|discriminate| |].
    + intros s1 _. right.
      destruct (delete_round_of (object_ref (this s) obj) s1) as (r0 & s0 & Hr & _). eauto.
    + apply (Hgoal j _ Hend Hj). cbn. congruence.
    + apply (Hgoal _ _ Hend (le_n _)). reflexivity.
Qed.

Lemma operation_rounds_bounded_witness :
  uint_retryCnt (Demo.start 5 2)
  /\ exists s' j,
       perform Demo.etag Demo.join (OpGetObjectMeta Demo.obj) (Demo.start 5 2)
       = Done (Some (Demo.boom 2)) s'
       /\ j = 2 /\ clock s' = S j.
Proof.
  assert (Hb : uint_retryCnt (Demo.start 5 2)) by reflexivity.
  split; [exact Hb|].
  assert (exists s', perform Demo.etag Demo.join (OpGetObjectMeta Demo.obj) (Demo.start 5 2)
                     = Done (Some (Demo.boom 2)) s')
    as (s' & E) by (eexists; vm_compute; reflexivity).
  destruct (operation_rounds_bounded Demo.etag Demo.join _ _ _ _ Hb E)
    as (j & added & Hj & Hclk & _ & _ & _ & Hlast).
  exists s', j. split; [exact E|]. split; [apply Hlast; discriminate|exact Hclk].
Defined.

(** ** The receiver and the four object operations *)

Lemma retry_keeps_receiver {A R : Type} (attempt : M (Attempt A R))
    (giveup : error -> M R) (finish : A -> M R) (s : State) (r : R) (s' : State) :
  uint_retryCnt s ->
  (forall s1, match attempt s1 with
              | Done _ s2 => this s2 = this s1
              | _ => True
              end) ->
  (forall e s1 r1 s2, giveup e s1 = Done r1 s2 -> this s2 = this s1) ->
  (forall a s1 r1 s2, finish a s1 = Done r1 s2 -> this s2 = this s1) ->
  retry (rounds (this s)) attempt giveup finish 0%N s = Done r s' ->
  this s' = this s.
Proof.
  intros Hbound Hround Hgiveup Hfinish. revert r s'.
  apply (retry_rule attempt giveup finish (retryCnt (this s))
           (fun _ s1 => this s1 = this s)
           (fun o => forall r s', o = Done r s' -> this s' = this s));
    [exact Hbound| |lia|reflexivity|unfold rounds; lia].
  intros i s1 Hi Hthis. specialize (Hround s1).
  destruct (attempt s1) as [[msg e beyond|a] s2| |]; try discriminate.
  - split; [congruence|]. split; [intros _; cbn; congruence|].
    intros _ r s' H. rewrite (Hgiveup _ _ _ _ H). congruence.
  - intros r s' H. rewrite (Hfinish _ _ _ _ H). congruence.
Qed.

Lemma get_round_keeps_receiver (strongEtag : option string -> option string)
    (input : ObjectRef) (obj : Object) (s1 : State) :
  match get_round strongEtag input obj s1 with
  | Done _ s2 => this s2 = this s1
  | _ => True
  end.
Proof.
  destruct (get_round_cases strongEtag input obj s1) as [(s' & ->)|Hsized]; [exact I|].
  now rewrite get_round_spec.
Qed.

(** X2: the four object operations never write the receiver: a call that
    returns leaves every field of the client, the listing cursor included,
    as it was. *)
Theorem object_operations_keep_receiver
    (strongEtag : option string -> option string)
    (filepath_Join : string -> string -> string)
    (op : Operation) (s : State) (r : option error) (s' : State) :
  uint_retryCnt s ->
  op <> OpList ->
  perform strongEtag filepath_Join op s = Done r s' ->
  this s' = this s.
Proof.
  intros Hbound Hop.
  assert (Hret : forall (B : Type) (b : B) (s1 : State) (r1 : B) (s2 : State),
            ret b s1 = Done r1 s2 -> this s2 = this s1)
    by (intros B b s1 r1 s2 [= _ <-]; reflexivity).
  destruct op as [|obj|obj|obj|obj]; cbn [perform]; [congruence|..].
  - unfold PutObject, bind, self.
    destruct (Content obj) as [content|]; [|discriminate].
    destruct (Key obj) as [key|]; [|discriminate].
    rewrite PutObject_loop_retry_0.
    apply retry_keeps_receiver;
      [exact Hbound|intros s1; now rewrite put_round_spec
      |intros e s1 r1 s2; apply Hret|intros a s1 r1 s2; apply Hret].
  - unfold GetObjectContent. unfold bind at 1 2, self. rewrite GetObjectContent_loop_retry.
    destruct (retry _ _ _ _ _ s) as [[obj' err] s1| |] eqn:E; try discriminate.
    intros [= _ <-]. revert E.
    apply retry_keeps_receiver;
      [exact Hbound|apply get_round_keeps_receiver
      |intros e s2 r1 s3; apply Hret|intros a s2 r1 s3; apply Hret].
  - unfold GetObjectMeta. unfold bind at 1 2, self. rewrite GetObjectMeta_loop_retry.
    destruct (retry _ _ _ _ _ s) as [[obj' err] s1| |] eqn:E; try discriminate.
    intros [= _ <-]. revert E.
    apply retry_keeps_receiver;
      [exact Hbound|intros s2; now rewrite head_round_spec
      |intros e s2 r1 s3; apply Hret|intros a s2 r1 s3; apply Hret].
  - unfold DeleteObject, bind, self. rewrite DeleteObject_loop_retry.
    apply retry_keeps_receiver;
      [exact Hbound|intros s1; now rewrite delete_round_spec
      |intros e s1 r1 s2; apply Hret|intros a s1 r1 s2; apply Hret].
Qed.

Lemma object_operations_keep_receiver_witness :
  uint_retryCnt (Demo.start 1 2)
  /\ exists s',
       perform Demo.etag Demo.join (OpGetObjectContent Demo.obj) (Demo.start 1 2)
       = Done None s'
       /\ this s' = Demo.client 1 2.
Proof.
  assert (Hb : uint_retryCnt (Demo.start 1 2)) by reflexivity.
  split; [exact Hb|].
  assert (exists s', perform Demo.etag Demo.join (OpGetObjectContent Demo.obj)
                       (Demo.start 1 2) = Done None s')
    as (s' & E) by (eexists; vm_compute; reflexivity).
  exists s'. split; [exact E|].
  apply (object_operations_keep_receiver Demo.etag Demo.join _ _ _ _ Hb) in E;
    [exact E|discriminate].
Defined.

(** ** What the getters return *)

Section Getters.
Variable strongEtag : option string -> option string.

Lemma GetObjectMeta_result (obj obj' : Object) (e : error) (s s' : State) :
  uint_retryCnt s ->
  GetObjectMeta strongEtag obj s = Done (obj', Some e) s' ->
  obj' = obj
  /\ svcHeadObject (awsSvc (this s)) (clock s' - 1) (object_ref (this s) obj) = inl e.
Proof.
  intros Hbound. unfold GetObjectMeta, bind, self. rewrite GetObjectMeta_loop_retry.
  set (input := object_ref (this s) obj).
  revert obj' e s'.
  apply (retry_rule (head_round strongEtag input obj) _ _ (retryCnt (this s))
           (fun _ s1 => this s1 = this s)
           (fun o => forall obj' e s', o = Done (obj', Some e) s' -> _));
    [exact Hbound| |lia|reflexivity|unfold rounds; lia].
  intros i s1 Hi Hthis. rewrite head_round_spec, Hthis.
  destruct (svcHeadObject (awsSvc (this s)) (clock s1) input) as [e|result] eqn:E.
  - split; [reflexivity|]. split; [intros _; reflexivity|].
    intros _ obj' e' s' [= <- <- <-]. cbn [clock].
    replace (S (clock s1) - 1) with (clock s1) by lia. now split.
  - intros obj' e' s' H. discriminate H.
Qed.

(** X3: a content fetch that returns nil has filled the object from the
    answer to its last request: [Content] is the whole body of that answer,
    whatever length the answer declared (the declared length only sizes the
    buffer), the eight metadata fields are the answer's, and [Key],
    [VersionId], [IsLatest] and [ACL] are as they were. *)
Theorem GetObjectContent_fills_from_last_answer
    (obj obj' : Object) (s s' : State) :
  uint_retryCnt s ->
  GetObjectContent strongEtag obj s = Done (obj', None) s' ->
  exists result,
    svcGetObject (awsSvc (this s)) (clock s' - 1) (object_ref (this s) obj) = inr result
    /\ failure (goBody result) = None
    /\ Content obj' = Some (concat (chunks (goBody result)))
    /\ ContentType obj' = hoContentType (goMeta result)
    /\ ContentDisposition obj' = hoContentDisposition (goMeta result)
    /\ ContentEncoding obj' = hoContentEncoding (goMeta result)
    /\ ContentLanguage obj' = hoContentLanguage (goMeta result)
    /\ ETag obj' = strongEtag (hoETag (goMeta result))
    /\ Metadata obj' = hoMetadata (goMeta result)
    /\ Mtime obj' = hoLastModified (goMeta result)
    /\ CacheControl obj' = hoCacheControl (goMeta result)
    /\ Key obj' = Key obj /\ VersionId obj' = VersionId obj
    /\ IsLatest obj' = IsLatest obj /\ ACL obj' = ACL obj.
Proof.
  intros Hbound HG.
  destruct (GetObjectContent_result strongEtag obj obj' None s s' Hbound HG) as (result & Hres & Hf & ->).
  exists result. repeat split; assumption.
Qed.

(** X4: a getter that returns an error returns the object exactly as it
    was given, no field assigned, and the error is the one its last request
    (or the last body) produced. *)
Theorem getters_leave_object_on_error
    (obj obj' : Object) (e : error) (s s' : State) :
  uint_retryCnt s ->
  (GetObjectContent strongEtag obj s = Done (obj', Some e) s' ->
   obj' = obj
   /\ get_error (svcGetObject (awsSvc (this s)) (clock s' - 1) (object_ref (this s) obj))
      = Some e)
  /\ (GetObjectMeta strongEtag obj s = Done (obj', Some e) s' ->
      obj' = obj
      /\ svcHeadObject (awsSvc (this s)) (clock s' - 1) (object_ref (this s) obj) = inl e).
Proof.
  intros Hbound. split.
  - intros HG. exact (GetObjectContent_result strongEtag obj obj' (Some e) s s' Hbound HG).
  - intros HM. exact (GetObjectMeta_result obj obj' e s s' Hbound HM).
Qed.

(** X5: an answered get request that declares a negative length makes the
    content fetch panic on the spot: one get request, no byte copied, no
    retry and no error returned. *)
Theorem GetObjectContent_negative_length_panics
    (obj : Object) (s : State) (result : GetObjectOutput) :
  svcGetObject (awsSvc (this s)) (clock s) (object_ref (this s) obj) = inr result ->
  (Int64Value (goContentLength result) < 0)%Z ->
  GetObjectContent strongEtag obj s
  = Panic {| this := this s; clock := S (clock s);
             trace := trace s ++ [EvGetObject (object_ref (this s) obj)] |}.
Proof.
  intros Hres Hneg. unfold GetObjectContent, rounds, bind at 1, self.
  cbn [GetObjectContent_loop]. unfold GetObjectWithContext, bind, self, tick, emit, ret.
  cbn [this clock trace]. rewrite Hres. cbn [request_error isErr andb].
  unfold NewBuffer, makes. now rewrite (proj2 (Z.leb_gt _ _) Hneg).
Qed.

(** X14: an answered get request that declares a length of which [make]
    yields no slice (above the allocation limit, or more than the memory
    there is) ends the content fetch on the spot, whatever the retry count:
    one get request, no byte copied, no retry and no error returned. *)
Theorem GetObjectContent_unmade_buffer_panics
    (obj : Object) (s : State) (result : GetObjectOutput) :
  svcGetObject (awsSvc (this s)) (clock s) (object_ref (this s) obj) = inr result ->
  makes (awsSvc (this s)) (S (clock s)) (Int64Value (goContentLength result)) = false ->
  GetObjectContent strongEtag obj s
  = Panic {| this := this s; clock := S (clock s);
             trace := trace s ++ [EvGetObject (object_ref (this s) obj)] |}.
Proof.
  intros Hres Hmake. unfold GetObjectContent, rounds, bind at 1, self.
  cbn [GetObjectContent_loop]. unfold GetObjectWithContext, bind, self, tick, emit, ret.
  cbn [this clock trace]. rewrite Hres. cbn [request_error isErr andb].
  unfold NewBuffer. cbn [this clock]. now rewrite Hmake.
Qed.

End Getters.

Lemma GetObjectContent_fills_from_last_answer_witness :
  uint_retryCnt (Edge.start 1)
  /\ exists obj' s',
       GetObjectContent Demo.etag Demo.obj (Edge.start 1) = Done (obj', None) s'
       /\ Content obj' = Some [x01; x02; x03]
       /\ Key obj' = Some "k"%string.
Proof.
  assert (Hb : uint_retryCnt (Edge.start 1)) by reflexivity.
  split; [exact Hb|].
  assert (exists obj' s', GetObjectContent Demo.etag Demo.obj (Edge.start 1)
                          = Done (obj', None) s')
    as (obj' & s' & E) by (eexists _, _; vm_compute; reflexivity).
  destruct (GetObjectContent_fills_from_last_answer Demo.etag Demo.obj obj' _ s' Hb E)
    as (result & Hres & _ & Hc & Hrest).
  exists obj', s'. split; [exact E|].
  injection Hres as <-. split; [exact Hc|]. apply Hrest.
Defined.

Lemma getters_leave_object_on_error_witness :
  uint_retryCnt (Demo.start 5 1)
  /\ (exists s', GetObjectContent Demo.etag Demo.obj (Demo.start 5 1)
                 = Done (Demo.obj, Some (Demo.boom 1)) s')
  /\ (exists s', GetObjectMeta Demo.etag Demo.obj (Demo.start 5 1)
                 = Done (Demo.obj, Some (Demo.boom 1)) s').
Proof.
  assert (Hb : uint_retryCnt (Demo.start 5 1)) by reflexivity.
  split; [exact Hb|].
  assert (exists obj' s', GetObjectContent Demo.etag Demo.obj (Demo.start 5 1)
                          = Done (obj', Some (Demo.boom 1)) s')
    as (o1 & s1 & E1) by (eexists _, _; vm_compute; reflexivity).
  assert (exists obj' s', GetObjectMeta Demo.etag Demo.obj (Demo.start 5 1)
                          = Done (obj', Some (Demo.boom 1)) s')
    as (o2 & s2 & E2) by (eexists _, _; vm_compute; reflexivity).
  destruct (proj1 (getters_leave_object_on_error Demo.etag Demo.obj o1 _ _ s1 Hb) E1)
    as [H1 _].
  destruct (proj2 (getters_leave_object_on_error Demo.etag Demo.obj o2 _ _ s2 Hb) E2)
    as [H2 _].
  subst o1 o2. split; eauto.
Defined.

Lemma GetObjectContent_negative_length_panics_witness :
  exists s1,
    GetObjectContent Demo.etag Demo.obj (Edge.start (-1)) = Panic s1
    /\ clock s1 = 1 /\ waits (trace s1) = [] /\ length (trace s1) = 1.
Proof.
  eexists. split.
  - apply (GetObjectContent_negative_length_panics Demo.etag Demo.obj (Edge.start (-1))
             {| goContentLength := Some (-1)%Z;
                goBody := {| chunks := [[x01]; [x02; x03]]; failure := None |};
                goMeta := Demo.head |}); [reflexivity|cbn; lia].
  - repeat split.
Defined.

(** A declared length of 2^62 bytes on a machine that makes buffers of up
    to 4096: the call panics after its first request, with a retry left. *)
Lemma GetObjectContent_unmade_buffer_panics_witness :
  retryCnt (this (Edge.start (2 ^ 62))) = 1%N
  /\ GetObjectContent Demo.etag Demo.obj (Edge.start (2 ^ 62))
     = Panic {| this := this (Edge.start (2 ^ 62)); clock := 1;
                trace := [EvGetObject (object_ref (this (Edge.start (2 ^ 62))) Demo.obj)] |}.
Proof.
  split; [reflexivity|].
  apply (GetObjectContent_unmade_buffer_panics Demo.etag Demo.obj (Edge.start (2 ^ 62))
           {| goContentLength := Some (2 ^ 62)%Z;
              goBody := {| chunks := [[x01]; [x02; x03]]; failure := None |};
              goMeta := Demo.head |}); reflexivity.
Defined.

(** ** What PutObject sends *)

Lemma reader_seek_pos (pos : nat) (r : Reader) : reader_pos (reader_seek pos r) = pos.
Proof. induction r as [data p|r IH b]; [reflexivity|exact IH]. Qed.

Lemma reader_read_pos (n : nat) (r : Reader) :
  reader_pos r <= reader_pos (snd (fst (reader_read n r))).
Proof.
  induction r as [data p|r IH b]; cbn [reader_read]; [cbn; lia|].
  destruct (reader_read n r) as [[k r'] evs]. exact IH.
Qed.

(** The SDK's reads and seeks never leave a body before the offset it had
    when the call began. *)
Lemma run_body_pos (start : nat) (ops : list BodyOp) (r : Reader) :
  start <= reader_pos r -> start <= reader_pos (fst (run_body start ops r)).
Proof.
  revert r; induction ops as [|[n|] ops IH]; intros r Hr; cbn [run_body]; [exact Hr| |].
  - pose proof (reader_read_pos n r) as Hread.
    destruct (reader_read n r) as [[k r'] evs]. cbn [fst snd] in Hread.
    specialize (IH r' ltac:(lia)). now destruct (run_body start ops r').
  - apply IH. now rewrite reader_seek_pos.
Qed.

Lemma map_seq_split {A : Type} (f : nat -> A) (n : nat) (pre : list A) (a : A)
    (post : list A) :
  map f (seq 0 n) = pre ++ a :: post -> a = f (length pre).
Proof.
  intros Heq.
  assert (Hlen : length pre < n).
  { apply (f_equal (@length A)) in Heq.
    rewrite length_map, length_seq, length_app in Heq. cbn in Heq. lia. }
  apply (f_equal (fun l => nth (length pre) l (f 0))) in Heq.
  rewrite map_nth, seq_nth, app_nth2, Nat.sub_diag in Heq by lia. cbn in Heq. congruence.
Qed.

Lemma skipn_suffix {A : Type} (l : list A) (p q : nat) :
  p <= q -> exists dropped, skipn p l = dropped ++ skipn q l.
Proof.
  intros Hpq. exists (firstn (q - p) (skipn p l)).
  rewrite <- (firstn_skipn (q - p) (skipn p l)) at 1. f_equal.
  rewrite skipn_skipn. f_equal. lia.
Qed.

(** X6: an upload that returns has sent a request in every round, at least
    one.  The first carries the bucket of the client, the object's key
    joined to the client's prefix, the object's transport metadata, ACL and
    user metadata as they are, and as body the limiter's reader over the
    content, at offset 0.  Every later request has the same fields and the
    same body, left where the call before it stopped reading: no round
    seeks it back, so what is left to upload in a retried round is a
    suffix of what was left in the round before. *)
Theorem PutObject_never_rewinds_body
    (filepath_Join : string -> string -> string)
    (obj : Object) (s : State) (r : option error) (s' : State) :
  uint_retryCnt s ->
  PutObject filepath_Join obj s = Done r s' ->
  exists content key added rest,
    Content obj = Some content
    /\ Key obj = Some key
    /\ trace s' = trace s ++ added
    /\ clock s' = clock s + S (length rest)
    /\ put_requests added
       = {| piBucket := awsBucket (this s);
            piKey := Some (filepath_Join (prefix (this s)) key);
            piBody := RateLimitReadSeeker (BytesReader content 0) (rlBucket (this s));
            piContentType := ContentType obj;
            piContentDisposition := ContentDisposition obj;
            piContentEncoding := ContentEncoding obj;
            piContentLanguage := ContentLanguage obj;
            piACL := ACL obj;
            piMetadata := Metadata obj;
            piCacheControl := CacheControl obj |} :: rest
    /\ forall pre request next post,
         put_requests added = pre ++ request :: next :: post ->
         with_body (piBody request) next = request
         /\ piBody next
            = fst (body_run (svcPutObject (awsSvc (this s)) (clock s + length pre) request)
                            (piBody request))
         /\ limited content (rlBucket (this s)) (piBody next)
         /\ reader_pos (piBody request) <= reader_pos (piBody next)
         /\ exists dropped,
              body_left (piBody request) = dropped ++ body_left (piBody next).
Proof.
  intros Hbound. unfold PutObject, bind, self.
  destruct (Content obj) as [content|]; [|discriminate].
  destruct (Key obj) as [key|]; [|discriminate].
  intros HP.
  match type of HP with
  | PutObject_loop _ ?input _ _ = _ => set (first := input) in *
  end.
  assert (Hbody : limited content (rlBucket (this s)) (piBody first)) by (now exists 0).
  destruct (PutObject_loop_trace first content s r s' Hbound Hbody HP)
    as (added & n & Htr & Hclk & Hreq & _).
  assert (Hn : exists j, clock s' = clock s + S j).
  { rewrite PutObject_loop_retry_0 in HP.
    destruct (retry_outcomes (put_round first (clock s)) (fun e => ret (Some e))
                (fun _ => ret None) s Hbound)
      as [(s1 & Hp)|[(j & s1 & a & _ & Hend & Hf)|(s1 & e & Hend & Hg)]].
    - intros s1 _. right.
      destruct (put_round_of first (clock s) s1) as (r0 & s0 & Hr & _). eauto.
    - congruence.
    - rewrite Hf in HP. injection HP as _ <-. exists j. apply Hend.
    - rewrite Hg in HP. injection HP as _ <-. eexists. apply Hend. }
  destruct Hn as (j & Hj). assert (n = S j) by lia. subst n.
  set (sched := put_schedule (awsSvc (this s)) first (clock s)) in *.
  exists content, key, added, (map sched (seq 1 j)).
  split; [reflexivity|]. split; [reflexivity|]. split; [exact Htr|].
  split; [now rewrite length_map, length_seq|].
  split; [exact Hreq|].
  intros pre request next post Hsplit. rewrite Hreq in Hsplit.
  pose proof (map_seq_split sched (S j) pre request (next :: post) Hsplit) as ->.
  assert (Hnext : next = sched (S (length pre))).
  { rewrite (map_seq_split sched (S j) (pre ++ [sched (length pre)]) next post)
      by (now rewrite <- app_assoc).
    rewrite length_app. cbn [length]. now rewrite Nat.add_1_r. }
  subst next. set (request := sched (length pre)).
  assert (Hstep : sched (S (length pre))
                  = with_body (fst (body_run (svcPutObject (awsSvc (this s))
                                                (clock s + length pre) request)
                                             (piBody request))) request) by reflexivity.
  assert (Hl : limited content (rlBucket (this s)) (piBody request))
    by (now apply put_schedule_limited).
  assert (Hl' : limited content (rlBucket (this s)) (piBody (sched (S (length pre)))))
    by (now apply put_schedule_limited).
  assert (Hpos : reader_pos (piBody request) <= reader_pos (piBody (sched (S (length pre))))).
  { rewrite Hstep. cbn [with_body piBody]. now apply run_body_pos. }
  split; [rewrite Hstep; now destruct request|].
  split; [now rewrite Hstep|]. split; [exact Hl'|]. split; [exact Hpos|].
  destruct Hl as (p & Hp), Hl' as (q & Hq). rewrite Hp, Hq in *.
  unfold body_left. cbn in *. now apply skipn_suffix.
Qed.

(** An upload of three bytes against a store that fails the first call
    when one byte has been sent: the retried request has the same key and
    ACL, and its body starts at the second byte. *)
Lemma PutObject_never_rewinds_body_witness :
  uint_retryCnt (Demo.start 1 2)
  /\ exists s',
       PutObject Demo.join Demo.obj (Demo.start 1 2) = Done None s'
       /\ map piKey (put_requests (trace s')) = [Some "pre/k"%string; Some "pre/k"%string]
       /\ map piACL (put_requests (trace s'))
          = [Some "private"%string; Some "private"%string]
       /\ map (fun request => body_left (piBody request)) (put_requests (trace s'))
          = [[x0a; x0b; x0c]; [x0b; x0c]].
Proof.
  assert (Hb : uint_retryCnt (Demo.start 1 2)) by reflexivity.
  split; [exact Hb|].
  assert (exists s', PutObject Demo.join Demo.obj (Demo.start 1 2) = Done None s')
    as (s' & E) by (eexists; vm_compute; reflexivity).
  destruct (PutObject_never_rewinds_body Demo.join Demo.obj _ _ s' Hb E)
    as (content & key & added & rest & Hc & Hk & Htr & Hclk & Hreq & Hnext).
  exists s'. split; [exact E|].
  cbn [trace Demo.start app] in Htr. rewrite Htr.
  assert (Hrun : PutObject Demo.join Demo.obj (Demo.start 1 2) = Done None s') by exact E.
  vm_compute in Hrun. injection Hrun as <-. cbn [trace] in Htr. subst added.
  repeat split.
Defined.

(** ** What List sends *)

Section ListObjects.
Variable strongEtag : option string -> option string.

Lemma listed_object_listing_only (o : ObjectVersion) :
  listing_only (listed_object strongEtag o) /\ Key (listed_object strongEtag o) <> None.
Proof. unfold listing_only. cbn. repeat split. discriminate. Qed.

(** X7: every object a call of [List] sends carries a key (the empty
    string when the record has none) and the listing's identity fields only:
    no content, no transport metadata, no ACL, no user metadata. *)
Theorem List_sends_listing_fields_only (s : State) :
  uint_retryCnt s ->
  exists r s' added,
    List strongEtag s = Done r s'
    /\ trace s' = trace s ++ added
    /\ Forall (fun o => listing_only o /\ Key o <> None) (sent added)
    /\ length (sent added) = length (flat_map Versions (received added)).
Proof.
  intros Hbound.
  destruct (List_serves strongEtag s Hbound) as (r & s' & added & HL & Htr & Hsv & _).
  exists r, s', added. split; [exact HL|]. split; [exact Htr|].
  rewrite Hsv. clear. induction (received added) as [|p ps [IHf IHl]].
  - split; [constructor|reflexivity].
  - cbn [flat_map]. split.
    + apply Forall_app. split; [|exact IHf].
      unfold page_objects. apply Forall_forall. intros o Hin.
      apply in_map_iff in Hin as (v & <- & _). apply listed_object_listing_only.
    + rewrite !length_app, IHl. unfold page_objects. now rewrite length_map.
Qed.

End ListObjects.

Lemma List_sends_listing_fields_only_witness :
  uint_retryCnt (Edge.start 3)
  /\ exists s',
       List Demo.etag (Edge.start 3) = Done None s'
       /\ map Key (sent (trace s')) = [Some EmptyString; Some "a b c"%string]
       /\ Forall (fun o => listing_only o /\ Key o <> None) (sent (trace s')).
Proof.
  assert (Hb : uint_retryCnt (Edge.start 3)) by reflexivity.
  split; [exact Hb|].
  destruct (List_sends_listing_fields_only Demo.etag (Edge.start 3) Hb)
    as (r & s' & added & HL & Htr & Hall & _).
  cbn [trace Edge.start app] in Htr. rewrite <- Htr in Hall.
  assert (Hrun : List Demo.etag (Edge.start 3) = Done r s') by exact HL.
  vm_compute in Hrun. injection Hrun as <- <-.
  eexists. split; [exact HL|]. split; [reflexivity|exact Hall].
Defined.

(** ** The cursor from one call of List to the next *)

Section ListCursor.
Variable strongEtag : option string -> option string.

(** What a call of [List] leaves: the client as it was up to the cursor,
    and the cursor of the last page it received. *)
Lemma List_cursor_left (s : State) :
  uint_retryCnt s ->
  exists r s' added,
    List strongEtag s = Done r s'
    /\ trace s' = trace s ++ added
    /\ same_client (this s) (this s')
    /\ listMarker (this s') = cursor_after (received added) (listMarker (this s)).
Proof.
  intros Hbound.
  destruct (List_trace_invariant strongEtag s
              (fun tr st => same_client (this s) st
                            /\ listMarker st
                               = cursor_after (received tr) (listMarker (this s))) Hbound)
    as (r & s' & added & HL & Htr & Hc & Hm).
  - split; [apply same_client_refl|reflexivity].
  - intros tr st c Hc [_ Hm]. split.
    + eapply same_client_trans; [exact Hc|apply client_after_same].
    + rewrite listMarker_client_after, received_app.
      change (received (EvListVersionsPages (list_input st) :: ?tr0)) with (received tr0).
      now rewrite received_run_events, cursor_after_app, Hm.
  - intros tr st ev Hev [Hc Hm]. split; [exact Hc|].
    now rewrite received_app, received_quiet, app_nil_r.
  - exists r, s', added. auto.
Qed.

(** The first thing a call of [List] does is a paging call built from the
    client as it is at entry. *)
Lemma List_first_call (s : State) (r : option error) (s' : State) :
  uint_retryCnt s ->
  List strongEtag s = Done r s' ->
  exists rest, trace s' = trace s ++ EvListVersionsPages (list_input (this s)) :: rest.
Proof.
  intros Hbound. unfold List, bind, self. rewrite List_loop_retry.
  pose (goal := fun s1 : State =>
          exists rest, trace s1 = trace s ++ EvListVersionsPages (list_input (this s)) :: rest).
  assert (Hq : forall s1 more, goal s1 -> goal (with_trace s1 more)).
  { intros s1 more (rest & Htr). exists (rest ++ more). cbn.
    now rewrite Htr, <- app_assoc. }
  revert r s'.
  apply (retry_rule (list_round strongEtag) _ _ (retryCnt (this s))
           (fun _ s1 => same_client (this s) (this s1) /\ (s1 = s \/ goal s1))
           (fun o => forall r s', o = Done r s' -> goal s'));
    [exact Hbound| |lia|split; [apply same_client_refl|left; reflexivity]
    |unfold rounds; lia].
  intros i s1 Hi (Hc & Hs1). rewrite list_round_spec. cbn zeta.
  set (run := svcListObjectVersions (awsSvc (this s1)) (clock s1) (list_input (this s1))).
  set (s2 := {| this := client_after (run_pages run) (this s1); clock := S (clock s1);
                trace := trace s1 ++ EvListVersionsPages (list_input (this s1))
                         :: run_events strongEtag run (list_input (this s1)) |}).
  assert (Hc2 : same_client (this s) (this s2))
    by (eapply same_client_trans; [exact Hc|apply client_after_same]).
  assert (Hg2 : goal s2).
  { destruct Hs1 as [->|(rest & Htr)].
    - eexists. reflexivity.
    - eexists. cbn. rewrite Htr, <- app_assoc. reflexivity. }
  destruct (run_error run) as [e|].
  - destruct (same_client_retry _ _ Hc2) as (_ & <- & _).
    split; [reflexivity|]. split.
    + intros _. split; [exact Hc2|]. right.
      change (goal (with_trace (with_trace s2 [EvLog "S3 listing failed with error: %s" (Some e)])
                      [EvSleep (retryInterval (this s2))])).
      now apply Hq, Hq.
    + intros _ r s' [= _ <-].
      apply (Hq s2 [EvLog "S3 listing failed with error: %s" (Some e)] Hg2).
  - intros r s' [= _ <-]. apply (Hq s2 [EvLog "Listing bucket finished" None] Hg2).
Qed.

(** X8: [List] never resets the cursor.  Of two calls made one after the
    other on a client, the second begins with a paging call that carries the
    cursor of the last page the first call received (the cursor the first
    call was entered with when it received none), whether the first call
    returned nil or an error. *)
Theorem List_twice_resumes (s : State) :
  uint_retryCnt s ->
  exists r1 s1 added1 r2 s2 rest,
    List strongEtag s = Done r1 s1
    /\ trace s1 = trace s ++ added1
    /\ List strongEtag s1 = Done r2 s2
    /\ trace s2 = trace s1 ++ EvListVersionsPages (list_input (this s1)) :: rest
    /\ liVersionIdMarker (list_input (this s1))
       = cursor_after (received added1) (listMarker (this s)).
Proof.
  intros Hbound.
  destruct (List_cursor_left s Hbound) as (r1 & s1 & added1 & HL1 & Htr1 & Hc & Hm).
  assert (Hbound1 : uint_retryCnt s1).
  { unfold uint_retryCnt in *. destruct (same_client_retry _ _ Hc) as (_ & <- & _).
    exact Hbound. }
  destruct (List_returns strongEtag s1 Hbound1) as (r2 & s2 & HL2).
  destruct (List_first_call s1 r2 s2 Hbound1 HL2) as (rest & Htr2).
  exists r1, s1, added1, r2, s2, rest. repeat split; assumption.
Qed.

End ListCursor.

Lemma List_twice_resumes_witness :
  uint_retryCnt (Demo.start 0 1)
  /\ exists r1 s1 r2 s2,
       List Demo.etag (Demo.start 0 1) = Done r1 s1
       /\ List Demo.etag s1 = Done r2 s2
       /\ map liVersionIdMarker (paging_calls (trace s2)) = [None; Some "m2"%string].
Proof.
  assert (Hb : uint_retryCnt (Demo.start 0 1)) by reflexivity.
  split; [exact Hb|].
  destruct (List_twice_resumes Demo.etag (Demo.start 0 1) Hb)
    as (r1 & s1 & added1 & r2 & s2 & rest & HL1 & _ & HL2 & _ & _).
  exists r1, s1, r2, s2. split; [exact HL1|]. split; [exact HL2|].
  assert (H1 : List Demo.etag (Demo.start 0 1) = Done r1 s1) by exact HL1.
  vm_compute in H1. injection H1 as <- <-.
  assert (H2 := HL2). vm_compute in H2. injection H2 as <- <-. reflexivity.
Defined.

(** ** Keys that hold no escape *)

Lemma scan_plain (k : string) (n : nat) (hasPlus : bool) :
  has_percent k = false ->
  exists hasPlus',
    url.unescape_scan k n hasPlus = inr (n, hasPlus')
    /\ (hasPlus = true -> hasPlus' = true)
    /\ (hasPlus' = false -> plus_to_space k = k).
Proof.
  revert n hasPlus; induction k as [|c rest IH]; intros n hasPlus Hk.
  - exists hasPlus. auto.
  - cbn [has_percent] in Hk. apply orb_false_iff in Hk as [Hc Hrest].
    cbn [url.unescape_scan plus_to_space]. rewrite Hc.
    destruct (Ascii.eqb c url.plus) eqn:Hp.
    + destruct (IH n true Hrest) as (hp' & -> & Hmono & _).
      exists hp'. split; [reflexivity|]. split; [auto|].
      intros Hf. rewrite Hmono in Hf by reflexivity. discriminate.
    + destruct (IH n hasPlus Hrest) as (hp' & -> & Hmono & Hsame).
      exists hp'. split; [reflexivity|]. split; [exact Hmono|].
      intros Hf. now rewrite Hsame.
Qed.

Lemma build_plain (k : string) :
  has_percent k = false -> url.unescape_build k = plus_to_space k.
Proof.
  induction k as [|c rest IH]; intros Hk; [reflexivity|].
  cbn [has_percent] in Hk. apply orb_false_iff in Hk as [Hc Hrest].
  cbn [url.unescape_build plus_to_space]. rewrite Hc, (IH Hrest).
  destruct (Ascii.eqb c url.plus); reflexivity.
Qed.

Lemma QueryUnescape_plain (k : string) :
  has_percent k = false -> url.QueryUnescape k = (plus_to_space k, None).
Proof.
  intros Hk. unfold url.QueryUnescape.
  destruct (scan_plain k 0 false Hk) as (hp' & -> & _ & Hsame).
  cbn [Nat.eqb andb]. destruct hp'; cbn [negb].
  - now rewrite build_plain.
  - now rewrite Hsame.
Qed.

(** X9: when the store sends keys that hold no '%' (it did not encode
    them, or nothing needed an escape), [List]'s callback still decodes
    them: the objects it sends carry each key with every '+' turned into a
    space and every other byte as it is, a record without a key giving the
    empty key; no error arises. *)
Theorem List_decodes_plus_in_plain_keys
    (strongEtag : option string -> option string)
    (p : ListObjectVersionsOutput) (lastPage : bool) (s : State) :
  Forall (fun o => has_percent (StringValue (ovKey o)) = false) (Versions p) ->
  exists s',
    listObjectsFn strongEtag p lastPage s = Done (negb lastPage) s'
    /\ map Key (sent (trace s'))
       = map Key (sent (trace s))
         ++ map (fun o => Some (plus_to_space (StringValue (ovKey o)))) (Versions p)
    /\ Forall (fun o => snd (url.QueryUnescape (StringValue (ovKey o))) = None) (Versions p).
Proof.
  intros Hplain. eexists. split; [apply listObjectsFn_spec|].
  cbn [trace]. rewrite sent_app, sent_sends, map_app. unfold page_objects. rewrite map_map.
  split.
  - f_equal. induction Hplain as [|o vs Ho _ IH]; [reflexivity|].
    cbn [map]. f_equal; [|exact IH].
    cbn [listed_object Key]. now rewrite (QueryUnescape_plain _ Ho).
  - eapply Forall_impl; [|exact Hplain].
    intros o Ho. now rewrite (QueryUnescape_plain _ Ho).
Qed.

Lemma List_decodes_plus_in_plain_keys_witness :
  exists s',
    listObjectsFn Demo.etag
      (mkListOutput [Demo.version "a+b c" true; Demo.version "plain" false] None None None)
      false (Demo.start 0 1)
    = Done true s'
    /\ map Key (sent (trace s')) = [Some "a b c"%string; Some "plain"%string].
Proof.
  destruct (List_decodes_plus_in_plain_keys Demo.etag
              (mkListOutput [Demo.version "a+b c" true; Demo.version "plain" false]
                 None None None)
              false (Demo.start 0 1)) as (s' & Hrun & Hkeys & _).
  - repeat constructor.
  - exists s'. split; [exact Hrun|exact Hkeys].
Defined.

(** ** Setting the rate limit *)

(** X10: [WithRateLimit] either fails with the limiter's error and leaves
    the client as it is, or puts the new bucket in place and touches
    nothing else (cursor, retry settings, trace); every byte a later upload
    or content fetch moves then waits on the new bucket. *)
Theorem WithRateLimit_switches_bucket
    (NewBucketWithRate : Z -> Z -> error + Bucket)
    (strongEtag : option string -> option string)
    (filepath_Join : string -> string -> string)
    (limit : Z) (s : State) :
  uint_retryCnt s ->
  match NewBucketWithRate limit limit with
  | inl err => WithRateLimit NewBucketWithRate limit s = Done (Some err) s
  | inr bucket =>
      exists s1,
        WithRateLimit NewBucketWithRate limit s = Done None s1
        /\ this s1 = set_rlBucket bucket (this s)
        /\ clock s1 = clock s /\ trace s1 = trace s
        /\ (forall obj r s', PutObject filepath_Join obj s1 = Done r s' ->
              exists added, trace s' = trace s1 ++ added /\ waits_on bucket added)
        /\ (forall obj r s', GetObjectContent strongEtag obj s1 = Done r s' ->
              exists added, trace s' = trace s1 ++ added /\ waits_on bucket added)
  end.
Proof.
  intros Hbound. unfold WithRateLimit.
  destruct (NewBucketWithRate limit limit) as [err|bucket]; [reflexivity|].
  eexists. split; [reflexivity|]. cbn [this clock trace].
  split; [reflexivity|]. split; [reflexivity|]. split; [reflexivity|].
  set (s1 := {| this := set_rlBucket bucket (this s); clock := clock s; trace := trace s |}).
  assert (Hbound1 : uint_retryCnt s1) by exact Hbound.
  split.
  - intros obj r s'. unfold PutObject, bind, self.
    destruct (Content obj) as [content|]; [|discriminate].
    destruct (Key obj) as [key|]; [|discriminate].
    intros HP.
    match type of HP with
    | PutObject_loop _ ?input _ _ = _ =>
        destruct (PutObject_loop_trace input content s1 r s' Hbound1 (ex_intro _ 0 eq_refl) HP)
          as (added & n & Htr & _ & _ & Hon & _)
    end.
    exists added. split; [exact Htr|exact Hon].
  - intros obj r s' HG.
    destruct (GetObjectContent_trace strongEtag obj s1 r s' Hbound1 HG)
      as (added & n & Htr & _ & _ & Hon & _).
    exists added. split; [exact Htr|exact Hon].
Qed.

Lemma WithRateLimit_switches_bucket_witness :
  uint_retryCnt (Demo.start 0 1)
  /\ WithRateLimit Edge.new_bucket 0 (Demo.start 0 1)
     = Done (Some (RemoteError "rate")) (Demo.start 0 1)
  /\ exists s1 s',
       WithRateLimit Edge.new_bucket 50 (Demo.start 0 1) = Done None s1
       /\ PutObject Demo.join Demo.obj s1 = Done None s'
       /\ waits (trace s') = [(RateBucket 50 50, 3); (RateBucket 50 50, 3)].
Proof.
  assert (Hb : uint_retryCnt (Demo.start 0 1)) by reflexivity.
  split; [exact Hb|]. split.
  - exact (WithRateLimit_switches_bucket Edge.new_bucket Demo.etag Demo.join 0
             (Demo.start 0 1) Hb).
  - destruct (WithRateLimit_switches_bucket Edge.new_bucket Demo.etag Demo.join 50
                (Demo.start 0 1) Hb) as (s1 & HW & _ & _ & _ & _ & _).
    assert (H1 := HW). vm_compute in H1. injection H1 as <-.
    eexists _, _. split; [exact HW|]. split; [vm_compute; reflexivity|reflexivity].
Defined.

(** ** A client fresh from the constructor *)

Section Fresh.
Variable NewSession : Config.
Variable s3_New : Config -> S3.

(** X12: a client fresh from the constructor lists from the beginning and
    is not throttled: its first paging call names the bucket and the prefix
    given, asks for [keysPerReq] keys with URL encoding and carries no
    marker, and the bytes of an upload wait on the fake bucket. *)
Theorem fresh_client_lists_from_start
    (strongEtag : option string -> option string)
    (filepath_Join : string -> string -> string)
    (awsAccessKey awsSecretKey awsRegion endpoint bucketName prefix : string)
    (keysPerReq : Z) (retryCnt : N) (retryInterval : Duration)
    (c : nat) (tr : list Event) :
  (retryCnt < uint_modulus)%N ->
  let s := {| this := NewS3vStorage NewSession s3_New awsAccessKey awsSecretKey awsRegion
                        endpoint bucketName prefix keysPerReq retryCnt retryInterval;
              clock := c; trace := tr |} in
  (exists r s' rest,
     List strongEtag s = Done r s'
     /\ trace s' = tr ++ EvListVersionsPages
                          {| liBucket := Some bucketName; liPrefix := Some prefix;
                             liMaxKeys := Some keysPerReq;
                             liEncodingType := Some "url"%string;
                             liKeyMarker := None; liVersionIdMarker := None |} :: rest)
  /\ (forall obj r s', PutObject filepath_Join obj s = Done r s' ->
        exists added, trace s' = tr ++ added /\ waits_on FakeBucket added).
Proof.
  intros Hbound s. assert (Hb : uint_retryCnt s) by exact Hbound. split.
  - destruct (List_returns strongEtag s Hb) as (r & s' & HL).
    destruct (List_first_call strongEtag s r s' Hb HL) as (rest & Htr).
    exists r, s', rest. split; [exact HL|exact Htr].
  - intros obj r s'. unfold PutObject, bind, self.
    destruct (Content obj) as [content|]; [|discriminate].
    destruct (Key obj) as [key|]; [|discriminate].
    intros HP.
    match type of HP with
    | PutObject_loop _ ?input _ _ = _ =>
        destruct (PutObject_loop_trace input content s r s' Hb (ex_intro _ 0 eq_refl) HP)
          as (added & n & Htr & _ & _ & Hon & _)
    end.
    exists added. split; [exact Htr|exact Hon].
Qed.

End Fresh.

Lemma fresh_client_lists_from_start_witness :
  exists r s',
    List Demo.etag
      {| this := NewS3vStorage Edge.base_config (fun _ => Demo.svc 0)
                   "" "" "eu" "" "bucket" "pre" 2 1 10%Z;
         clock := 0; trace := [] |}
    = Done r s'
    /\ map liVersionIdMarker (paging_calls (trace s')) = [None]
    /\ map liMaxKeys (paging_calls (trace s')) = [Some 2%Z].
Proof.
  destruct (fresh_client_lists_from_start Edge.base_config (fun _ => Demo.svc 0)
              Demo.etag Demo.join "" "" "eu" "" "bucket" "pre" 2 1 10%Z 0 [])
    as ((r & s' & rest & HL & Htr) & _); [reflexivity|].
  exists r, s'. split; [exact HL|].
  assert (H := HL). vm_compute in H. injection H as <- <-. split; reflexivity.
Defined.

(** ** Which object a request names *)

Lemma retry_events {A R : Type} (attempt : M (Attempt A R))
    (giveup : error -> M R) (finish : A -> M R) (s : State) (G : Event -> Prop)
    (r : R) (s' : State) :
  uint_retryCnt s ->
  (forall s1, match attempt s1 with
              | Done _ s2 => this s2 = this s1
                             /\ exists more, trace s2 = trace s1 ++ more /\ Forall G more
              | _ => True
              end) ->
  (forall msg e, G (EvLog msg e)) ->
  (forall d, G (EvSleep d)) ->
  (forall e s1, exists r1, giveup e s1 = Done r1 s1) ->
  (forall a s1, exists r1, finish a s1 = Done r1 s1) ->
  retry (rounds (this s)) attempt giveup finish 0%N s = Done r s' ->
  exists added, trace s' = trace s ++ added /\ Forall G added.
Proof.
  intros Hbound Hround Hlog Hsleep Hgiveup Hfinish. revert r s'.
  pose (Inv := fun s1 : State =>
          this s1 = this s /\ exists added, trace s1 = trace s ++ added /\ Forall G added).
  apply (retry_rule attempt giveup finish (retryCnt (this s))
           (fun _ s1 => Inv s1)
           (fun o => forall r s', o = Done r s' ->
                       exists added, trace s' = trace s ++ added /\ Forall G added));
    [exact Hbound| |lia| |unfold rounds; lia].
  - intros i s1 Hi (Hthis & added & Htr & HG). specialize (Hround s1).
    destruct (attempt s1) as [[msg e beyond|a] s2| |]; try discriminate.
    + destruct Hround as (Hthis2 & more & Htr2 & HG2).
      split; [congruence|]. split.
      * intros _. split; [cbn; congruence|].
        exists (added ++ more ++ [EvLog msg (Some e); EvSleep (retryInterval (this s2))]).
        split; [cbn; rewrite Htr2, Htr, <- !app_assoc; reflexivity|].
        apply Forall_app. split; [exact HG|]. apply Forall_app. split; [exact HG2|].
        repeat constructor; auto.
      * intros _ r s'. destruct (Hgiveup e s2) as (r1 & ->). intros [= _ <-].
        exists (added ++ more). split; [now rewrite Htr2, Htr, app_assoc|].
        apply Forall_app. now split.
    + destruct Hround as (Hthis2 & more & Htr2 & HG2).
      intros r s'. destruct (Hfinish a s2) as (r1 & ->). intros [= _ <-].
      exists (added ++ more). split; [now rewrite Htr2, Htr, app_assoc|].
      apply Forall_app. now split.
  - split; [reflexivity|]. exists []. split; [now rewrite app_nil_r|constructor].
Qed.

(** X13: a content fetch, a metadata fetch and a delete name the object by
    the client's bucket and by the object's own [Key] and [VersionId], as
    they are given, in every request of the call; the client's prefix, which
    an upload joins to the key, does not enter. *)
Theorem object_requests_use_key_as_given
    (strongEtag : option string -> option string)
    (filepath_Join : string -> string -> string)
    (op : Operation) (obj : Object) (s : State) (r : option error) (s' : State) :
  uint_retryCnt s ->
  op = OpGetObjectContent obj \/ op = OpGetObjectMeta obj \/ op = OpDeleteObject obj ->
  perform strongEtag filepath_Join op s = Done r s' ->
  exists added,
    trace s' = trace s ++ added
    /\ Forall (addresses {| orBucket := awsBucket (this s); orKey := Key obj;
                            orVersionId := VersionId obj |}) added.
Proof.
  intros Hbound Hop.
  set (ref := {| orBucket := awsBucket (this s); orKey := Key obj;
                 orVersionId := VersionId obj |}).
  assert (Hwaits : forall b (cs : list (list byte)),
            Forall (addresses ref)
              (flat_map (fun c => write_waits (RateLimitWriter BufferWriter b) (length c)) cs)).
  { intros b cs. induction cs as [|c cs IH]; [constructor|]. cbn. constructor; [exact I|exact IH]. }
  destruct Hop as [->|[->| ->]]; cbn [perform].
  - unfold GetObjectContent. unfold bind at 1 2, self. rewrite GetObjectContent_loop_retry.
    destruct (retry _ _ _ _ _ s) as [[obj' err] s1| |] eqn:E; try discriminate.
    intros [= _ <-]. revert E.
    apply retry_events; try (intros; exact I); try (intros; eexists; reflexivity);
      [exact Hbound|].
    intros s2.
    destruct (get_round_cases strongEtag (object_ref (this s) obj) obj s2) as [(s3 & ->)|Hsized]; [exact I|].
    rewrite get_round_spec by exact Hsized. split; [reflexivity|].
    eexists. split; [reflexivity|]. constructor; [reflexivity|].
    destruct (svcGetObject _ _ _); [constructor|apply Hwaits].
  - unfold GetObjectMeta. unfold bind at 1 2, self. rewrite GetObjectMeta_loop_retry.
    destruct (retry _ _ _ _ _ s) as [[obj' err] s1| |] eqn:E; try discriminate.
    intros [= _ <-]. revert E.
    apply retry_events; try (intros; exact I); try (intros; eexists; reflexivity);
      [exact Hbound|].
    intros s2. rewrite head_round_spec. split; [reflexivity|].
    eexists. split; [reflexivity|]. repeat constructor.
  - unfold DeleteObject, bind, self. rewrite DeleteObject_loop_retry.
    apply retry_events; try (intros; exact I); try (intros; eexists; reflexivity);
      [exact Hbound|].
    intros s1. rewrite delete_round_spec. split; [reflexivity|].
    eexists. split; [reflexivity|]. repeat constructor.
Qed.

Lemma object_requests_use_key_as_given_witness :
  uint_retryCnt (Demo.start 1 2)
  /\ exists s',
       perform Demo.etag Demo.join (OpDeleteObject Demo.obj) (Demo.start 1 2) = Done None s'
       /\ Forall (addresses (mkRef (Some "bucket"%string) (Some "k"%string)
                               (Some "v1"%string))) (trace s')
       /\ length (trace s') = 4.
Proof.
  assert (Hb : uint_retryCnt (Demo.start 1 2)) by reflexivity.
  split; [exact Hb|].
  assert (exists s', perform Demo.etag Demo.join (OpDeleteObject Demo.obj) (Demo.start 1 2)
                     = Done None s')
    as (s' & E) by (eexists; vm_compute; reflexivity).
  destruct (object_requests_use_key_as_given Demo.etag Demo.join _ Demo.obj _ _ s' Hb
              (or_intror (or_intror eq_refl)) E) as (added & Htr & Hall).
  exists s'. cbn [trace Demo.start app] in Htr. rewrite Htr.
  split; [exact E|]. split; [exact Hall|].
  vm_compute in E. injection E as <-. cbn [trace] in Htr. now subst added.
Defined.
